(** * Minesweeper board engine

    A shallow embedding of the board engine of [src/components/Minesweeper.tsx]
    and of the data model of [src/types.ts]: grid initialisation, deferred mine
    placement, the recursive reveal, the win check, flag toggling and restart.

    JavaScript numbers are integers here ([Z]); the board is a list of rows;
    an access [grid[r][c]] outside the board raises a [TypeError]; the values
    of [Math.random] are an input of the model (the list of the cells drawn);
    the recursion of [reveal] is bounded by a fuel that is proved sufficient. *)

From stdpp Require Import base list numbers.

Local Open Scope Z_scope.

(** ** types.ts *)

Inductive Difficulty := Beginner | Intermediate | Expert.

Record GameConfig := mkConfig { rows : Z; cols : Z; mines : Z }.

Definition DIFFICULTIES (d : Difficulty) : GameConfig :=
  match d with
  | Beginner => {| rows := 9; cols := 9; mines := 10 |}
  | Intermediate => {| rows := 16; cols := 16; mines := 40 |}
  | Expert => {| rows := 16; cols := 30; mines := 99 |}
  end.

Record Cell := mkCell {
  row : Z;
  col : Z;
  isMine : bool;
  isRevealed : bool;
  isFlagged : bool;
  neighborMines : Z
}.

Inductive GameStatus := idle | playing | won | lost.

Abbreviation Grid := (list (list Cell)).

#[global] Instance Difficulty_eq_dec : EqDecision Difficulty.
Proof. solve_decision. Defined.
#[global] Instance GameStatus_eq_dec : EqDecision GameStatus.
Proof. solve_decision. Defined.
#[global] Instance Cell_eq_dec : EqDecision Cell.
Proof. solve_decision. Defined.

(** ** Results of fallible code *)

Inductive Error :=
| TypeError        (* a property read on [undefined] *)
| OutOfFuel        (* the bound on the depth of [reveal] was reached *)
| RandomExhausted. (* the list of random draws ended inside the loop *)

Inductive Res (A : Type) :=
| Ok (a : A)
| Fail (e : Error).
Arguments Ok {A} a.
Arguments Fail {A} e.

Definition bindRes {A B} (m : Res A) (k : A → Res B) : Res B :=
  match m with
  | Ok a => k a
  | Fail e => Fail e
  end.

Notation "x ←! m ; k" := (bindRes m (λ x, k))
  (at level 20, m at level 100, k at level 200, right associativity,
   format "x  ←!  m ;  '/' k").

(** A [for] or [forEach] loop whose body may fail, threading the mutated
    variables as [s]. *)
Fixpoint forEach {A S} (l : list A) (body : S → A → Res S) (s : S) : Res S :=
  match l with
  | [] => Ok s
  | x :: l' => s' ←! body s x; forEach l' body s'
  end.

(** ** Array access *)

(** [grid[r][c]], [None] when it is [undefined] (or when [grid[r]] is). *)
Definition cellAt (g : Grid) (r c : Z) : option Cell :=
  if decide (0 ≤ r ∧ 0 ≤ c) then
    rw ← g !! Z.to_nat r; rw !! Z.to_nat c
  else None.

(** Reading a property of [grid[r][c]]. *)
Definition getCell (g : Grid) (r c : Z) : Res Cell :=
  match cellAt g r c with
  | Some cell => Ok cell
  | None => Fail TypeError
  end.

(** Assigning properties of the object [grid[r][c]], after it was read. *)
Definition updCell (g : Grid) (r c : Z) (f : Cell → Cell) : Grid :=
  if decide (0 ≤ r ∧ 0 ≤ c) then
    alter (alter f (Z.to_nat c)) (Z.to_nat r) g
  else g.

Definition setMine (b : bool) (x : Cell) : Cell :=
  {| row := row x; col := col x; isMine := b; isRevealed := isRevealed x;
     isFlagged := isFlagged x; neighborMines := neighborMines x |}.
Definition setRevealed (b : bool) (x : Cell) : Cell :=
  {| row := row x; col := col x; isMine := isMine x; isRevealed := b;
     isFlagged := isFlagged x; neighborMines := neighborMines x |}.
Definition setFlagged (b : bool) (x : Cell) : Cell :=
  {| row := row x; col := col x; isMine := isMine x; isRevealed := isRevealed x;
     isFlagged := b; neighborMines := neighborMines x |}.
Definition setNeighborMines (n : Z) (x : Cell) : Cell :=
  {| row := row x; col := col x; isMine := isMine x; isRevealed := isRevealed x;
     isFlagged := isFlagged x; neighborMines := n |}.

(** [grid.length] and [grid[0].length]. *)
Definition gridLength (g : Grid) : Z := Z.of_nat (length g).
Definition rowLength0 (g : Grid) : Z := Z.of_nat (length (default [] (g !! 0%nat))).

(** Counting loop [grid.forEach(row => row.forEach(cell => { if (p cell) n++ }))]. *)
Definition countCells (p : Cell → bool) (g : Grid) : Z :=
  foldl (λ n rw, foldl (λ n cell, if p cell then n + 1 else n) n rw) 0 g.

(** ** The component state *)

Record State := mkState {
  difficulty : Difficulty;
  grid : Grid;
  status : GameStatus;
  mineCount : Z;
  timer : Z;
  timerRef : bool;   (* [timerRef.current] holds an interval handle *)
  ticking : bool     (* that interval has not been cleared *)
}.

(** [useState] initial values, before the first effect runs. *)
Definition initialState : State :=
  {| difficulty := Beginner; grid := []; status := idle; mineCount := 0;
     timer := 0; timerRef := false; ticking := false |}.

(** ** initGrid *)

Definition initGrid (config : GameConfig) : Grid :=
  foldl (λ newGrid r,
           newGrid ++ [foldl (λ rw c, rw ++ [mkCell r c false false false 0])
                             [] (seqZ 0 (cols config))])
        [] (seqZ 0 (rows config)).

(** ** startGame *)

Definition startGame (s : State) : State :=
  let config := DIFFICULTIES (difficulty s) in
  {| difficulty := difficulty s;
     grid := initGrid config;
     status := idle;
     mineCount := mines config;
     timer := 0;
     timerRef := timerRef s;
     ticking := if timerRef s then false else ticking s |}.

(** Choosing a difficulty: [setDifficulty] of the value already held changes
    nothing, [startGame] is not re-created and no effect runs; another value
    re-creates [startGame], whose effect runs it. *)
Definition selectDifficulty (d : Difficulty) (s : State) : State :=
  if decide (d = difficulty s) then s
  else startGame {| difficulty := d; grid := grid s; status := status s;
                    mineCount := mineCount s; timer := timer s;
                    timerRef := timerRef s; ticking := ticking s |}.

(** One tick of the interval. *)
Definition tick (s : State) : State :=
  {| difficulty := difficulty s; grid := grid s; status := status s;
     mineCount := mineCount s;
     timer := if ticking s then timer s + 1 else timer s;
     timerRef := timerRef s; ticking := ticking s |}.

(** ** placeMines *)

(** The [while] loop; [random] lists the pairs
    [(Math.floor(Math.random() * rows), Math.floor(Math.random() * cols))]
    of the successive iterations. *)
Fixpoint placeLoop (config : GameConfig) (firstRow firstCol : Z)
    (random : list (Z * Z)) (newGrid : Grid) (minesPlaced : Z) : Res Grid :=
  if decide (minesPlaced < mines config) then
    match random with
    | [] => Fail RandomExhausted
    | (r, c) :: random' =>
        cell ←! getCell newGrid r c;
        if negb (isMine cell) &&
           negb ((Z.abs (r - firstRow) <=? 1) && (Z.abs (c - firstCol) <=? 1))
        then placeLoop config firstRow firstCol random'
               (updCell newGrid r c (setMine true)) (minesPlaced + 1)
        else placeLoop config firstRow firstCol random' newGrid minesPlaced
    end
  else Ok newGrid.

(** The two inner loops over [dr] and [dc]. *)
Definition countAround (config : GameConfig) (newGrid : Grid) (r c : Z) : Res Z :=
  forEach (seqZ (-1) 3) (λ count dr,
    forEach (seqZ (-1) 3) (λ count dc,
      let nr := r + dr in
      let nc := c + dc in
      if (0 <=? nr) && (nr <? rows config) && (0 <=? nc) && (nc <? cols config)
      then cell ←! getCell newGrid nr nc;
           Ok (if isMine cell then count + 1 else count)
      else Ok count) count) 0.

(** The two outer loops over [r] and [c]. *)
Definition computeNeighbors (config : GameConfig) (newGrid : Grid) : Res Grid :=
  forEach (seqZ 0 (rows config)) (λ newGrid r,
    forEach (seqZ 0 (cols config)) (λ newGrid c,
      cell ←! getCell newGrid r c;
      if negb (isMine cell)
      then count ←! countAround config newGrid r c;
           Ok (updCell newGrid r c (setNeighborMines count))
      else Ok newGrid) newGrid) newGrid.

Definition placeMines (d : Difficulty) (initialGrid : Grid) (firstRow firstCol : Z)
    (random : list (Z * Z)) : Res Grid :=
  let config := DIFFICULTIES d in
  newGrid ←! placeLoop config firstRow firstCol random initialGrid 0;
  computeNeighbors config newGrid.

(** ** revealCell *)

(** What the handler has written so far: the local [newGrid], the last
    [setStatus], and the timer reference. The [status] the handler reads is
    the one of the render it was created in, whatever was set meanwhile. *)
Record Pending := mkPending {
  newGrid : Grid;
  nextStatus : GameStatus;
  pTimerRef : bool;
  pTicking : bool
}.

Definition withGrid (g : Grid) (p : Pending) : Pending :=
  {| newGrid := g; nextStatus := nextStatus p;
     pTimerRef := pTimerRef p; pTicking := pTicking p |}.
Definition setStatus (st : GameStatus) (p : Pending) : Pending :=
  {| newGrid := newGrid p; nextStatus := st;
     pTimerRef := pTimerRef p; pTicking := pTicking p |}.
Definition startTimer (p : Pending) : Pending :=
  if pTimerRef p then p
  else {| newGrid := newGrid p; nextStatus := nextStatus p;
          pTimerRef := true; pTicking := true |}.
Definition stopTimer (p : Pending) : Pending :=
  if pTimerRef p
  then {| newGrid := newGrid p; nextStatus := nextStatus p;
          pTimerRef := false; pTicking := false |}
  else p.

(** Nothing written yet: the values of the render. *)
Definition pendingOf (s : State) : Pending :=
  {| newGrid := grid s; nextStatus := status s;
     pTimerRef := timerRef s; pTicking := ticking s |}.

Definition revealMines (g : Grid) : Grid :=
  map (map (λ cell, if isMine cell then setRevealed true cell else cell)) g.

(** The inner function [reveal]; [fuel] bounds the depth of the recursion. *)
Fixpoint reveal (fuel : nat) (p : Pending) (row col : Z) : Res Pending :=
  match fuel with
  | O => Fail OutOfFuel
  | S fuel' =>
      if (row <? 0) || (row >=? gridLength (newGrid p)) ||
         (col <? 0) || (col >=? rowLength0 (newGrid p))
      then Ok p
      else
        cell ←! getCell (newGrid p) row col;
        if isRevealed cell || isFlagged cell then Ok p
        else
          let p := withGrid (updCell (newGrid p) row col (setRevealed true)) p in
          if isMine cell then
            let p := stopTimer (setStatus lost p) in
            Ok (withGrid (revealMines (newGrid p)) p)
          else if neighborMines cell =? 0 then
            forEach (seqZ (-1) 3) (λ p dr,
              forEach (seqZ (-1) 3) (λ p dc,
                reveal fuel' p (row + dr) (col + dc)) p) p
          else Ok p
  end.

(** A call of [reveal] marks a cell revealed before it recurses, so the depth
    never exceeds the number of cells. *)
Definition revealFuel (g : Grid) : nat := S (length (concat g)).

Definition commit (s : State) (p : Pending) : State :=
  {| difficulty := difficulty s; grid := newGrid p; status := nextStatus p;
     mineCount := mineCount s; timer := timer s;
     timerRef := pTimerRef p; ticking := pTicking p |}.

(** The part of [revealCell] up to and including the call [reveal(r, c)]. *)
Definition revealPhase (s : State) (random : list (Z * Z)) (r c : Z) : Res Pending :=
  currentGrid ←! (if decide (status s = idle)
                  then placeMines (difficulty s) (grid s) r c random
                  else Ok (grid s));
  let p := pendingOf s in
  let p := if decide (status s = idle) then startTimer (setStatus playing p) else p in
  let p := withGrid currentGrid p in
  reveal (revealFuel currentGrid) p r c.

(** The count-based check that ends [revealCell]; it tests the [status] of
    the render, not what [reveal] has set. *)
Definition winCheck (s : State) (p : Pending) : Pending :=
  if decide (status s ≠ lost) then
    let config := DIFFICULTIES (difficulty s) in
    let unrevealedCount := countCells (λ cell, negb (isRevealed cell)) (newGrid p) in
    if decide (unrevealedCount = mines config)
    then stopTimer (setStatus won p)
    else p
  else p.

Definition revealCell (s : State) (random : list (Z * Z)) (r c : Z) : Res State :=
  if decide (status s = won) then Ok s
  else if decide (status s = lost) then Ok s
  else
    cell ←! getCell (grid s) r c;
    if isRevealed cell || isFlagged cell then Ok s
    else
      p ←! revealPhase s random r c;
      Ok (commit s (winCheck s p)).

(** ** toggleFlag *)

Definition toggleFlag (s : State) (r c : Z) : Res State :=
  if decide (status s = won) then Ok s
  else if decide (status s = lost) then Ok s
  else
    cell ←! getCell (grid s) r c;
    if isRevealed cell then Ok s
    else
      let flagged := negb (isFlagged cell) in
      Ok {| difficulty := difficulty s;
            grid := updCell (grid s) r c (setFlagged flagged);
            status := status s;
            mineCount := if flagged then mineCount s - 1 else mineCount s + 1;
            timer := timer s; timerRef := timerRef s; ticking := ticking s |}.

(** ** Vocabulary of the specification *)

(** The cell positions of the 3x3 block centred on [(r, c)]. *)
Definition inBox (r c r' c' : Z) : Prop := Z.abs (r' - r) ≤ 1 ∧ Z.abs (c' - c) ≤ 1.

(** The eight Moore neighbours of [(r, c)]; those outside the board hold no
    cell, which clips the neighbourhood at the edges. *)
Definition moore (r c : Z) : list (Z * Z) :=
  [(r - 1, c - 1); (r - 1, c); (r - 1, c + 1);
   (r, c - 1); (r, c + 1);
   (r + 1, c - 1); (r + 1, c); (r + 1, c + 1)].

Definition mineAt (g : Grid) (r c : Z) : bool :=
  match cellAt g r c with Some x => isMine x | None => false end.
Definition revealedAt (g : Grid) (r c : Z) : bool :=
  match cellAt g r c with Some x => isRevealed x | None => false end.
Definition flaggedAt (g : Grid) (r c : Z) : bool :=
  match cellAt g r c with Some x => isFlagged x | None => false end.

(** Brute-force reference: the number of mines among the Moore neighbours. *)
Definition mineNeighbors (g : Grid) (r c : Z) : Z :=
  Z.of_nat (length (List.filter (λ q, mineAt g q.1 q.2) (moore r c))).

(** The number of cells of the board that satisfy [p]. *)
Definition cellCount (p : Cell → bool) (g : Grid) : Z :=
  Z.of_nat (length (List.filter p (concat g))).

(** The lengths of the rows. *)
Definition shape (g : Grid) : list nat := map length g.

(** A board of [rows] x [cols] cells. *)
Definition hasDims (config : GameConfig) (g : Grid) : Prop :=
  shape g = replicate (Z.to_nat (rows config)) (Z.to_nat (cols config)).

(** The board of status idle: a fresh grid on which only flags were set. *)
Definition idleBoard (config : GameConfig) (g : Grid) : Prop :=
  map (map (setFlagged false)) g = initGrid config.


(** Two boards that differ at most in the field that [erase] overwrites. *)
Definition sameModulo (erase : Cell → Cell) (g g' : Grid) : Prop :=
  map (map erase) g = map (map erase) g'.

(** A draw of [Math.random] is a cell of the board. *)
Definition inRange (config : GameConfig) (q : Z * Z) : bool :=
  (0 <=? q.1) && (q.1 <? rows config) && (0 <=? q.2) && (q.2 <? cols config).

Definition outsideBox (firstRow firstCol : Z) (q : Z * Z) : bool :=
  negb ((Z.abs (q.1 - firstRow) <=? 1) && (Z.abs (q.2 - firstCol) <=? 1)).

(** The random source draws cells of the board only, and among them at least
    [mines] distinct cells outside the 3x3 block of the anchor; the loop of
    [placeMines] then comes to an end. *)
Definition enoughDraws (config : GameConfig) (firstRow firstCol : Z)
    (random : list (Z * Z)) : bool :=
  forallb (inRange config) random &&
  (mines config <=?
     Z.of_nat (length (remove_dups (List.filter (outsideBox firstRow firstCol) random)))).

(** The fields that [placeMines] writes, cleared. *)
Definition clearPlacement (x : Cell) : Cell := setNeighborMines 0 (setMine false x).

(** The counts on the board are those of its mines. *)
Definition consistent (g : Grid) : Prop :=
  ∀ r c x, cellAt g r c = Some x → isMine x = false →
           neighborMines x = mineNeighbors g r c.

Definition consistentb (config : GameConfig) (g : Grid) : bool :=
  forallb (λ q, match cellAt g q.1 q.2 with
                | Some x => isMine x || (neighborMines x =? mineNeighbors g q.1 q.2)
                | None => true
                end)
          (list_prod (seqZ 0 (rows config)) (seqZ 0 (cols config))).

(** The board once the mines are placed. *)
Definition placedBoard (config : GameConfig) (g : Grid) : Prop :=
  hasDims config g ∧ cellCount isMine g = mines config ∧ consistent g.

(** ** The cascade of reveal *)

(** The offsets [(dr, dc)] in the order of the two loops of [reveal]. *)
Definition offsets : list (Z * Z) := list_prod (seqZ (-1) 3) (seqZ (-1) 3).

Definition around (row col : Z) : list (Z * Z) :=
  map (λ q, (row + q.1, col + q.2)) offsets.

Definition markRevealed (p : Pending) (row col : Z) : Pending :=
  withGrid (updCell (newGrid p) row col (setRevealed true)) p.

(** The loss: status lost, the timer stopped and every mine revealed. *)
Definition disclose (p : Pending) : Pending :=
  let p := stopTimer (setStatus lost p) in
  withGrid (revealMines (newGrid p)) p.

(** The calls of [reveal] that return, as a relation: [Reveal p row col p']
    when the call at [(row, col)] turns [p] into [p'], and [RevealAll] for the
    successive calls of the two loops. *)
Inductive Reveal : Pending → Z → Z → Pending → Prop :=
| Reveal_outside p row col :
    cellAt (newGrid p) row col = None →
    Reveal p row col p
| Reveal_skip p row col cell :
    cellAt (newGrid p) row col = Some cell →
    isRevealed cell || isFlagged cell = true →
    Reveal p row col p
| Reveal_mine p row col cell :
    cellAt (newGrid p) row col = Some cell →
    isRevealed cell || isFlagged cell = false →
    isMine cell = true →
    Reveal p row col (disclose (markRevealed p row col))
| Reveal_number p row col cell :
    cellAt (newGrid p) row col = Some cell →
    isRevealed cell || isFlagged cell = false →
    isMine cell = false →
    neighborMines cell ≠ 0 →
    Reveal p row col (markRevealed p row col)
| Reveal_zero p row col cell p' :
    cellAt (newGrid p) row col = Some cell →
    isRevealed cell || isFlagged cell = false →
    isMine cell = false →
    neighborMines cell = 0 →
    RevealAll (markRevealed p row col) (around row col) p' →
    Reveal p row col p'
with RevealAll : Pending → list (Z * Z) → Pending → Prop :=
| RevealAll_nil p :
    RevealAll p [] p
| RevealAll_cons p q qs p1 p2 :
    Reveal p q.1 q.2 p1 →
    RevealAll p1 qs p2 →
    RevealAll p (q :: qs) p2.

Scheme Reveal_mut := Minimality for Reveal Sort Prop
  with RevealAll_mut := Minimality for RevealAll Sort Prop.
Combined Scheme Reveal_RevealAll_ind from Reveal_mut, RevealAll_mut.

(** A rectangular board: the bounds that [reveal] tests are those of the cells. *)
Definition rect (g : Grid) : Prop :=
  ∀ r c, is_Some (cellAt g r c) ↔ (0 ≤ r < gridLength g ∧ 0 ≤ c < rowLength0 g).

(** [g'] is [g] with more cells revealed. *)
Definition cellExt (x x' : Cell) : Prop :=
  setRevealed false x = setRevealed false x' ∧
  (isRevealed x = true → isRevealed x' = true).
Definition gridExt (g g' : Grid) : Prop := Forall2 (Forall2 cellExt) g g'.

Definition adjacent (a b : Z * Z) : Prop :=
  Z.abs (b.1 - a.1) ≤ 1 ∧ Z.abs (b.2 - a.2) ≤ 1.

(** A cell that [reveal] enters: on the board, neither revealed nor flagged. *)
Definition enterable (g : Grid) (a : Z * Z) : Prop :=
  ∃ x, cellAt g a.1 a.2 = Some x ∧ isRevealed x = false ∧ isFlagged x = false.

(** A cell from which [reveal] goes on to the neighbours. *)
Definition spreads (g : Grid) (a : Z * Z) : Prop :=
  ∃ x, cellAt g a.1 a.2 = Some x ∧ isMine x = false ∧ neighborMines x = 0.

(** [cascade g a b]: starting at [a] on the board [g], the cells entered on
    the way to [b]: each step goes from a cell without a mine and with count
    zero to one of its neighbours, and every cell on the way is on the board,
    hidden and unflagged. *)
Inductive cascade (g : Grid) (a : Z * Z) : Z * Z → Prop :=
| cascade_start :
    enterable g a → cascade g a a
| cascade_next b c :
    cascade g a b → spreads g b → adjacent b c → enterable g c →
    cascade g a c.

(** The revealed cells are closed: when a call has revealed a cell without a
    mine and with count zero, its unflagged neighbours are revealed. *)
Definition closedFrom (g g' : Grid) : Prop :=
  ∀ y x, cellAt g y.1 y.2 = Some x → isRevealed x = false →
         revealedAt g' y.1 y.2 = true → isMine x = false → neighborMines x = 0 →
         ∀ n z, adjacent y n → cellAt g n.1 n.2 = Some z → isFlagged z = false →
                revealedAt g' n.1 n.2 = true.

(** The cells entered from one of the cells [qs], and whether a mine is. *)
Definition reachedFrom (g : Grid) (qs : list (Z * Z)) (y : Z * Z) : Prop :=
  ∃ q, q ∈ qs ∧ cascade g q y.
Definition mineReached (g : Grid) (qs : list (Z * Z)) : Prop :=
  ∃ m, reachedFrom g qs m ∧ mineAt g m.1 m.2 = true.

(** Every cell that the calls have revealed was entered, or is a mine
    disclosed because a mine was entered. *)
Definition soundFrom (g : Grid) (qs : list (Z * Z)) (g' : Grid) : Prop :=
  ∀ y, revealedAt g y.1 y.2 = false → revealedAt g' y.1 y.2 = true →
       reachedFrom g qs y ∨ (mineAt g y.1 y.2 = true ∧ mineReached g qs).

(** The calls have left the status and the timer alone. *)
Definition quiet (p p' : Pending) : Prop :=
  nextStatus p' = nextStatus p ∧ pTimerRef p' = pTimerRef p ∧ pTicking p' = pTicking p.

(** The status is set to lost only when a mine was entered. *)
Definition statusFrom (p : Pending) (qs : list (Z * Z)) (p' : Pending) : Prop :=
  quiet p p' ∨ (mineReached (newGrid p) qs ∧ nextStatus p' = lost).

(** ** The intents of the presentation layer *)

Inductive Intent :=
| DoReveal (random : list (Z * Z)) (r c : Z)
| DoToggleFlag (r c : Z)
| DoSetDifficulty (d : Difficulty)
| DoRestart
| DoTick.

Definition dispatch (s : State) (i : Intent) : Res State :=
  match i with
  | DoReveal random r c => revealCell s random r c
  | DoToggleFlag r c => toggleFlag s r c
  | DoSetDifficulty d => Ok (selectDifficulty d s)
  | DoRestart => Ok (startGame s)
  | DoTick => Ok (tick s)
  end.

(** The first effect runs [startGame] on the initial values. *)
Definition mounted : State := startGame initialState.

Definition run (s : State) (intents : list Intent) : Res State :=
  forEach intents dispatch s.

(** The states of the component. *)
Inductive reachable : State → Prop :=
| reachable_mounted : reachable mounted
| reachable_dispatch s i s' : reachable s → dispatch s i = Ok s' → reachable s'.

(** Idle: a fresh board with flags; afterwards: a board with its mines. *)
Definition invariant (s : State) : Prop :=
  if decide (status s = idle)
  then idleBoard (DIFFICULTIES (difficulty s)) (grid s)
  else placedBoard (DIFFICULTIES (difficulty s)) (grid s).

(** ** Games used as examples *)

(** Draws that put the mines of a Beginner game on [(0, 0)] and on column 2. *)
Definition columnDraws : list (Z * Z) :=
  (0, 0) :: map (λ r, (r, 2)) (seqZ 0 9).

(** Draws that put them on row 0 and on [(8, 0)]. *)
Definition rowDraws : list (Z * Z) :=
  map (λ c, (0, c)) (seqZ 0 9) ++ [(8, 0)].

(** Draws that put them on row 8 and on [(6, 8)]; the first draw is refused
    for an anchor next to [(0, 0)], and the second is drawn twice. *)
Definition bottomDraws : list (Z * Z) :=
  (1, 1) :: (8, 0) :: map (λ c, (8, c)) (seqZ 0 9) ++ [(6, 8)].

Definition boardOf (m : Res Grid) : Grid :=
  match m with Ok g => g | Fail _ => [] end.

Definition stateOf (m : Res State) : State :=
  match m with Ok s => s | Fail _ => initialState end.

(** The Beginner board with the mines of [bottomDraws], anchored at [(0, 0)]. *)
Definition bottomBoard : Grid :=
  boardOf (placeMines Beginner (initGrid (DIFFICULTIES Beginner)) 0 0 bottomDraws).

Definition pendingResult (m : Res Pending) (s : State) : Pending :=
  match m with Ok p => p | Fail _ => pendingOf s end.

(** A Beginner game after a first click on [(0, 0)] with [bottomDraws]: every
    cell without a mine is revealed but [(7, 8)]. *)
Definition oneCellLeft : State := stateOf (revealCell mounted bottomDraws 0 0).

(** A Beginner game in which [(0, 1)] is flagged before the first click. *)
Definition flagThenClick : list Intent :=
  [DoToggleFlag 0 1; DoReveal bottomDraws 0 0].

(** A Beginner game in which [(4, 4)] and [(4, 6)] are flagged, [(4, 5)] is
    clicked, and the two flags are taken off: [(4, 4)] and [(4, 6)] are hidden
    cells of count zero, on either side of the revealed [(4, 5)]. *)
Definition flagsAroundClick : list Intent :=
  [DoToggleFlag 4 4; DoToggleFlag 4 6; DoReveal rowDraws 4 5;
   DoToggleFlag 4 4; DoToggleFlag 4 6].

Definition twoHiddenZeros : State := stateOf (run mounted flagsAroundClick).

(** Modelled on the words of the claim, not on the code: the connected region
    of the cells of count zero that contains [a], flagged cells skipped. *)
Inductive zeroRegion (g : Grid) (a : Z * Z) : Z * Z → Prop :=
| zeroRegion_start :
    zeroRegion g a a
| zeroRegion_next b c :
    zeroRegion g a b → adjacent b c → spreads g c → flaggedAt g c.1 c.2 = false →
    zeroRegion g a c.

(** A Beginner game with the mines of [columnDraws]: the first click at
    [(4, 6)] reveals columns 3 to 8, then column 1 is revealed from row 2 to
    row 8, cell by cell. Ten cells without a mine stay hidden. *)
Definition tenLeft : list Intent :=
  DoReveal columnDraws 4 6 :: map (λ r, DoReveal [] r 1) (seqZ 2 7).

Definition tenLeftState : State := stateOf (run mounted tenLeft).


(** A Beginner game with ten flags before the first click: the counter is 0. *)
Definition tenFlags : State :=
  stateOf (run mounted (map (λ c, DoToggleFlag 0 c) (seqZ 0 9) ++ [DoToggleFlag 1 0])).

(** [oneCellLeft] after a click on its last hidden cell without a mine. *)
Definition wonGame : State := stateOf (revealCell oneCellLeft [] 7 8).

(** A random source that draws every cell of the board once, row by row. *)
Definition allCells (config : GameConfig) : list (Z * Z) :=
  list_prod (seqZ 0 (rows config)) (seqZ 0 (cols config)).

(** [oneCellLeft] with a flag on the mine [(8, 1)]. *)
Definition mineFlagged : State := stateOf (toggleFlag oneCellLeft 8 1).

(** ... and after a click on the mine [(8, 0)]. *)
Definition mineFlaggedLost : State := stateOf (revealCell mineFlagged [] 8 0).

(** A Beginner game with a flag on [(0, 1)], before the first click. *)
Definition oneFlagIdle : State := stateOf (toggleFlag mounted 0 1).

(** ** Vocabulary of the invariants *)

(** No mine of the board is revealed; every mine is. *)
Definition noMineShown (g : Grid) : Prop :=
  ∀ r c, mineAt g r c = true → revealedAt g r c = false.
Definition allMinesShown (g : Grid) : Prop :=
  ∀ r c, mineAt g r c = true → revealedAt g r c = true.

(** The fields [row] and [col] of a cell are its indices in the grid. *)
Definition inPlace (g : Grid) : Prop :=
  ∀ r c x, cellAt g r c = Some x → row x = r ∧ col x = c.

(** The interval runs only during play and with its handle kept; a handle is
    kept all through play and released when the game is won or lost; before
    the first reveal the elapsed time is 0. *)
Definition clockInvariant (s : State) : Prop :=
  (ticking s = true → timerRef s = true ∧ status s = playing) ∧
  (status s = playing → timerRef s = true) ∧
  (status s = won ∨ status s = lost → timerRef s = false) ∧
  (status s = idle → timer s = 0) ∧
  0 ≤ timer s.

(** A game whose interval was cleared with its handle kept: the time stays
    at 0 and no interval runs. *)
Definition clockStuck (s : State) : Prop :=
  timer s = 0 ∧ ticking s = false ∧
  (status s = idle ∨ status s = playing → timerRef s = true).

(** The intents that leave the game going: all but restart and the choice
    of a difficulty. *)
Definition keepsGame (i : Intent) : bool :=
  match i with
  | DoReveal _ _ _ | DoToggleFlag _ _ | DoTick => true
  | DoSetDifficulty _ | DoRestart => false
  end.

(** [oneCellLeft] restarted while its interval runs; then a first reveal;
    then ticks and a flag. *)
Definition restartedMidGame : State := startGame oneCellLeft.
Definition stuckGame : State := stateOf (revealCell restartedMidGame bottomDraws 0 0).
Definition stuckAfterTicks : State :=
  stateOf (run restartedMidGame
             [DoReveal bottomDraws 0 0; DoTick; DoToggleFlag 7 8; DoTick]).

(** The fields that [revealCell] may write, cleared: what stays is the
    place of the cell and its flag. *)
Definition clearPlay (x : Cell) : Cell := setRevealed false (clearPlacement x).

(** The marks of the player, cleared: what stays is what [placeMines] wrote
    and the place of the cell. *)
Definition clearMarks (x : Cell) : Cell := setFlagged false (setRevealed false x).

(** [g'] is a later board of the same game as [g]: the cells differ at most in
    their marks, and a revealed cell stays revealed, with its flag. *)
Definition laterBoard (g g' : Grid) : Prop :=
  sameModulo clearMarks g g' ∧
  ∀ r c x x', cellAt g r c = Some x → cellAt g' r c = Some x' →
              isRevealed x = true → isRevealed x' = true ∧ isFlagged x' = isFlagged x.

(** [oneCellLeft] after a tick, a flag on the mine [(8, 1)] and a click on the
    last hidden cell without a mine. *)
Definition playedOn : State :=
  stateOf (run oneCellLeft [DoTick; DoToggleFlag 8 1; DoReveal [] 7 8]).

(** Clicks, flags and ticks after a game is won. *)
Definition afterTheEnd : list Intent :=
  [DoReveal [] 0 0; DoToggleFlag 8 8; DoTick; DoReveal bottomDraws 8 0].

(** The safe cells that are still hidden. *)
Definition safeHidden (x : Cell) : bool := negb (isMine x) && negb (isRevealed x).

(** ** The view *)

From Stdlib Require Strings.String.

(** The cells of the board as the component renders them, and
    [getNumberColor]. *)
Module View.
Import Stdlib.Strings.String.
Local Open Scope string_scope.

(** What the button of a cell holds: the icon of a bomb, the count in its
    colour, the icon of a flag, or nothing. *)
Inductive Content :=
| BombIcon
| Count (n : Z) (color : string)
| FlagIcon
| Nothing.

Definition colors : list string :=
  [EmptyString; "text-cyan-400"; "text-emerald-400"; "text-rog-red";
   "text-indigo-400"; "text-amber-400"; "text-pink-400"; "text-white";
   "text-white/50"].

(** [colors[num] || ''], for an integer [num]. *)
Definition getNumberColor (num : Z) : string :=
  if decide (0 ≤ num)
  then match colors !! Z.to_nat num with
       | Some (String a color) => String a color
       | _ => EmptyString
       end
  else EmptyString.

Definition cellContent (cell : Cell) : Content :=
  if isRevealed cell then
    if isMine cell then BombIcon
    else if (0 <? neighborMines cell)%Z
         then Count (neighborMines cell) (getNumberColor (neighborMines cell))
         else Nothing
  else if isFlagged cell then FlagIcon else Nothing.

Definition showsFlag (cell : Cell) : bool :=
  match cellContent cell with FlagIcon => true | _ => false end.

(** The overlay of the end of the game is rendered. *)
Definition overlay (s : State) : bool :=
  match status s with won | lost => true | _ => false end.

End View.

(** ** The statuses of a game *)

(** The status that a reveal, a flag or a tick may leave after another. *)
Definition mayFollow (a b : GameStatus) : bool :=
  match a, b with
  | idle, (idle | playing | won) => true
  | playing, (playing | won | lost) => true
  | won, won => true
  | lost, lost => true
  | _, _ => false
  end.

(** [wonGame] restarted, and a first reveal of the new game. *)
Definition secondGame : State :=
  stateOf (revealCell (startGame wonGame) bottomDraws 0 0).
(** * Proofs *)

(** ** Fallible loops *)

Lemma bindRes_Ok {A B} (m : Res A) (k : A → Res B) b :
  bindRes m k = Ok b → ∃ a, m = Ok a ∧ k a = Ok b.
Proof. destruct m as [a|e]; simpl; [eauto | discriminate]. Qed.

Lemma forEach_app {A S} (l1 l2 : list A) (body : S → A → Res S) s :
  forEach (l1 ++ l2) body s = s' ←! forEach l1 body s; forEach l2 body s'.
Proof.
  revert s. induction l1 as [|x l1 IH]; intros s; simpl; [done|].
  destruct (body s x); simpl; [apply IH | done].
Qed.

(** An invariant of the loop variables holds when the loop ends. *)
Lemma forEach_inv {A S} (I : S → Prop) (l : list A) (body : S → A → Res S) :
  (∀ s x s', x ∈ l → I s → body s x = Ok s' → I s') →
  ∀ s s', I s → forEach l body s = Ok s' → I s'.
Proof.
  induction l as [|x l IH]; intros Hstep s s' Hs Hrun; simpl in Hrun.
  - by inversion Hrun; subst.
  - apply bindRes_Ok in Hrun as (s1 & H1 & H2).
    eapply IH; [ | | exact H2].
    + intros ? y ? Hy. apply Hstep. by right.
    + eapply Hstep; [left | exact Hs | exact H1].
Qed.

(** A loop whose body succeeds under the invariant succeeds. *)
Lemma forEach_total {A S} (I : S → Prop) (l : list A) (body : S → A → Res S) :
  (∀ s x, x ∈ l → I s → ∃ s', body s x = Ok s' ∧ I s') →
  ∀ s, I s → ∃ s', forEach l body s = Ok s' ∧ I s'.
Proof.
  induction l as [|x l IH]; intros Hstep s Hs; simpl.
  - eauto.
  - destruct (Hstep s x) as (s1 & H1 & Hs1); [left | done |].
    rewrite H1. simpl. apply IH; [|done].
    intros ? y Hy. apply Hstep. by right.
Qed.

(** Two nested loops run the body on the pairs in lexicographic order. *)
Lemma forEach_nested {A B S} (l1 : list A) (l2 : list B) (body : S → A → B → Res S) s :
  forEach l1 (λ s a, forEach l2 (λ s b, body s a b) s) s
  = forEach (list_prod l1 l2) (λ s ab, body s ab.1 ab.2) s.
Proof.
  revert s. induction l1 as [|a l1 IH]; intros s; simpl; [done|].
  rewrite forEach_app.
  assert (Hin : ∀ s, forEach l2 (λ s b, body s a b) s
                = forEach (map (λ y, (a, y)) l2) (λ s ab, body s ab.1 ab.2) s).
  { clear. induction l2 as [|b l2 IH2]; intros s; simpl; [done|].
    destruct (body s a b); simpl; [apply IH2 | done]. }
  rewrite Hin. destruct (forEach _ _ s); simpl; [apply IH | done].
Qed.

(** ** Cells of a grid *)

Lemma cellAt_Some g r c x :
  cellAt g r c = Some x →
  0 ≤ r ∧ 0 ≤ c ∧ ∃ rw, g !! Z.to_nat r = Some rw ∧ rw !! Z.to_nat c = Some x.
Proof.
  unfold cellAt. case_decide as Hrc; [|done].
  destruct (g !! Z.to_nat r) as [rw|] eqn:Hrw; simpl; [|done].
  intros Hx. repeat split; try lia. eauto.
Qed.

Lemma cellAt_lookup g r c rw :
  0 ≤ r → 0 ≤ c → g !! Z.to_nat r = Some rw → cellAt g r c = rw !! Z.to_nat c.
Proof.
  intros Hr Hc Hrw. unfold cellAt. rewrite decide_True by lia. by rewrite Hrw.
Qed.

Lemma cellAt_updCell g r c f r' c' :
  cellAt (updCell g r c f) r' c'
  = if decide (r' = r ∧ c' = c) then f <$> cellAt g r c else cellAt g r' c'.
Proof.
  unfold updCell, cellAt.
  destruct (decide (0 ≤ r ∧ 0 ≤ c)) as [Hrc|Hrc].
  - destruct (decide (r' = r ∧ c' = c)) as [[-> ->]|Hne].
    + rewrite decide_True by done.
      rewrite list_lookup_alter_eq.
      destruct (g !! Z.to_nat r) as [rw|]; simpl; [|done].
      by rewrite list_lookup_alter_eq.
    + destruct (decide (0 ≤ r' ∧ 0 ≤ c')) as [Hrc'|]; [|done].
      destruct (decide (r' = r)) as [->|Hr].
      * rewrite list_lookup_alter_eq.
        destruct (g !! Z.to_nat r) as [rw|]; simpl; [|done].
        apply list_lookup_alter_ne. lia.
      * rewrite list_lookup_alter_ne by lia. done.
  - destruct (decide (r' = r ∧ c' = c)) as [[-> ->]|Hne]; [|done].
    by rewrite decide_False.
Qed.


Lemma cellAt_updCell_ne g r c f r' c' :
  (r', c') ≠ (r, c) → cellAt (updCell g r c f) r' c' = cellAt g r' c'.
Proof.
  intros Hne. rewrite cellAt_updCell, decide_False; [done|].
  intros [-> ->]. done.
Qed.

Lemma shape_updCell g r c f : shape (updCell g r c f) = shape g.
Proof.
  unfold updCell, shape. case_decide; [|done].
  generalize (Z.to_nat r) as i. induction g as [|rw g IH]; intros [|i]; simpl; try done.
  - by rewrite length_alter.
  - f_equal. apply IH.
Qed.

Lemma shape_gridLength g g' : shape g = shape g' → gridLength g = gridLength g'.
Proof.
  unfold shape, gridLength. intros H.
  apply (f_equal length) in H. rewrite !length_map in H. lia.
Qed.

Lemma shape_rowLength0 g g' : shape g = shape g' → rowLength0 g = rowLength0 g'.
Proof.
  unfold shape, rowLength0. intros H.
  destruct g as [|rw g], g' as [|rw' g']; simpl in *; try done.
  injection H as -> _. done.
Qed.

(** Two grids of one shape hold cells at the same positions. *)
Lemma shape_cellAt g g' r c :
  shape g = shape g' → is_Some (cellAt g r c) → is_Some (cellAt g' r c).
Proof.
  unfold shape. intros Hsh [x Hx].
  apply cellAt_Some in Hx as (Hr & Hc & rw & Hrw & Hx).
  assert (Hl : map length g !! Z.to_nat r = Some (length rw)) by by rewrite list_lookup_fmap, Hrw.
  rewrite Hsh, list_lookup_fmap in Hl.
  destruct (g' !! Z.to_nat r) as [rw'|] eqn:Hrw'; simpl in Hl; [|done].
  rewrite (cellAt_lookup _ _ _ rw') by done.
  apply lookup_lt_is_Some. apply lookup_lt_Some in Hx.
  injection Hl as ->. done.
Qed.

Lemma hasDims_cellAt config g r c :
  hasDims config g →
  is_Some (cellAt g r c) ↔ (0 ≤ r < rows config ∧ 0 ≤ c < cols config).
Proof.
  unfold hasDims, shape. intros Hd. split.
  - intros [x Hx]. apply cellAt_Some in Hx as (Hr & Hc & rw & Hrw & Hx).
    assert (Hl : map length g !! Z.to_nat r = Some (length rw)) by by rewrite list_lookup_fmap, Hrw.
    rewrite Hd in Hl. apply lookup_replicate in Hl as [Hl Hlt].
    apply lookup_lt_Some in Hx. lia.
  - intros [Hr Hc].
    assert (Hl : map length g !! Z.to_nat r = Some (Z.to_nat (cols config))).
    { rewrite Hd. apply lookup_replicate. split; [done|lia]. }
    rewrite list_lookup_fmap in Hl.
    destruct (g !! Z.to_nat r) as [rw|] eqn:Hrw; simpl in Hl; [|done].
    rewrite (cellAt_lookup _ _ _ rw) by (done || lia).
    apply lookup_lt_is_Some. injection Hl as Hl. lia.
Qed.

Lemma hasDims_gridLength config g :
  0 ≤ rows config → hasDims config g → gridLength g = rows config.
Proof.
  unfold hasDims, shape, gridLength. intros H0 Hd.
  apply (f_equal length) in Hd. rewrite length_map, length_replicate in Hd. lia.
Qed.

Lemma hasDims_rowLength0 config g :
  0 < rows config → 0 ≤ cols config → hasDims config g → rowLength0 g = cols config.
Proof.
  unfold hasDims, shape, rowLength0. intros H0 H1 Hd.
  destruct (Z.to_nat (rows config)) as [|n] eqn:Hn; [lia|].
  destruct g as [|rw g]; simpl in *; [done|].
  injection Hd as -> _. lia.
Qed.

(** What an iteration establishes for its element holds when the loop ends,
    if the other iterations keep it. *)
Lemma forEach_post {A S} (I : S → Prop) (Q : A → S → Prop) (l : list A)
    (body : S → A → Res S) :
  (∀ s x s', x ∈ l → I s → body s x = Ok s' → I s' ∧ Q x s') →
  (∀ s x y s', x ∈ l → y ∈ l → I s → Q x s → body s y = Ok s' → Q x s') →
  ∀ s s', I s → forEach l body s = Ok s' → I s' ∧ ∀ x, x ∈ l → Q x s'.
Proof.
  induction l as [|y l IH]; intros Hstep Hkeep s s' Hs Hrun; simpl in Hrun.
  - inversion Hrun; subst. split; [done|]. intros x Hx. by apply elem_of_nil in Hx.
  - apply bindRes_Ok in Hrun as (s1 & H1 & H2).
    destruct (Hstep s y s1) as [Hs1 Hy]; [left | done | done |].
    pose proof (forEach_inv (λ s, I s ∧ Q y s) l body) as Hinv.
    destruct (Hinv) with (s := s1) (s' := s') as [_ Hy']; [ | done | done | ].
    { intros t x t' Hx [Ht Hyt] Hb. split.
      - eapply Hstep; [right | |]; done.
      - eapply (Hkeep t y x); [left | right | | |]; done. }
    destruct (IH) with (s := s1) (s' := s') as [Hs' Hall]; try done.
    { intros t x t' Hx. apply Hstep. by right. }
    { intros t x z t' Hx Hz. apply Hkeep; by right. }
    split; [done|]. intros x Hx. apply elem_of_cons in Hx as [->|Hx]; auto.
Qed.

Lemma forEach_ext {A S} (l : list A) (body body' : S → A → Res S) s :
  (∀ s x, body s x = body' s x) → forEach l body s = forEach l body' s.
Proof.
  intros Hext. revert s. induction l as [|x l IH]; intros s; simpl; [done|].
  rewrite Hext. destruct (body' s x); simpl; [apply IH | done].
Qed.

(** A loop that only adds to a counter. *)
Lemma forEach_sum {A} (l : list A) (w : A → Z) n :
  forEach l (λ count x, Ok (count + w x)) n = Ok (n + foldr (λ x acc, w x + acc) 0 l).
Proof.
  revert n. induction l as [|x l IH]; intros n; simpl.
  - f_equal. lia.
  - rewrite IH. f_equal. lia.
Qed.

Lemma elem_of_prod {A B} (l1 : list A) (l2 : list B) a b :
  (a, b) ∈ list_prod l1 l2 ↔ a ∈ l1 ∧ b ∈ l2.
Proof. rewrite !list_elem_of_In. apply in_prod_iff. Qed.

(** ** Counting cells *)

Lemma foldl_count (p : Cell → bool) (rw : list Cell) n :
  foldl (λ n cell, if p cell then n + 1 else n) n rw
  = n + Z.of_nat (length (List.filter p rw)).
Proof.
  revert n. induction rw as [|x rw IH]; intros n; simpl; [lia|].
  rewrite IH. destruct (p x); simpl; lia.
Qed.

(** The counting loop counts the cells that satisfy [p]. *)
Lemma countCells_cellCount p g : countCells p g = cellCount p g.
Proof.
  unfold countCells, cellCount.
  assert (H : ∀ n, foldl (λ n rw, foldl (λ n cell, if p cell then n + 1 else n) n rw) n g
              = n + Z.of_nat (length (List.filter p (concat g)))); [|by rewrite H].
  induction g as [|rw g IH]; intros n; simpl; [lia|].
  rewrite IH, foldl_count, List.filter_app, length_app. lia.
Qed.

Lemma filter_alter_length (p : Cell → bool) f (rw : list Cell) i x :
  rw !! i = Some x →
  (length (List.filter p (alter f i rw)) + Nat.b2n (p x)
   = length (List.filter p rw) + Nat.b2n (p (f x)))%nat.
Proof.
  revert i. induction rw as [|y rw IH]; intros [|i] Hi; simpl in *; try done.
  - injection Hi as ->. destruct (p x), (p (f x)); simpl; lia.
  - specialize (IH i Hi). unfold alter in IH. destruct (p y); simpl; lia.
Qed.

Lemma cellCount_updCell p g r c f x :
  cellAt g r c = Some x →
  cellCount p (updCell g r c f) = cellCount p g - Z.b2z (p x) + Z.b2z (p (f x)).
Proof.
  intros Hx. apply cellAt_Some in Hx as (Hr & Hc & rw & Hrw & Hx).
  unfold updCell, cellCount. rewrite decide_True by done.
  revert Hrw. generalize (Z.to_nat r) as i.
  induction g as [|rw' g IH]; intros [|i] Hi; simpl in *; try done.
  - injection Hi as ->. rewrite !List.filter_app, !length_app.
    pose proof (filter_alter_length p f rw _ x Hx) as Hlen.
    unfold alter in *.
    destruct (p x), (p (f x)); simpl in *; lia.
  - specialize (IH i Hi).
    rewrite !List.filter_app, !length_app. unfold alter in *. lia.
Qed.

Lemma cellCount_le p g : 0 ≤ cellCount p g ≤ Z.of_nat (length (concat g)).
Proof.
  unfold cellCount. pose proof (List.filter_length_le p (concat g)). lia.
Qed.

Lemma length_concat_shape (g g' : Grid) :
  shape g = shape g' → length (concat g) = length (concat g').
Proof.
  unfold shape. revert g'. induction g as [|rw g IH]; intros [|rw' g'] H; simpl in *; try done.
  injection H as H1 H2. rewrite !length_app, H1. f_equal. by apply IH.
Qed.

(** A cell that satisfies [p] is counted. *)
Lemma cellCount_pos p g r c x :
  cellAt g r c = Some x → p x = true → 0 < cellCount p g.
Proof.
  intros Hx Hp. apply cellAt_Some in Hx as (_ & _ & rw & Hrw & Hx).
  unfold cellCount.
  assert (Hin : In x (List.filter p (concat g))).
  { apply List.filter_In. split; [|done].
    apply List.in_concat. exists rw.
    split; apply list_elem_of_In; eapply list_elem_of_lookup_2; eauto. }
  destruct (List.filter p (concat g)); simpl in *; [done | lia].
Qed.

Lemma cellCount_ext (p q : Cell → bool) g :
  (∀ r c x, cellAt g r c = Some x → p x = q x) → cellCount p g = cellCount q g.
Proof.
  intros H. unfold cellCount. f_equal. f_equal.
  apply List.filter_ext_in. intros x Hx.
  apply List.in_concat in Hx as (rw & Hrw & Hx).
  apply list_elem_of_In, list_elem_of_lookup_1 in Hx as [j Hj].
  apply list_elem_of_In, list_elem_of_lookup_1 in Hrw as [i Hi].
  apply (H (Z.of_nat i) (Z.of_nat j)).
  rewrite (cellAt_lookup _ _ _ rw); rewrite ?Nat2Z.id; done || lia.
Qed.

(** ** Boards that differ in one field *)

Lemma cellAt_map (f : Cell → Cell) g r c :
  cellAt (map (map f) g) r c = f <$> cellAt g r c.
Proof.
  unfold cellAt. case_decide; [|done].
  change (map (map f) g) with (map f <$> g). rewrite list_lookup_fmap.
  destruct (g !! Z.to_nat r) as [rw|]; simpl; [|done].
  apply (list_lookup_fmap f).
Qed.

Lemma shape_map (f : Cell → Cell) g : shape (map (map f) g) = shape g.
Proof.
  unfold shape. rewrite map_map. apply map_ext. intros rw. apply length_map.
Qed.

Lemma sameModulo_shape erase g g' : sameModulo erase g g' → shape g = shape g'.
Proof.
  unfold sameModulo. intros H.
  rewrite <- (shape_map erase g), <- (shape_map erase g'). by rewrite H.
Qed.

Lemma sameModulo_cellAt erase g g' r c :
  sameModulo erase g g' → erase <$> cellAt g r c = erase <$> cellAt g' r c.
Proof. unfold sameModulo. intros H. by rewrite <- !cellAt_map, H. Qed.

Lemma sameModulo_refl erase g : sameModulo erase g g.
Proof. done. Qed.

Lemma sameModulo_trans erase g1 g2 g3 :
  sameModulo erase g1 g2 → sameModulo erase g2 g3 → sameModulo erase g1 g3.
Proof. unfold sameModulo. congruence. Qed.

Lemma sameModulo_sym erase g1 g2 : sameModulo erase g1 g2 → sameModulo erase g2 g1.
Proof. unfold sameModulo. congruence. Qed.

Lemma map_updCell (erase f : Cell → Cell) g r c :
  (∀ x, erase (f x) = erase x) →
  map (map erase) (updCell g r c f) = map (map erase) g.
Proof.
  intros Hf. unfold updCell. case_decide; [|done].
  change (map (map erase)) with (fmap (M:=list) (fmap (M:=list) erase)).
  rewrite (list_fmap_alter (fmap erase) (alter f (Z.to_nat c)) id).
  - by apply list_alter_id.
  - apply Forall_forall. intros rw _. simpl.
    rewrite (list_fmap_alter erase f id).
    + by apply list_alter_id.
    + apply Forall_forall. intros x _. apply Hf.
Qed.

Lemma sameModulo_updCell erase f g r c :
  (∀ x, erase (f x) = erase x) → sameModulo erase g (updCell g r c f).
Proof. intros Hf. unfold sameModulo. by rewrite map_updCell. Qed.

Lemma cellCount_map (p : Cell → bool) (f : Cell → Cell) g :
  (∀ x, p (f x) = p x) → cellCount p (map (map f) g) = cellCount p g.
Proof.
  intros Hp. unfold cellCount. f_equal.
  induction g as [|rw g IH]; simpl; [done|].
  rewrite !List.filter_app, !length_app, IH. f_equal.
  clear IH. induction rw as [|x rw IH]; simpl; [done|].
  rewrite Hp. destruct (p x); simpl; by rewrite IH.
Qed.

Lemma sameModulo_cellCount erase (p : Cell → bool) g g' :
  (∀ x, p (erase x) = p x) → sameModulo erase g g' → cellCount p g = cellCount p g'.
Proof.
  unfold sameModulo. intros Hp H.
  rewrite <- (cellCount_map p erase g), <- (cellCount_map p erase g') by done.
  by rewrite H.
Qed.

Lemma hasDims_shape config g g' : shape g = shape g' → hasDims config g → hasDims config g'.
Proof. unfold hasDims. congruence. Qed.

(** What a field-preserving relation says of the other four fields. *)
Lemma sameModulo_mineAt erase g g' r c :
  (∀ x, isMine (erase x) = isMine x) → sameModulo erase g g' → mineAt g r c = mineAt g' r c.
Proof.
  intros He H. apply (sameModulo_cellAt _ _ _ r c) in H. unfold mineAt.
  destruct (cellAt g r c) as [x|], (cellAt g' r c) as [x'|]; simpl in H; try done.
  injection H as H. by rewrite <- (He x), <- (He x'), H.
Qed.

Lemma sameModulo_flaggedAt erase g g' r c :
  (∀ x, isFlagged (erase x) = isFlagged x) → sameModulo erase g g' →
  flaggedAt g r c = flaggedAt g' r c.
Proof.
  intros He H. apply (sameModulo_cellAt _ _ _ r c) in H. unfold flaggedAt.
  destruct (cellAt g r c) as [x|], (cellAt g' r c) as [x'|]; simpl in H; try done.
  injection H as H. by rewrite <- (He x), <- (He x'), H.
Qed.

Lemma sameModulo_revealedAt erase g g' r c :
  (∀ x, isRevealed (erase x) = isRevealed x) → sameModulo erase g g' →
  revealedAt g r c = revealedAt g' r c.
Proof.
  intros He H. apply (sameModulo_cellAt _ _ _ r c) in H. unfold revealedAt.
  destruct (cellAt g r c) as [x|], (cellAt g' r c) as [x'|]; simpl in H; try done.
  injection H as H. by rewrite <- (He x), <- (He x'), H.
Qed.

Lemma mineNeighbors_ext g g' r c :
  (∀ r c, mineAt g r c = mineAt g' r c) → mineNeighbors g r c = mineNeighbors g' r c.
Proof.
  intros H. unfold mineNeighbors. f_equal. f_equal.
  apply List.filter_ext. intros q. apply H.
Qed.

(** ** initGrid *)

Lemma foldl_push {A B} (f : A → B) (l : list A) (acc : list B) :
  foldl (λ acc x, acc ++ [f x]) acc l = acc ++ map f l.
Proof.
  revert acc. induction l as [|x l IH]; intros acc; simpl.
  - by rewrite app_nil_r.
  - rewrite IH, <- app_assoc. done.
Qed.

(** The two loops of [initGrid] build the rows [0 .. rows-1] of the cells
    [0 .. cols-1]. *)
Lemma initGrid_map config :
  initGrid config
  = map (λ r, map (λ c, mkCell r c false false false 0) (seqZ 0 (cols config)))
        (seqZ 0 (rows config)).
Proof.
  unfold initGrid.
  rewrite (foldl_push (λ r, foldl (λ rw c, rw ++ [mkCell r c false false false 0]) []
                              (seqZ 0 (cols config)))).
  simpl. apply map_ext. intros r. by rewrite foldl_push.
Qed.

Lemma initGrid_hasDims config : hasDims config (initGrid config).
Proof.
  unfold hasDims, shape. rewrite initGrid_map, map_map.
  apply list_eq. intros i.
  change (map ?f ?l) with (f <$> l). rewrite list_lookup_fmap.
  destruct (decide (i < Z.to_nat (rows config))%nat) as [Hi|Hi].
  - rewrite lookup_seqZ_lt by lia. simpl.
    rewrite length_map, length_seqZ. symmetry. by apply lookup_replicate.
  - rewrite lookup_seqZ_ge by lia. simpl. symmetry.
    apply lookup_replicate_None. lia.
Qed.

Lemma initGrid_cellAt config r c :
  0 ≤ r < rows config → 0 ≤ c < cols config →
  cellAt (initGrid config) r c = Some (mkCell r c false false false 0).
Proof.
  intros Hr Hc. rewrite initGrid_map. unfold cellAt. rewrite decide_True by lia.
  change (map ?f ?l) with (f <$> l). rewrite list_lookup_fmap.
  rewrite lookup_seqZ_lt by lia. simpl.
  rewrite list_lookup_fmap. rewrite lookup_seqZ_lt by lia. simpl.
  do 2 f_equal; lia.
Qed.

Lemma idleBoard_hasDims config g : idleBoard config g → hasDims config g.
Proof.
  unfold idleBoard. intros H. eapply hasDims_shape; [|apply (initGrid_hasDims config)].
  rewrite <- H. apply shape_map.
Qed.

(** On the board of status idle every cell is at its place, hidden, without a
    mine and without a count. *)
Lemma idleBoard_cellAt config g r c x :
  idleBoard config g → cellAt g r c = Some x →
  x = mkCell r c false false (isFlagged x) 0.
Proof.
  intros Hidle Hx.
  assert (Hin : is_Some (cellAt g r c)) by eauto.
  apply (hasDims_cellAt config) in Hin as [Hr Hc]; [|by apply idleBoard_hasDims].
  pose proof (initGrid_cellAt config r c Hr Hc) as Hinit.
  unfold idleBoard in Hidle. rewrite <- Hidle, cellAt_map, Hx in Hinit.
  simpl in Hinit. injection Hinit as H1 H2 H3 H4 H5.
  destruct x; simpl in *; congruence.
Qed.

Lemma idleBoard_mineAt config g r c : idleBoard config g → mineAt g r c = false.
Proof.
  intros Hidle. unfold mineAt. destruct (cellAt g r c) as [x|] eqn:Hx; [|done].
  by rewrite (idleBoard_cellAt _ _ _ _ _ Hidle Hx).
Qed.

Lemma cellCount_none p g :
  (∀ r c x, cellAt g r c = Some x → p x = false) → cellCount p g = 0.
Proof.
  intros H. rewrite (cellCount_ext p (λ _, false) g) by done.
  unfold cellCount. generalize (concat g). intros l.
  induction l; simpl; [done | lia].
Qed.

Lemma idleBoard_no_mines config g : idleBoard config g → cellCount isMine g = 0.
Proof.
  intros Hidle. apply cellCount_none. intros r c x Hx.
  by rewrite (idleBoard_cellAt _ _ _ _ _ Hidle Hx).
Qed.

(** ** The loop of placeMines *)

Lemma outsideBox_inBox fr fc r c : outsideBox fr fc (r, c) = false ↔ inBox fr fc r c.
Proof. unfold outsideBox, inBox. simpl. rewrite negb_false_iff, andb_true_iff. lia. Qed.

(** Whatever the draws, when the loop ends it has added [mines - minesPlaced]
    mines, none in the block of the anchor, and changed nothing else. *)
Lemma placeLoop_sound config fr fc random : ∀ g n g',
  placeLoop config fr fc random g n = Ok g' →
  sameModulo (setMine false) g g' ∧
  cellCount isMine g' = cellCount isMine g + Z.max 0 (mines config - n) ∧
  (∀ r c, mineAt g' r c = true → mineAt g r c = true ∨ ¬ inBox fr fc r c).
Proof.
  induction random as [|[r c] random IH]; intros g n g' Hrun; simpl in Hrun.
  - case_decide; [done|]. injection Hrun as <-.
    split; [apply sameModulo_refl|]. split; [lia | auto].
  - case_decide as Hn; [|injection Hrun as <-;
      (split; [apply sameModulo_refl|]; split; [lia | auto])].
    apply bindRes_Ok in Hrun as (cell & Hcell & Hrun).
    unfold getCell in Hcell. destruct (cellAt g r c) as [x|] eqn:Hx; [|done].
    injection Hcell as ->.
    destruct (negb (isMine cell) && _) eqn:Hok.
    + apply andb_true_iff in Hok as [Hmine Hbox].
      apply negb_true_iff in Hmine.
      apply IH in Hrun as (Hsame & Hcount & Hmines).
      split; [|split].
      * eapply sameModulo_trans; [|exact Hsame]. by apply sameModulo_updCell.
      * rewrite Hcount, (cellCount_updCell _ _ _ _ _ _ Hx). simpl. rewrite Hmine.
        simpl. lia.
      * intros r' c' Hm. apply Hmines in Hm as [Hm|Hm]; [|by right].
        unfold mineAt in Hm. rewrite cellAt_updCell in Hm. case_decide as Heq; [|by left].
        destruct Heq as [-> ->]. right.
        intros Hin. apply outsideBox_inBox in Hin.
        unfold outsideBox in Hin. simpl in Hin. congruence.
    + by apply IH in Hrun.
Qed.

Lemma filter_ne_length (l : list (Z * Z)) q :
  NoDup l → (length l ≤ S (length (filter (λ q', q' ≠ q) l)))%nat.
Proof.
  induction 1 as [|x l Hx Hnd IH]; simpl; [lia|].
  destruct (decide (x = q)) as [->|Hne].
  - rewrite filter_cons_False by (intros H; by apply H).
    assert (Hall : filter (λ q', q' ≠ q) l = l); [|rewrite Hall; lia].
    clear IH Hnd. induction l as [|y l IH]; [done|].
    rewrite filter_cons_True.
    + f_equal. apply IH. intros Hin. apply Hx. by right.
    + intros ->. apply Hx. by left.
  - rewrite filter_cons_True by done. simpl. lia.
Qed.

(** The loop ends when the draws that remain hold enough distinct cells that
    can still take a mine. *)
Lemma placeLoop_total config fr fc random : ∀ g n (picks : list (Z * Z)),
  Forall (λ q, is_Some (cellAt g q.1 q.2)) random →
  NoDup picks → picks ⊆ random →
  Forall (λ q, mineAt g q.1 q.2 = false ∧ outsideBox fr fc q = true) picks →
  mines config - n ≤ Z.of_nat (length picks) →
  ∃ g', placeLoop config fr fc random g n = Ok g'.
Proof.
  induction random as [|[r c] random IH]; intros g n picks Hrange Hnd Hsub Hok Hlen; simpl.
  - case_decide; [|eauto].
    destruct picks as [|q picks]; [simpl in Hlen; lia|].
    specialize (Hsub q (list_elem_of_here _ _)). by apply elem_of_nil in Hsub.
  - case_decide as Hn; [|eauto].
    apply Forall_cons_1 in Hrange as [[x Hx] Hrange]. simpl in Hx.
    unfold getCell. rewrite Hx. simpl.
    destruct (negb (isMine x) && _) eqn:Hacc.
    + apply (IH _ _ (filter (λ q', q' ≠ (r, c)) picks)).
      * eapply Forall_impl; [|exact Hrange]. intros q Hq. simpl in Hq.
        eapply shape_cellAt; [|exact Hq]. symmetry. apply shape_updCell.
      * by apply list.NoDup_filter.
      * intros q Hq. apply list_elem_of_filter in Hq as [Hne Hq].
        apply Hsub in Hq. apply elem_of_cons in Hq as [->|]; done.
      * apply list.Forall_forall. intros q Hq. apply list_elem_of_filter in Hq as [Hne Hq].
        rewrite list.Forall_forall in Hok. destruct (Hok q Hq) as [Hm Hb]. split; [|done].
        unfold mineAt in *. rewrite cellAt_updCell_ne; [done|].
        by destruct q.
      * pose proof (filter_ne_length picks (r, c) Hnd). lia.
    + apply (IH _ _ picks); try done.
      intros q Hq. specialize (Hsub q Hq).
      apply elem_of_cons in Hsub as [->|]; [|done].
      rewrite list.Forall_forall in Hok. destruct (Hok _ Hq) as [Hm Hb].
      unfold mineAt in Hm. simpl in Hm. rewrite Hx in Hm.
      unfold outsideBox in Hb. simpl in Hb. rewrite Hm, Hb in Hacc. done.
Qed.

Lemma enoughDraws_total config fr fc random g :
  hasDims config g → (∀ r c, mineAt g r c = false) →
  enoughDraws config fr fc random = true →
  ∃ g', placeLoop config fr fc random g 0 = Ok g'.
Proof.
  intros Hdims Hno Hen. unfold enoughDraws in Hen.
  apply andb_true_iff in Hen as [Hrange Hlen].
  apply (placeLoop_total _ _ _ _ _ _
           (remove_dups (List.filter (outsideBox fr fc) random))).
  - apply list.Forall_forall. intros q Hq.
    rewrite forallb_forall in Hrange. apply list_elem_of_In, Hrange in Hq.
    apply (hasDims_cellAt config); [done|]. unfold inRange in Hq.
    rewrite !andb_true_iff in Hq. lia.
  - apply NoDup_remove_dups.
  - intros q Hq. apply elem_of_remove_dups, list_elem_of_In, List.filter_In in Hq as [Hq _].
    by apply list_elem_of_In.
  - apply list.Forall_forall. intros q Hq.
    apply elem_of_remove_dups, list_elem_of_In, List.filter_In in Hq as [_ Hq]. auto.
  - lia.
Qed.

(** ** The neighbour counts of placeMines *)

Lemma seqZ_offsets : seqZ (-1) 3 = [-1; 0; 1].
Proof. reflexivity. Qed.

Lemma filter_length_sum {A} (p : A → bool) (l : list A) :
  Z.of_nat (length (List.filter p l)) = foldr (λ q acc, Z.b2z (p q) + acc) 0 l.
Proof.
  induction l as [|x l IH]; simpl; [done|].
  rewrite <- IH. destruct (p x); simpl; lia.
Qed.

(** One iteration of the inner loop adds one when the neighbour is a mine. *)
Lemma countAround_step config g nr nc count :
  hasDims config g →
  (if (0 <=? nr) && (nr <? rows config) && (0 <=? nc) && (nc <? cols config)
   then cell ←! getCell g nr nc; Ok (if isMine cell then count + 1 else count)
   else Ok count)
  = Ok (count + Z.b2z (mineAt g nr nc)).
Proof.
  intros Hdims. pose proof (hasDims_cellAt config g nr nc Hdims) as Hin.
  unfold getCell, mineAt.
  destruct (_ && (nc <? cols config)) eqn:Hb.
  - destruct Hin as [_ [x Hx]]; [rewrite !andb_true_iff in Hb; lia|].
    rewrite Hx. simpl. destruct (isMine x); simpl; f_equal; lia.
  - destruct (cellAt g nr nc) as [x|] eqn:Hx.
    + destruct Hin as [Hin _]. specialize (Hin (mk_is_Some _ _ eq_refl)).
      rewrite !andb_false_iff in Hb. lia.
    + simpl. f_equal. lia.
Qed.

(** The inner loops count the mines of the 3x3 block, the cell included. *)
Lemma countAround_spec config g r c :
  hasDims config g →
  countAround config g r c = Ok (mineNeighbors g r c + Z.b2z (mineAt g r c)).
Proof.
  intros Hdims. unfold countAround.
  rewrite (forEach_nested _ _ (λ count dr dc,
    if (0 <=? r + dr) && (r + dr <? rows config) &&
       (0 <=? c + dc) && (c + dc <? cols config)
    then cell ←! getCell g (r + dr) (c + dc);
         Ok (if isMine cell then count + 1 else count)
    else Ok count)).
  rewrite (forEach_ext _ _
             (λ count q, Ok (count + Z.b2z (mineAt g (r + q.1) (c + q.2)))))
    by (intros; by apply countAround_step).
  rewrite forEach_sum. unfold mineNeighbors. rewrite filter_length_sum.
  rewrite seqZ_offsets. simpl.
  change (r + -1) with (r - 1). change (c + -1) with (c - 1).
  rewrite !Z.add_0_r. f_equal. lia.
Qed.

(** The outer loops write the count of every cell without a mine and change
    nothing else. *)
Lemma computeNeighbors_sound config g g' :
  hasDims config g → computeNeighbors config g = Ok g' →
  sameModulo (setNeighborMines 0) g g' ∧
  ∀ r c x, cellAt g' r c = Some x → isMine x = false →
           neighborMines x = mineNeighbors g' r c.
Proof.
  intros Hdims Hrun. unfold computeNeighbors in Hrun.
  rewrite (forEach_nested _ _ (λ newGrid r c,
    cell ←! getCell newGrid r c;
    if negb (isMine cell)
    then count ←! countAround config newGrid r c;
         Ok (updCell newGrid r c (setNeighborMines count))
    else Ok newGrid)) in Hrun.
  set (I := λ h : Grid, sameModulo (setNeighborMines 0) g h).
  set (Q := λ (q : Z * Z) (h : Grid),
         ∀ x, cellAt h q.1 q.2 = Some x → isMine x = false →
              neighborMines x = mineNeighbors g q.1 q.2).
  assert (Hmine : ∀ h, I h → ∀ r c, mineAt h r c = mineAt g r c).
  { intros h Hh r c. symmetry. by apply (sameModulo_mineAt (setNeighborMines 0)). }
  assert (Hbody : ∀ h q h', I h →
            (cell ←! getCell h q.1 q.2;
             if negb (isMine cell)
             then count ←! countAround config h q.1 q.2;
                  Ok (updCell h q.1 q.2 (setNeighborMines count))
             else Ok h) = Ok h' →
            (h' = h ∧ mineAt h q.1 q.2 = true ∧ is_Some (cellAt h q.1 q.2)) ∨
            (h' = updCell h q.1 q.2 (setNeighborMines (mineNeighbors g q.1 q.2)) ∧
             mineAt h q.1 q.2 = false ∧ is_Some (cellAt h q.1 q.2))).
  { intros h [r c] h' Hh Hb. simpl in *.
    apply bindRes_Ok in Hb as (cell & Hcell & Hb). unfold getCell in Hcell.
    destruct (cellAt h r c) as [x|] eqn:Hx; [|done]. injection Hcell as ->.
    destruct (isMine cell) eqn:Hm; simpl in Hb.
    - injection Hb as <-. left. unfold mineAt. rewrite Hx. eauto.
    - rewrite (countAround_spec config) in Hb
        by (eapply hasDims_shape; [eapply sameModulo_shape, Hh | done]).
      simpl in Hb. injection Hb as <-. right.
      unfold mineAt at 1 2. rewrite Hx, Hm. simpl. rewrite Z.add_0_r.
      rewrite (mineNeighbors_ext h g) by (by apply Hmine). eauto. }
  apply (forEach_post I Q) in Hrun; cycle 1.
  - intros h q h' _ Hh Hb. destruct (Hbody h q h' Hh Hb) as [(-> & Hm & _)|(-> & Hm & _)].
    + split; [done|]. intros x Hx Hxm. unfold mineAt in Hm. rewrite Hx in Hm. congruence.
    + split.
      * eapply sameModulo_trans; [exact Hh|]. by apply sameModulo_updCell.
      * intros x Hx _. rewrite cellAt_updCell, decide_True in Hx by done.
        destruct (cellAt h q.1 q.2); simpl in Hx; [|done]. by injection Hx as <-.
  - intros h q q' h' _ _ Hh Hq Hb.
    destruct (Hbody h q' h' Hh Hb) as [(-> & _)|(-> & Hm & _)]; [done|].
    intros x Hx Hxm. rewrite cellAt_updCell in Hx. case_decide as Heq.
    + destruct (cellAt h q'.1 q'.2); simpl in Hx; [|done]. injection Hx as <-.
      simpl. destruct Heq as [-> ->]. done.
    + by apply Hq.
  - apply sameModulo_refl.
  - destruct Hrun as [Hg' Hall]. split; [done|]. intros r c x Hx Hm.
    rewrite (mineNeighbors_ext g' g) by (by apply Hmine).
    apply (Hall (r, c)); [|done|done].
    assert (Hin : is_Some (cellAt g' r c)) by eauto.
    apply (hasDims_cellAt config) in Hin as [Hr Hc];
      [|eapply hasDims_shape; [eapply sameModulo_shape, Hg' | done]].
    apply elem_of_prod. split; apply elem_of_seqZ; simpl; lia.
Qed.

Lemma computeNeighbors_total config g :
  hasDims config g → ∃ g', computeNeighbors config g = Ok g'.
Proof.
  intros Hdims. unfold computeNeighbors.
  rewrite (forEach_nested _ _ (λ newGrid r c,
    cell ←! getCell newGrid r c;
    if negb (isMine cell)
    then count ←! countAround config newGrid r c;
         Ok (updCell newGrid r c (setNeighborMines count))
    else Ok newGrid)).
  destruct (forEach_total (hasDims config)
              (list_prod (seqZ 0 (rows config)) (seqZ 0 (cols config)))
              (λ s ab, cell ←! getCell s ab.1 ab.2;
                 if negb (isMine cell)
                 then count ←! countAround config s ab.1 ab.2;
                      Ok (updCell s ab.1 ab.2 (setNeighborMines count))
                 else Ok s)) with (s := g) as (g' & Hg' & _); [|done|eauto].
  intros h [r c] Hq Hh. simpl.
  apply elem_of_prod in Hq as [Hr Hc]. apply elem_of_seqZ in Hr, Hc. simpl in *.
  destruct (proj2 (hasDims_cellAt config h r c Hh)) as [x Hx]; [lia|].
  unfold getCell. rewrite Hx. simpl. destruct (isMine x); simpl; [eauto|].
  rewrite (countAround_spec config) by done. simpl. eexists. split; [done|].
  eapply hasDims_shape; [|exact Hh]. symmetry. apply shape_updCell.
Qed.

(** ** placeMines *)

Lemma sameModulo_compose (e f : Cell → Cell) g g' :
  sameModulo e g g' → sameModulo (λ x, f (e x)) g g'.
Proof.
  unfold sameModulo. intros H.
  assert (Hc : ∀ h : Grid, map (map (λ x, f (e x))) h = map (map f) (map (map e) h)).
  { intros h. rewrite map_map. apply map_ext. intros rw. by rewrite map_map. }
  by rewrite !Hc, H.
Qed.

Lemma sameModulo_ext (e e' : Cell → Cell) g g' :
  (∀ x, e x = e' x) → sameModulo e g g' → sameModulo e' g g'.
Proof.
  unfold sameModulo. intros He H.
  assert (Hc : ∀ h : Grid, map (map e') h = map (map e) h).
  { intros h. apply map_ext. intros rw. apply map_ext. intros x. by rewrite He. }
  by rewrite !Hc.
Qed.

Lemma consistentb_sound config g :
  hasDims config g → consistentb config g = true → consistent g.
Proof.
  intros Hdims Hb r c x Hx Hm. unfold consistentb in Hb.
  rewrite forallb_forall in Hb. specialize (Hb (r, c)). simpl in Hb.
  rewrite Hx, Hm in Hb. simpl in Hb. apply Z.eqb_eq, Hb.
  assert (Hin : is_Some (cellAt g r c)) by eauto.
  apply (hasDims_cellAt config) in Hin as [Hr Hc]; [|done].
  apply list_elem_of_In, elem_of_prod. split; apply elem_of_seqZ; lia.
Qed.

(** Whatever the draws, when [placeMines] returns it has placed [mines]
    mines outside the block of the anchor, written the counts, and left the
    other fields of the cells as they were. *)
Lemma placeMines_sound d g fr fc random g' :
  hasDims (DIFFICULTIES d) g → placeMines d g fr fc random = Ok g' →
  sameModulo clearPlacement g g' ∧
  cellCount isMine g' = cellCount isMine g + mines (DIFFICULTIES d) ∧
  (∀ r c, mineAt g' r c = true → mineAt g r c = true ∨ ¬ inBox fr fc r c) ∧
  consistent g'.
Proof.
  intros Hdims Hrun. unfold placeMines in Hrun.
  apply bindRes_Ok in Hrun as (gm & Hloop & Hcount).
  apply placeLoop_sound in Hloop as (Hs1 & Hc1 & Hm1).
  apply computeNeighbors_sound in Hcount as (Hs2 & Hcons);
    [|eapply hasDims_shape; [eapply sameModulo_shape, Hs1 | done]].
  split; [|split; [|split]]; [| | |done].
  - pose proof (sameModulo_compose (setMine false) (setNeighborMines 0) _ _ Hs1) as H1.
    pose proof (sameModulo_compose (setNeighborMines 0) (setMine false) _ _ Hs2) as H2.
    apply (sameModulo_ext _ clearPlacement) in H2; [|done].
    exact (sameModulo_trans _ _ _ _ H1 H2).
  - rewrite <- (sameModulo_cellCount (setNeighborMines 0) isMine _ _ (λ _, eq_refl) Hs2), Hc1.
    destruct d; simpl; lia.
  - intros r c Hm. apply Hm1.
    by rewrite (sameModulo_mineAt (setNeighborMines 0) _ _ r c (λ _, eq_refl) Hs2).
Qed.

Lemma placeMines_total d g fr fc random :
  hasDims (DIFFICULTIES d) g → (∀ r c, mineAt g r c = false) →
  enoughDraws (DIFFICULTIES d) fr fc random = true →
  ∃ g', placeMines d g fr fc random = Ok g'.
Proof.
  intros Hdims Hno Hen. unfold placeMines.
  destruct (enoughDraws_total _ _ _ _ _ Hdims Hno Hen) as [gm Hgm].
  rewrite Hgm. simpl. apply computeNeighbors_total.
  apply placeLoop_sound in Hgm as (Hs & _).
  eapply hasDims_shape; [eapply sameModulo_shape, Hs | done].
Qed.

(** On the board of status idle: the result is a placed board with no mine in
    the block of the anchor. *)
Lemma placeMines_idle d g fr fc random g' :
  idleBoard (DIFFICULTIES d) g → placeMines d g fr fc random = Ok g' →
  placedBoard (DIFFICULTIES d) g' ∧
  (∀ r c, inBox fr fc r c → mineAt g' r c = false) ∧
  sameModulo clearPlacement g g'.
Proof.
  intros Hidle Hrun.
  pose proof (idleBoard_hasDims _ _ Hidle) as Hdims.
  destruct (placeMines_sound _ _ _ _ _ _ Hdims Hrun) as (Hs & Hc & Hm & Hcons).
  split; [split; [|split]|split]; try done.
  - eapply hasDims_shape; [eapply sameModulo_shape, Hs | done].
  - rewrite Hc, (idleBoard_no_mines _ _ Hidle). lia.
  - intros r c Hbox. destruct (mineAt g' r c) eqn:Hmine; [|done].
    apply Hm in Hmine as [Hmine|Hout]; [|done].
    by rewrite (idleBoard_mineAt _ _ _ _ Hidle) in Hmine.
Qed.

(** ** Boards with more cells revealed *)

Lemma cellExt_refl x : cellExt x x.
Proof. by split. Qed.

Lemma cellExt_trans x y z : cellExt x y → cellExt y z → cellExt x z.
Proof. intros [H1 H2] [H3 H4]. split; [congruence | auto]. Qed.

Lemma gridExt_refl g : gridExt g g.
Proof.
  unfold gridExt. apply Forall2_same_length_lookup. split; [done|].
  intros i rw rw' H1 H2. assert (rw = rw') as <- by congruence.
  apply Forall2_same_length_lookup. split; [done|].
  intros j x x' H3 H4. assert (x = x') as <- by congruence. apply cellExt_refl.
Qed.

Lemma gridExt_trans g1 g2 g3 : gridExt g1 g2 → gridExt g2 g3 → gridExt g1 g3.
Proof.
  unfold gridExt. intros H1 H2.
  eapply Forall2_trans; [|exact H1|exact H2].
  intros rw1 rw2 rw3 H3 H4. eapply Forall2_trans; [|exact H3|exact H4].
  apply cellExt_trans.
Qed.

Lemma gridExt_updCell g r c :
  gridExt g (updCell g r c (setRevealed true)).
Proof.
  unfold updCell. case_decide; [|apply gridExt_refl].
  unfold gridExt. apply Forall2_alter_r; [apply gridExt_refl|].
  intros rw rw' _ _ Hrw. apply Forall2_alter_r; [done|].
  intros x x' _ _ [Hx1 Hx2]. split; [|done]. rewrite Hx1. done.
Qed.

Lemma gridExt_revealMines g : gridExt g (revealMines g).
Proof.
  unfold gridExt, revealMines.
  change (map ?f ?l) with (f <$> l). apply Forall2_fmap_r.
  apply Forall2_same_length_lookup. split; [done|].
  intros i rw rw' H1 H2. assert (rw = rw') as <- by congruence.
  change (map ?f ?l) with (f <$> l). apply Forall2_fmap_r.
  apply Forall2_same_length_lookup. split; [done|].
  intros j x x' H3 H4. assert (x = x') as <- by congruence.
  simpl. destruct (isMine x); [|apply cellExt_refl]. by split.
Qed.

Lemma gridExt_cellAt g g' r c x :
  gridExt g g' → cellAt g r c = Some x →
  ∃ x', cellAt g' r c = Some x' ∧ cellExt x x'.
Proof.
  intros Hext Hx. apply cellAt_Some in Hx as (Hr & Hc & rw & Hrw & Hx).
  destruct (Forall2_lookup_l _ _ _ _ _ Hext Hrw) as (rw' & Hrw' & Hrows).
  destruct (Forall2_lookup_l _ _ _ _ _ Hrows Hx) as (x' & Hx' & Hcell).
  exists x'. split; [|done]. by rewrite (cellAt_lookup _ _ _ rw').
Qed.

Lemma gridExt_cellAt_None g g' r c :
  gridExt g g' → cellAt g r c = None → cellAt g' r c = None.
Proof.
  intros Hext Hx. destruct (cellAt g' r c) as [x'|] eqn:Hx'; [|done].
  apply cellAt_Some in Hx' as (Hr & Hc & rw' & Hrw' & Hx').
  destruct (Forall2_lookup_r _ _ _ _ _ Hext Hrw') as (rw & Hrw & Hrows).
  destruct (Forall2_lookup_r _ _ _ _ _ Hrows Hx') as (x & Hx0 & Hcell).
  rewrite (cellAt_lookup _ _ _ rw) in Hx by done. congruence.
Qed.

Lemma gridExt_sameModulo g g' : gridExt g g' → sameModulo (setRevealed false) g g'.
Proof.
  unfold gridExt, sameModulo. induction 1 as [|rw rw' g g' Hrw _ IH]; simpl; [done|].
  f_equal; [|done]. clear IH. induction Hrw as [|x x' rw rw' [Hx _] _ IH]; simpl; [done|].
  by f_equal.
Qed.

Lemma gridExt_shape g g' : gridExt g g' → shape g = shape g'.
Proof. intros H. eapply sameModulo_shape, gridExt_sameModulo, H. Qed.

Lemma gridExt_revealedAt g g' r c :
  gridExt g g' → revealedAt g r c = true → revealedAt g' r c = true.
Proof.
  intros Hext. unfold revealedAt. destruct (cellAt g r c) as [x|] eqn:Hx; [|done].
  destruct (gridExt_cellAt _ _ _ _ _ Hext Hx) as (x' & -> & _ & Hmono). done.
Qed.

Lemma gridExt_mineAt g g' r c : gridExt g g' → mineAt g r c = mineAt g' r c.
Proof.
  intros H. apply (sameModulo_mineAt (setRevealed false)); [done|].
  by apply gridExt_sameModulo.
Qed.

Lemma gridExt_flaggedAt g g' r c : gridExt g g' → flaggedAt g r c = flaggedAt g' r c.
Proof.
  intros H. apply (sameModulo_flaggedAt (setRevealed false)); [done|].
  by apply gridExt_sameModulo.
Qed.

(** Revealing cells does not add hidden cells. *)
Lemma gridExt_hidden g g' :
  gridExt g g' →
  cellCount (λ x, negb (isRevealed x)) g' ≤ cellCount (λ x, negb (isRevealed x)) g.
Proof.
  unfold gridExt, cellCount. intros H.
  apply inj_le. induction H as [|rw rw' g g' Hrw _ IH]; simpl; [done|].
  rewrite !List.filter_app, !length_app.
  apply Nat.add_le_mono; [|done]. clear IH.
  induction Hrw as [|x x' rw rw' [_ Hx] _ IH]; simpl; [done|].
  destruct (isRevealed x), (isRevealed x'); simpl; try lia.
Qed.

Lemma rect_shape g g' : shape g = shape g' → rect g → rect g'.
Proof.
  intros Hsh Hrect r c. specialize (Hrect r c).
  rewrite (shape_gridLength _ _ Hsh), (shape_rowLength0 _ _ Hsh) in Hrect.
  split; intros H.
  - apply Hrect. by eapply shape_cellAt.
  - apply Hrect in H. by eapply shape_cellAt.
Qed.

Lemma hasDims_rect config g : hasDims config g → rect g.
Proof.
  intros Hdims r c. rewrite (hasDims_cellAt config) by done.
  unfold hasDims, shape in Hdims. unfold gridLength, rowLength0.
  assert (Hlen : length g = Z.to_nat (rows config)).
  { apply (f_equal length) in Hdims. by rewrite length_map, length_replicate in Hdims. }
  destruct g as [|rw g]; simpl in *; [lia|].
  destruct (Z.to_nat (rows config)) as [|n] eqn:Hn; [done|].
  simpl in Hdims. injection Hdims as Hrw _. lia.
Qed.

(** ** reveal as a relation *)

Lemma newGrid_stopTimer p : newGrid (stopTimer p) = newGrid p.
Proof. unfold stopTimer. by destruct (pTimerRef p). Qed.

Lemma newGrid_disclose p : newGrid (disclose p) = revealMines (newGrid p).
Proof. unfold disclose. simpl. by rewrite newGrid_stopTimer. Qed.

Lemma Reveal_gridExt_both :
  (∀ p row col p', Reveal p row col p' → gridExt (newGrid p) (newGrid p')) ∧
  (∀ p qs p', RevealAll p qs p' → gridExt (newGrid p) (newGrid p')).
Proof.
  apply Reveal_RevealAll_ind; intros.
  - apply gridExt_refl.
  - apply gridExt_refl.
  - rewrite newGrid_disclose. simpl.
    eapply gridExt_trans; [apply gridExt_updCell | apply gridExt_revealMines].
  - apply gridExt_updCell.
  - simpl in *. eapply gridExt_trans; [|eassumption]. apply gridExt_updCell.
  - apply gridExt_refl.
  - eapply gridExt_trans; eassumption.
Qed.

Lemma Reveal_gridExt p row col p' :
  Reveal p row col p' → gridExt (newGrid p) (newGrid p').
Proof. apply Reveal_gridExt_both. Qed.

Lemma RevealAll_gridExt p qs p' :
  RevealAll p qs p' → gridExt (newGrid p) (newGrid p').
Proof. apply Reveal_gridExt_both. Qed.

Lemma rect_gridExt g g' : gridExt g g' → rect g → rect g'.
Proof. intros H. apply rect_shape. by apply gridExt_shape. Qed.

Lemma rect_bounds g row col :
  rect g →
  (row <? 0) || (row >=? gridLength g) || (col <? 0) || (col >=? rowLength0 g) = true
  ↔ cellAt g row col = None.
Proof.
  intros Hrect. specialize (Hrect row col).
  rewrite <- not_eq_None_Some in Hrect.
  destruct (cellAt g row col) as [x|] eqn:Hx.
  - split; [|done]. intros Hb. exfalso.
    assert (Hin : Some x ≠ None) by done. apply Hrect in Hin.
    rewrite !orb_true_iff in Hb. lia.
  - split; [done|]. intros _.
    destruct (_ || (col >=? rowLength0 g)) eqn:Hb; [done|].
    exfalso. rewrite !orb_false_iff in Hb.
    assert (Hin : 0 ≤ row < gridLength g ∧ 0 ≤ col < rowLength0 g) by lia.
    by apply Hrect in Hin.
Qed.

Lemma forEach_around {S} (body : S → Z → Z → Res S) row col s :
  forEach (seqZ (-1) 3) (λ s dr,
    forEach (seqZ (-1) 3) (λ s dc, body s (row + dr) (col + dc)) s) s
  = forEach (around row col) (λ s q, body s q.1 q.2) s.
Proof.
  rewrite (forEach_nested _ _ (λ s dr dc, body s (row + dr) (col + dc))).
  unfold around, offsets. generalize (list_prod (seqZ (-1) 3) (seqZ (-1) 3)). intros l.
  revert s. induction l as [|q l IH]; intros s; simpl; [done|].
  destruct (body s _ _); simpl; [apply IH | done].
Qed.

(** The equation of [reveal], with the loops over the neighbours flattened. *)
Lemma reveal_unfold fuel p row col :
  reveal (S fuel) p row col =
  match cellAt (newGrid p) row col with
  | None =>
      if (row <? 0) || (row >=? gridLength (newGrid p)) ||
         (col <? 0) || (col >=? rowLength0 (newGrid p))
      then Ok p else Fail TypeError
  | Some cell =>
      if (row <? 0) || (row >=? gridLength (newGrid p)) ||
         (col <? 0) || (col >=? rowLength0 (newGrid p))
      then Ok p
      else if isRevealed cell || isFlagged cell then Ok p
      else if isMine cell then Ok (disclose (markRevealed p row col))
      else if neighborMines cell =? 0
           then forEach (around row col) (λ p q, reveal fuel p q.1 q.2)
                  (markRevealed p row col)
           else Ok (markRevealed p row col)
  end.
Proof.
  simpl. unfold getCell.
  destruct (cellAt (newGrid p) row col) as [cell|]; simpl; [|done].
  destruct (_ || (col >=? rowLength0 (newGrid p))); [done|].
  destruct (isRevealed cell || isFlagged cell); [done|].
  destruct (isMine cell); [done|].
  destruct (neighborMines cell =? 0); [|done].
  apply (forEach_around (λ p r c, reveal fuel p r c)).
Qed.

(** A call of [reveal] that returns is in the relation. *)
Lemma reveal_Reveal fuel : ∀ p row col p',
  rect (newGrid p) → reveal fuel p row col = Ok p' → Reveal p row col p'.
Proof.
  induction fuel as [|fuel IH]; intros p row col p' Hrect Hrun; [done|].
  rewrite reveal_unfold in Hrun.
  destruct (cellAt (newGrid p) row col) as [cell|] eqn:Hcell.
  - destruct (_ || (col >=? rowLength0 (newGrid p))) eqn:Hb.
    { apply rect_bounds in Hb; [congruence | done]. }
    destruct (isRevealed cell || isFlagged cell) eqn:Hskip.
    { injection Hrun as <-. by eapply Reveal_skip. }
    destruct (isMine cell) eqn:Hmine.
    { injection Hrun as <-. by eapply Reveal_mine. }
    destruct (neighborMines cell =? 0) eqn:Hzero.
    + apply Z.eqb_eq in Hzero. eapply Reveal_zero; try done.
      assert (Hrect1 : rect (newGrid (markRevealed p row col))).
      { simpl. eapply rect_gridExt; [apply gridExt_updCell | done]. }
      clear Hcell Hb Hskip Hmine Hzero.
      revert Hrun Hrect1. generalize (markRevealed p row col) as p1.
      induction (around row col) as [|q qs IHqs]; intros p1 Hrun Hrect1; simpl in Hrun.
      * injection Hrun as <-. constructor.
      * apply bindRes_Ok in Hrun as (p2 & H1 & H2).
        apply IH in H1; [|done].
        econstructor; [exact H1|]. apply IHqs; [done|].
        eapply rect_gridExt; [by eapply Reveal_gridExt | done].
    + apply Z.eqb_neq in Hzero. injection Hrun as <-. by eapply Reveal_number.
  - destruct (_ || (col >=? rowLength0 (newGrid p))); [|done].
    injection Hrun as <-. by apply Reveal_outside.
Qed.

(** [reveal] returns when its fuel exceeds the number of hidden cells. *)
Lemma reveal_total fuel : ∀ p row col,
  rect (newGrid p) →
  cellCount (λ x, negb (isRevealed x)) (newGrid p) < Z.of_nat fuel →
  ∃ p', reveal fuel p row col = Ok p'.
Proof.
  induction fuel as [|fuel IH]; intros p row col Hrect Hfuel.
  { pose proof (cellCount_le (λ x, negb (isRevealed x)) (newGrid p)). lia. }
  rewrite reveal_unfold.
  destruct (cellAt (newGrid p) row col) as [cell|] eqn:Hcell.
  - destruct (_ || (col >=? rowLength0 (newGrid p))); [eauto|].
    destruct (isRevealed cell || isFlagged cell) eqn:Hskip; [eauto|].
    destruct (isMine cell); [eauto|].
    destruct (neighborMines cell =? 0); [|eauto].
    apply orb_false_iff in Hskip as [Hrev _].
    set (I := λ q : Pending, rect (newGrid q) ∧
                cellCount (λ x, negb (isRevealed x)) (newGrid q) < Z.of_nat fuel).
    destruct (forEach_total I (around row col) (λ p q, reveal fuel p q.1 q.2))
      with (s := markRevealed p row col) as (p' & Hp' & _); [| |eauto].
    + intros q n _ [Hq1 Hq2].
      destruct (IH q n.1 n.2 Hq1 Hq2) as [q' Hq']. exists q'. split; [done|].
      apply reveal_Reveal, Reveal_gridExt in Hq'; [|done].
      split; [by eapply rect_gridExt|].
      pose proof (gridExt_hidden _ _ Hq'). lia.
    + split; simpl.
      * eapply rect_gridExt; [apply gridExt_updCell | done].
      * rewrite (cellCount_updCell _ _ _ _ _ _ Hcell). simpl. rewrite Hrev. simpl. lia.
  - rewrite (proj2 (rect_bounds _ row col Hrect)) by done. eauto.
Qed.

(** ** The cells that a cascade reveals *)

Lemma elem_of_around row col q : q ∈ around row col ↔ adjacent (row, col) q.
Proof.
  unfold around, adjacent, offsets. destruct q as [r c]. cbn [fst snd].
  change (map ?f ?l) with (f <$> l). split.
  - intros Hq. apply list_elem_of_fmap in Hq as ([dr dc] & Heq & Hd).
    apply elem_of_prod in Hd as [Hr Hc]. apply elem_of_seqZ in Hr, Hc.
    simpl in Heq. injection Heq as -> ->. lia.
  - intros [Hr Hc]. apply list_elem_of_fmap. exists (r - row, c - col). split.
    + simpl. f_equal; lia.
    + apply elem_of_prod. split; apply elem_of_seqZ; lia.
Qed.

Lemma revealedAt_updCell g r c r' c' :
  revealedAt (updCell g r c (setRevealed true)) r' c' = true ↔
  (r' = r ∧ c' = c ∧ is_Some (cellAt g r c)) ∨ revealedAt g r' c' = true.
Proof.
  unfold revealedAt. rewrite cellAt_updCell. case_decide as Heq.
  - destruct Heq as [-> ->]. destruct (cellAt g r c) as [x|]; simpl.
    + split; [intros _; left; eauto | done].
    + split; [done|]. intros [(_ & _ & [? ?])|]; done.
  - split; [by right|]. intros [(-> & -> & _)|]; [|done]. by destruct Heq.
Qed.

Lemma cellAt_revealMines g r c :
  cellAt (revealMines g) r c
  = (λ x, if isMine x then setRevealed true x else x) <$> cellAt g r c.
Proof. apply cellAt_map. Qed.

Lemma revealedAt_revealMines g r c :
  revealedAt (revealMines g) r c = mineAt g r c || revealedAt g r c.
Proof.
  unfold revealedAt, mineAt. rewrite cellAt_revealMines.
  destruct (cellAt g r c) as [x|]; simpl; [|done]. by destruct (isMine x).
Qed.

(** After the call, the cell is revealed unless it holds a flag. *)
Lemma Reveal_here p row col p' x :
  Reveal p row col p' →
  cellAt (newGrid p) row col = Some x → isFlagged x = false →
  revealedAt (newGrid p') row col = true.
Proof.
  intros Hrev Hx Hflag.
  assert (Hmark : revealedAt (updCell (newGrid p) row col (setRevealed true)) row col = true).
  { apply revealedAt_updCell. left. eauto. }
  inversion Hrev; subst.
  - congruence.
  - assert (cell = x) as -> by congruence. rewrite Hflag, orb_false_r in *.
    unfold revealedAt. by rewrite Hx.
  - rewrite newGrid_disclose. simpl. rewrite revealedAt_revealMines, Hmark.
    apply orb_true_r.
  - done.
  - eapply gridExt_revealedAt; [by eapply RevealAll_gridExt|]. done.
Qed.

Lemma flagged_gridExt g g' r c x x' :
  gridExt g g' → cellAt g r c = Some x → cellAt g' r c = Some x' →
  isFlagged x' = isFlagged x ∧ isMine x' = isMine x ∧ neighborMines x' = neighborMines x.
Proof.
  intros Hext Hx Hx'.
  destruct (gridExt_cellAt _ _ _ _ _ Hext Hx) as (y & Hy & Hxy & _).
  assert (y = x') as -> by congruence.
  apply (f_equal isFlagged) in Hxy as H1. apply (f_equal isMine) in Hxy as H2.
  apply (f_equal neighborMines) in Hxy as H3. simpl in *. done.
Qed.

Lemma RevealAll_here p qs p' :
  RevealAll p qs p' →
  ∀ q x, q ∈ qs → cellAt (newGrid p) q.1 q.2 = Some x → isFlagged x = false →
         revealedAt (newGrid p') q.1 q.2 = true.
Proof.
  induction 1 as [|p n qs p1 p2 Hn Hqs IH]; intros q x Hq Hx Hflag.
  - by apply elem_of_nil in Hq.
  - apply elem_of_cons in Hq as [->|Hq].
    + eapply gridExt_revealedAt; [by eapply RevealAll_gridExt|].
      by eapply Reveal_here.
    + apply Reveal_gridExt in Hn.
      destruct (gridExt_cellAt _ _ _ _ _ Hn Hx) as (x1 & Hx1 & _).
      apply (IH q x1); [done|done|].
      destruct (flagged_gridExt _ _ _ _ _ _ Hn Hx Hx1) as (-> & _). done.
Qed.

Lemma closedFrom_refl g : closedFrom g g.
Proof.
  intros y x Hx Hhid Hrev. unfold revealedAt in Hrev. rewrite Hx in Hrev. congruence.
Qed.

Lemma closedFrom_trans g1 g2 g3 :
  gridExt g1 g2 → gridExt g2 g3 → closedFrom g1 g2 → closedFrom g2 g3 →
  closedFrom g1 g3.
Proof.
  intros H12 H23 C12 C23 y x Hx Hhid Hrev Hmine Hzero n z Hadj Hz Hflag.
  destruct (gridExt_cellAt _ _ _ _ _ H12 Hx) as (x2 & Hx2 & _).
  destruct (gridExt_cellAt _ _ _ _ _ H12 Hz) as (z2 & Hz2 & _).
  destruct (flagged_gridExt _ _ _ _ _ _ H12 Hx Hx2) as (_ & Hm2 & Hn2).
  destruct (flagged_gridExt _ _ _ _ _ _ H12 Hz Hz2) as (Hf2 & _).
  destruct (isRevealed x2) eqn:Hrev2.
  - eapply gridExt_revealedAt; [exact H23|].
    eapply (C12 y x); try done. unfold revealedAt. by rewrite Hx2.
  - eapply (C23 y x2); try done; congruence.
Qed.

Lemma Reveal_closed_both :
  (∀ p row col p', Reveal p row col p' → closedFrom (newGrid p) (newGrid p')) ∧
  (∀ p qs p', RevealAll p qs p' → closedFrom (newGrid p) (newGrid p')).
Proof.
  apply Reveal_RevealAll_ind.
  - intros. apply closedFrom_refl.
  - intros. apply closedFrom_refl.
  - intros p row col cell Hcell Hskip Hmine y x Hx Hhid Hrev Hxm _.
    rewrite newGrid_disclose in Hrev. simpl in Hrev.
    rewrite revealedAt_revealMines in Hrev. unfold mineAt in Hrev.
    rewrite cellAt_updCell in Hrev. exfalso.
    case_decide as Heq.
    + destruct Heq as [Hr Hc]. rewrite Hr, Hc in Hx. congruence.
    + rewrite Hx, Hxm in Hrev. simpl in Hrev.
      apply revealedAt_updCell in Hrev as [(? & ? & _)|Hrev]; [by destruct Heq|].
      unfold revealedAt in Hrev. rewrite Hx in Hrev. congruence.
  - intros p row col cell Hcell Hskip Hmine Hnum y x Hx Hhid Hrev _ Hzero.
    simpl in Hrev. exfalso.
    apply revealedAt_updCell in Hrev as [(Hr & Hc & _)|Hrev].
    + rewrite Hr, Hc in Hx. congruence.
    + unfold revealedAt in Hrev. rewrite Hx in Hrev. congruence.
  - intros p row col cell p' Hcell Hskip Hmine Hzero Hall IH.
    intros y x Hx Hhid Hrev Hxm Hxz n z Hadj Hz Hflag.
    assert (Hext1 : gridExt (newGrid p) (newGrid (markRevealed p row col)))
      by apply gridExt_updCell.
    destruct (gridExt_cellAt _ _ _ _ _ Hext1 Hz) as (z1 & Hz1 & _).
    destruct (flagged_gridExt _ _ _ _ _ _ Hext1 Hz Hz1) as (Hf1 & _).
    destruct (decide (y = (row, col))) as [->|Hne].
    + eapply (RevealAll_here _ _ _ Hall n z1); [|done|congruence].
      by apply elem_of_around.
    + destruct (gridExt_cellAt _ _ _ _ _ Hext1 Hx) as (x1 & Hx1 & _).
      destruct (flagged_gridExt _ _ _ _ _ _ Hext1 Hx Hx1) as (_ & Hm1 & Hn1).
      eapply (IH y x1); try done; try congruence.
      simpl in Hx1. rewrite cellAt_updCell_ne in Hx1 by (by destruct y).
      congruence.
  - intros. apply closedFrom_refl.
  - intros p q qs p1 p2 Hq IH1 Hqs IH2.
    eapply closedFrom_trans; try done.
    + by eapply Reveal_gridExt.
    + by eapply RevealAll_gridExt.
Qed.

(** ** Only entered cells are revealed *)

Lemma cellAt_gridExt_inv g g' r c x' :
  gridExt g g' → cellAt g' r c = Some x' →
  ∃ x, cellAt g r c = Some x ∧ cellExt x x'.
Proof.
  intros Hext Hx'. destruct (cellAt g r c) as [x|] eqn:Hx.
  - destruct (gridExt_cellAt _ _ _ _ _ Hext Hx) as (y & Hy & Hxy).
    exists x. split; [done|]. congruence.
  - apply (gridExt_cellAt_None _ _ _ _ Hext) in Hx. congruence.
Qed.

Lemma enterable_gridExt g g' a : gridExt g g' → enterable g' a → enterable g a.
Proof.
  intros Hext (x' & Hx' & Hhid & Hflag).
  destruct (cellAt_gridExt_inv _ _ _ _ _ Hext Hx') as (x & Hx & Hxx' & Hmono).
  exists x. split; [done|]. split.
  - destruct (isRevealed x); [|done]. rewrite Hmono in Hhid; done.
  - apply (f_equal isFlagged) in Hxx'. simpl in Hxx'. congruence.
Qed.

Lemma spreads_gridExt g g' a : gridExt g g' → spreads g' a → spreads g a.
Proof.
  intros Hext (x' & Hx' & Hmine & Hzero).
  destruct (cellAt_gridExt_inv _ _ _ _ _ Hext Hx') as (x & Hx & Hxx' & _).
  exists x. split; [done|].
  apply (f_equal isMine) in Hxx' as H1. apply (f_equal neighborMines) in Hxx' as H2.
  simpl in *. split; congruence.
Qed.

(** A cascade on a board with more cells revealed is one on the board. *)
Lemma cascade_gridExt g g' a y : gridExt g g' → cascade g' a y → cascade g a y.
Proof.
  intros Hext. induction 1 as [Ha|b c Hab IH Hb Hbc Hc].
  - apply cascade_start. by eapply enterable_gridExt.
  - eapply cascade_next; [exact IH | | done |].
    + by eapply spreads_gridExt.
    + by eapply enterable_gridExt.
Qed.

Lemma cascade_prepend g a q y :
  enterable g a → spreads g a → adjacent a q → cascade g q y → cascade g a y.
Proof.
  intros Ha Hsp Hadj. induction 1 as [Hq|b c Hqb IH Hb Hbc Hc].
  - eapply cascade_next; [by apply cascade_start | done | done | done].
  - eapply cascade_next; [exact IH | done | done | done].
Qed.

Lemma cascade_enterable g a y : cascade g a y → enterable g y.
Proof. by destruct 1. Qed.

Lemma reachedFrom_gridExt g g' qs y :
  gridExt g g' → reachedFrom g' qs y → reachedFrom g qs y.
Proof. intros Hext (q & Hq & Hc). exists q. split; [done|]. by eapply cascade_gridExt. Qed.

Lemma mineReached_gridExt g g' qs :
  gridExt g g' → mineReached g' qs → mineReached g qs.
Proof.
  intros Hext (m & Hm & Hmine). exists m. split; [by eapply reachedFrom_gridExt|].
  by rewrite (gridExt_mineAt g g').
Qed.

Lemma reachedFrom_mono g qs qs' y : qs ⊆ qs' → reachedFrom g qs y → reachedFrom g qs' y.
Proof. intros Hsub (q & Hq & Hc). exists q. auto. Qed.

Lemma mineReached_mono g qs qs' : qs ⊆ qs' → mineReached g qs → mineReached g qs'.
Proof. intros Hsub (m & Hm & Hmine). exists m. split; [by eapply reachedFrom_mono|done]. Qed.

Lemma quiet_refl p : quiet p p.
Proof. done. Qed.

Lemma quiet_markRevealed p row col : quiet p (markRevealed p row col).
Proof. done. Qed.

Lemma soundFrom_refl g qs : soundFrom g qs g.
Proof. intros y H1 H2. congruence. Qed.

Lemma soundFrom_trans g1 g2 g3 qs1 qs2 qs :
  qs1 ⊆ qs → qs2 ⊆ qs → gridExt g1 g2 →
  soundFrom g1 qs1 g2 → soundFrom g2 qs2 g3 → soundFrom g1 qs g3.
Proof.
  intros Hs1 Hs2 Hext S12 S23 y Hhid Hrev.
  destruct (revealedAt g2 y.1 y.2) eqn:Hrev2.
  - destruct (S12 y Hhid Hrev2) as [Hy|[Hm Hr]].
    + left. eapply reachedFrom_mono; [exact Hs1|done].
    + right. split; [done|]. eapply mineReached_mono; [exact Hs1|done].
  - destruct (S23 y Hrev2 Hrev) as [Hy|[Hm Hr]].
    + left. eapply reachedFrom_mono; [exact Hs2|]. by eapply reachedFrom_gridExt.
    + right. split; [by rewrite (gridExt_mineAt g1 g2)|].
      eapply mineReached_mono; [exact Hs2|]. by eapply mineReached_gridExt.
Qed.

Lemma statusFrom_trans p1 p2 p3 qs1 qs2 qs :
  qs1 ⊆ qs → qs2 ⊆ qs → gridExt (newGrid p1) (newGrid p2) →
  statusFrom p1 qs1 p2 → statusFrom p2 qs2 p3 → statusFrom p1 qs p3.
Proof.
  intros Hs1 Hs2 Hext [Hq1|[Hm1 Hl1]] [Hq2|[Hm2 Hl2]].
  - left. destruct Hq1 as (? & ? & ?), Hq2 as (? & ? & ?). repeat split; congruence.
  - right. split; [|done]. eapply mineReached_mono; [exact Hs2|].
    by eapply mineReached_gridExt.
  - right. split; [eapply mineReached_mono; [exact Hs1|done]|].
    destruct Hq2 as (-> & _). done.
  - right. split; [eapply mineReached_mono; [exact Hs1|done]|done].
Qed.

Lemma Reveal_sound_both :
  (∀ p row col p', Reveal p row col p' →
     soundFrom (newGrid p) [(row, col)] (newGrid p') ∧ statusFrom p [(row, col)] p') ∧
  (∀ p qs p', RevealAll p qs p' →
     soundFrom (newGrid p) qs (newGrid p') ∧ statusFrom p qs p').
Proof.
  assert (Hstart : ∀ g row col cell,
            cellAt g row col = Some cell → isRevealed cell || isFlagged cell = false →
            enterable g (row, col)).
  { intros g row col cell Hcell Hskip. apply orb_false_iff in Hskip as [? ?].
    by exists cell. }
  assert (Hself : ∀ g row col, enterable g (row, col) →
            reachedFrom g [(row, col)] (row, col)).
  { intros g row col He. exists (row, col). split; [left|by apply cascade_start]. }
  assert (Hother : ∀ g row col y, y ≠ (row, col) → revealedAt g y.1 y.2 = false →
            revealedAt (updCell g row col (setRevealed true)) y.1 y.2 = false).
  { intros g row col [r c] Hne Hhid. simpl in *.
    destruct (revealedAt (updCell _ _ _ _) r c) eqn:Hrev; [|done].
    apply revealedAt_updCell in Hrev as [(-> & -> & _)|]; congruence. }
  apply Reveal_RevealAll_ind.
  - intros. split; [apply soundFrom_refl | left; apply quiet_refl].
  - intros. split; [apply soundFrom_refl | left; apply quiet_refl].
  - intros p row col cell Hcell Hskip Hmine.
    pose proof (Hstart _ _ _ _ Hcell Hskip) as Hent.
    assert (Hreach : mineReached (newGrid p) [(row, col)]).
    { exists (row, col). split; [by apply Hself|]. unfold mineAt. simpl. by rewrite Hcell. }
    split; [|right; split; [done|]].
    + intros y Hhid Hrev. destruct (decide (y = (row, col))) as [->|Hne].
      { left. by apply Hself. }
      right. split; [|done].
      rewrite newGrid_disclose in Hrev. simpl in Hrev.
      rewrite revealedAt_revealMines, (Hother _ _ _ _ Hne Hhid), orb_false_r in Hrev.
      rewrite <- Hrev. apply gridExt_mineAt, gridExt_updCell.
    + unfold disclose, stopTimer. simpl. by destruct (pTimerRef p).
  - intros p row col cell Hcell Hskip Hmine Hnum.
    split; [|left; apply quiet_markRevealed].
    intros y Hhid Hrev. destruct (decide (y = (row, col))) as [->|Hne].
    + left. eapply Hself, Hstart; done.
    + simpl in Hrev. rewrite (Hother _ _ _ _ Hne Hhid) in Hrev. done.
  - intros p row col cell p' Hcell Hskip Hmine Hzero Hall [IHs IHst].
    pose proof (Hstart _ _ _ _ Hcell Hskip) as Hent.
    assert (Hsp : spreads (newGrid p) (row, col)) by (by exists cell).
    assert (Hext1 : gridExt (newGrid p) (newGrid (markRevealed p row col)))
      by apply gridExt_updCell.
    assert (Hlift : ∀ y, reachedFrom (newGrid (markRevealed p row col)) (around row col) y →
              reachedFrom (newGrid p) [(row, col)] y).
    { intros y (q & Hq & Hc). exists (row, col). split; [left|].
      apply elem_of_around in Hq.
      eapply cascade_prepend; try done. by eapply cascade_gridExt. }
    assert (Hliftm : mineReached (newGrid (markRevealed p row col)) (around row col) →
              mineReached (newGrid p) [(row, col)]).
    { intros (m & Hm & Hmm). exists m. split; [by apply Hlift|].
      by rewrite (gridExt_mineAt _ _ _ _ Hext1). }
    split.
    + intros y Hhid Hrev. destruct (decide (y = (row, col))) as [->|Hne].
      { left. by apply Hself. }
      destruct (IHs y) as [Hy|[Hm Hr]]; [by apply Hother | done | |].
      * left. by apply Hlift.
      * right. split; [by rewrite (gridExt_mineAt _ _ _ _ Hext1)|by apply Hliftm].
    + destruct IHst as [Hq|[Hr Hl]]; [left|right].
      * destruct Hq as (? & ? & ?). repeat split; done.
      * split; [by apply Hliftm|done].
  - intros. split; [apply soundFrom_refl | left; apply quiet_refl].
  - intros p q qs p1 p2 Hq [IH1 IH1'] Hqs [IH2 IH2'].
    assert (Hs1 : [q] ⊆ q :: qs).
    { intros z Hz. apply list_elem_of_singleton in Hz as ->. left. }
    assert (Hs2 : qs ⊆ q :: qs) by (intros z Hz; by right).
    pose proof (Reveal_gridExt _ _ _ _ Hq) as Hext.
    destruct q as [r c]. simpl in *. split.
    + eapply soundFrom_trans; [exact Hs1 | exact Hs2 | exact Hext | done | done].
    + eapply statusFrom_trans; [exact Hs1 | exact Hs2 | exact Hext | done | done].
Qed.

(** ** Every entered cell is revealed *)

Lemma Reveal_closed p row col p' :
  Reveal p row col p' → closedFrom (newGrid p) (newGrid p').
Proof. apply Reveal_closed_both. Qed.

Lemma Reveal_complete p row col p' y :
  Reveal p row col p' → cascade (newGrid p) (row, col) y →
  revealedAt (newGrid p') y.1 y.2 = true.
Proof.
  intros Hrev. induction 1 as [Ha|b c Hab IH Hb Hbc Hc].
  - destruct Ha as (x & Hx & _ & Hflag). by eapply Reveal_here.
  - destruct Hb as (x & Hx & Hmine & Hzero). destruct Hc as (z & Hz & _ & Hflag).
    apply cascade_enterable in Hab as (x0 & Hx0 & Hhid & _).
    assert (x0 = x) as -> by congruence.
    by eapply (Reveal_closed _ _ _ _ Hrev b x).
Qed.

Lemma Reveal_sound p row col p' :
  Reveal p row col p' →
  soundFrom (newGrid p) [(row, col)] (newGrid p') ∧ statusFrom p [(row, col)] p'.
Proof. apply Reveal_sound_both. Qed.

(** ** A cascade on a board with exact counts meets no mine *)

Lemma mineNeighbors_zero g r c q :
  mineNeighbors g r c = 0 → q ∈ moore r c → mineAt g q.1 q.2 = false.
Proof.
  unfold mineNeighbors. intros Hz Hq.
  destruct (mineAt g q.1 q.2) eqn:Hm; [|done]. exfalso.
  assert (Hin : In q (List.filter (λ q, mineAt g q.1 q.2) (moore r c))).
  { apply List.filter_In. split; [by apply list_elem_of_In | done]. }
  destruct (List.filter _ (moore r c)); simpl in *; [done | lia].
Qed.

Lemma adjacent_moore a b : adjacent a b → b = a ∨ b ∈ moore a.1 a.2.
Proof.
  destruct a as [r c], b as [r' c']. unfold adjacent, moore. simpl. intros [Hr Hc].
  assert (Hr' : r' = r - 1 ∨ r' = r ∨ r' = r + 1) by lia.
  assert (Hc' : c' = c - 1 ∨ c' = c ∨ c' = c + 1) by lia.
  destruct Hr' as [-> | [-> | ->]], Hc' as [-> | [-> | ->]];
    first [by left | right; repeat (first [by left | right])].
Qed.

Lemma reachedFrom_single g a y : reachedFrom g [a] y ↔ cascade g a y.
Proof.
  split.
  - intros (q & Hq & Hc). by apply list_elem_of_singleton in Hq as ->.
  - intros Hc. exists a. split; [left | done].
Qed.

Lemma cascade_no_mine g a y :
  consistent g → mineAt g a.1 a.2 = false → cascade g a y → mineAt g y.1 y.2 = false.
Proof.
  intros Hcons Ha. induction 1 as [_|b c Hab IH Hb Hbc Hc]; [done|].
  destruct Hb as (x & Hx & Hmine & Hzero).
  destruct (adjacent_moore _ _ Hbc) as [-> | Hin]; [done|].
  eapply mineNeighbors_zero; [|exact Hin].
  rewrite <- (Hcons _ _ _ Hx Hmine). done.
Qed.

(** On a board with exact counts, a call of [reveal] on a cell without a mine
    reveals the cells of the cascade and no other, and sets no status. *)
Lemma Reveal_exact p row col p' :
  consistent (newGrid p) → mineAt (newGrid p) row col = false →
  Reveal p row col p' →
  quiet p p' ∧
  ∀ y, revealedAt (newGrid p') y.1 y.2 = true ↔
       revealedAt (newGrid p) y.1 y.2 = true ∨ cascade (newGrid p) (row, col) y.
Proof.
  intros Hcons Hstart Hrev.
  assert (Hno : ¬ mineReached (newGrid p) [(row, col)]).
  { intros (m & Hm & Hmine). apply reachedFrom_single in Hm.
    apply (cascade_no_mine _ (row, col) _ Hcons Hstart) in Hm. congruence. }
  destruct (Reveal_sound _ _ _ _ Hrev) as [Hs Hst]. split.
  - by destruct Hst as [Hq|[Hr _]].
  - intros y. split.
    + intros Hy. destruct (revealedAt (newGrid p) y.1 y.2) eqn:Hhid; [by left|].
      right. destruct (Hs y Hhid Hy) as [Hr|[_ Hr]]; [|done].
      by apply reachedFrom_single.
    + intros [Hy|Hy].
      * eapply gridExt_revealedAt; [by eapply Reveal_gridExt | done].
      * by eapply Reveal_complete.
Qed.

(** ** The handlers *)

Lemma revealFuel_enough g :
  cellCount (λ x, negb (isRevealed x)) g < Z.of_nat (revealFuel g).
Proof.
  pose proof (cellCount_le (λ x, negb (isRevealed x)) g).
  unfold revealFuel. lia.
Qed.

(** On a rectangular board the call [reveal(r, c)] of the handler returns. *)
Lemma reveal_returns p r c :
  rect (newGrid p) →
  ∃ p', reveal (revealFuel (newGrid p)) p r c = Ok p' ∧ Reveal p r c p'.
Proof.
  intros Hrect.
  destruct (reveal_total (revealFuel (newGrid p)) p r c Hrect (revealFuel_enough _))
    as [p' Hp'].
  exists p'. split; [done|]. by eapply reveal_Reveal.
Qed.

Lemma revealPhase_placed s random r c :
  status s ≠ idle →
  revealPhase s random r c = reveal (revealFuel (grid s)) (pendingOf s) r c.
Proof.
  intros Hst. unfold revealPhase. rewrite !decide_False by done. simpl.
  by destruct s.
Qed.

Lemma revealPhase_idle s random r c gp :
  status s = idle → placeMines (difficulty s) (grid s) r c random = Ok gp →
  revealPhase s random r c
  = reveal (revealFuel gp) (withGrid gp (startTimer (setStatus playing (pendingOf s)))) r c.
Proof.
  intros Hst Hgp. unfold revealPhase. rewrite !decide_True by done.
  rewrite Hgp. done.
Qed.

Lemma revealCell_enter s random r c x :
  status s ≠ won → status s ≠ lost →
  cellAt (grid s) r c = Some x → isRevealed x = false → isFlagged x = false →
  revealCell s random r c
  = p ←! revealPhase s random r c; Ok (commit s (winCheck s p)).
Proof.
  intros Hw Hl Hx Hrev Hflag. unfold revealCell, getCell.
  rewrite !decide_False by done. rewrite Hx. simpl. by rewrite Hrev, Hflag.
Qed.

Lemma newGrid_winCheck s p : newGrid (winCheck s p) = newGrid p.
Proof.
  unfold winCheck. repeat case_decide; try done. by rewrite newGrid_stopTimer.
Qed.

Lemma nextStatus_stopTimer p : nextStatus (stopTimer p) = nextStatus p.
Proof. unfold stopTimer. by destruct (pTimerRef p). Qed.

(** The check reads the status of the render, which is never lost when the
    handler runs: the count alone decides. *)
Lemma nextStatus_winCheck s p :
  status s ≠ lost →
  nextStatus (winCheck s p)
  = if decide (cellCount (λ x, negb (isRevealed x)) (newGrid p)
               = mines (DIFFICULTIES (difficulty s)))
    then won else nextStatus p.
Proof.
  intros Hl. unfold winCheck. rewrite decide_True by done.
  rewrite countCells_cellCount. case_decide; [|done].
  by rewrite nextStatus_stopTimer.
Qed.

Lemma startTimer_status p : nextStatus (startTimer p) = nextStatus p.
Proof. unfold startTimer. by destruct (pTimerRef p). Qed.

Lemma startTimer_grid p : newGrid (startTimer p) = newGrid p.
Proof. unfold startTimer. by destruct (pTimerRef p). Qed.

(** ** The invariant of the component *)

Lemma map_id_on {A} (f : A → A) (l : list A) :
  Forall (λ x, f x = x) l → map f l = l.
Proof. induction 1 as [|x l Hx _ IH]; simpl; [done|]. by rewrite Hx, IH. Qed.

Lemma initGrid_idleBoard config : idleBoard config (initGrid config).
Proof.
  unfold idleBoard. rewrite initGrid_map.
  apply map_id_on, list.Forall_forall. intros rw Hrw.
  apply list_elem_of_fmap in Hrw as (r & -> & _).
  apply map_id_on, list.Forall_forall. intros x Hx.
  apply list_elem_of_fmap in Hx as (c & -> & _). done.
Qed.

Lemma consistent_sameModulo erase g g' :
  (∀ x, isMine (erase x) = isMine x) →
  (∀ x, neighborMines (erase x) = neighborMines x) →
  sameModulo erase g g' → consistent g → consistent g'.
Proof.
  intros He1 He2 Hsame Hcons r c x' Hx' Hmine.
  pose proof (sameModulo_cellAt _ _ _ r c Hsame) as Hc. rewrite Hx' in Hc.
  destruct (cellAt g r c) as [x|] eqn:Hx; simpl in Hc; [|done].
  injection Hc as Hc.
  rewrite <- (mineNeighbors_ext g g') by (intros; by apply (sameModulo_mineAt erase)).
  rewrite <- (Hcons r c x Hx).
  - by rewrite <- (He2 x'), <- Hc, He2.
  - by rewrite <- (He1 x), Hc, He1.
Qed.

Lemma placedBoard_sameModulo erase config g g' :
  (∀ x, isMine (erase x) = isMine x) →
  (∀ x, neighborMines (erase x) = neighborMines x) →
  sameModulo erase g g' → placedBoard config g → placedBoard config g'.
Proof.
  intros He1 He2 Hsame (Hdims & Hcount & Hcons). split; [|split].
  - eapply hasDims_shape; [by eapply sameModulo_shape | done].
  - by rewrite <- (sameModulo_cellCount erase isMine g g').
  - by eapply consistent_sameModulo.
Qed.

Lemma placedBoard_gridExt config g g' :
  gridExt g g' → placedBoard config g → placedBoard config g'.
Proof.
  intros Hext. apply (placedBoard_sameModulo (setRevealed false)); try done.
  by apply gridExt_sameModulo.
Qed.

Lemma placedBoard_rect config g : placedBoard config g → rect g.
Proof. intros (Hdims & _). by eapply hasDims_rect. Qed.

Lemma idleBoard_updFlag config g r c b :
  idleBoard config g → idleBoard config (updCell g r c (setFlagged b)).
Proof. unfold idleBoard. intros H. by rewrite map_updCell. Qed.

Lemma invariant_startGame s : invariant (startGame s).
Proof. unfold invariant. simpl. apply initGrid_idleBoard. Qed.

Lemma invariant_toggleFlag s r c s' :
  invariant s → toggleFlag s r c = Ok s' → invariant s'.
Proof.
  unfold toggleFlag. intros Hinv Hrun.
  case_decide as Hw; [by injection Hrun as <-|].
  case_decide as Hl; [by injection Hrun as <-|].
  apply bindRes_Ok in Hrun as (cell & _ & Hrun).
  destruct (isRevealed cell); [by injection Hrun as <-|].
  injection Hrun as <-. unfold invariant in *. simpl. case_decide.
  - by apply idleBoard_updFlag.
  - eapply (placedBoard_sameModulo (setFlagged false)); [done|done| |done].
    by apply sameModulo_updCell.
Qed.

Lemma invariant_revealCell s random r c s' :
  invariant s → revealCell s random r c = Ok s' → invariant s'.
Proof.
  intros Hinv Hrun. unfold revealCell in Hrun.
  case_decide as Hw; [by injection Hrun as <-|].
  case_decide as Hl; [by injection Hrun as <-|].
  apply bindRes_Ok in Hrun as (cell & _ & Hrun).
  destruct (isRevealed cell || isFlagged cell); [by injection Hrun as <-|].
  apply bindRes_Ok in Hrun as (p & Hp & Hrun). injection Hrun as <-.
  unfold invariant in *. simpl. rewrite newGrid_winCheck, nextStatus_winCheck by done.
  assert (Hboth : placedBoard (DIFFICULTIES (difficulty s)) (newGrid p) ∧ nextStatus p ≠ idle).
  { destruct (decide (status s = idle)) as [Hidle|Hidle].
    - unfold revealPhase in Hp. rewrite !decide_True in Hp by done.
      apply bindRes_Ok in Hp as (gp & Hgp & Hp).
      destruct (placeMines_idle _ _ _ _ _ _ Hinv Hgp) as (Hplaced & _).
      apply reveal_Reveal in Hp; [|simpl; by eapply placedBoard_rect].
      split.
      + eapply placedBoard_gridExt; [eapply Reveal_gridExt, Hp | done].
      + destruct (Reveal_sound _ _ _ _ Hp) as [_ [(Hq & _)|[_ Hq]]]; rewrite Hq; [|done].
        simpl. by rewrite startTimer_status.
    - rewrite revealPhase_placed in Hp by done.
      apply reveal_Reveal in Hp; [|simpl; by eapply placedBoard_rect].
      split.
      + eapply placedBoard_gridExt; [eapply Reveal_gridExt, Hp | done].
      + destruct (Reveal_sound _ _ _ _ Hp) as [_ [(Hq & _)|[_ Hq]]]; rewrite Hq; done. }
  destruct Hboth as [Hplaced Hni].
  rewrite decide_False; [done|].
  destruct (decide (cellCount _ _ = _)); [discriminate | exact Hni].
Qed.

(** Every state of the component satisfies the invariant. *)
Lemma reachable_invariant s : reachable s → invariant s.
Proof.
  induction 1 as [|s i s' _ IH Hstep].
  - apply invariant_startGame.
  - destruct i as [random r c|r c|d| |]; unfold dispatch in Hstep.
    + by eapply invariant_revealCell.
    + by eapply invariant_toggleFlag.
    + injection Hstep as <-. unfold selectDifficulty.
      case_decide; [exact IH|apply invariant_startGame].
    + injection Hstep as <-. apply invariant_startGame.
    + injection Hstep as <-. done.
Qed.

(** ** A random source that suffices *)

Lemma remove_dups_NoDup {A} `{EqDecision A} (l : list A) : NoDup l → remove_dups l = l.
Proof.
  induction 1 as [|x l Hx _ IH]; simpl; [done|].
  destruct (decide_rel elem_of x l); [done|]. by rewrite IH.
Qed.

Lemma NoDup_list_prod {A B} (l1 : list A) (l2 : list B) :
  NoDup l1 → NoDup l2 → NoDup (list_prod l1 l2).
Proof.
  intros H1 H2. induction H1 as [|a l1 Ha _ IH]; simpl; [constructor|].
  apply list.NoDup_app. split; [|split; [|done]].
  - change (map ?f ?l) with (f <$> l). apply NoDup_fmap_2; [|done].
    intros x y Hxy. by injection Hxy.
  - intros [a' b] Hin Hin'. apply list_elem_of_fmap in Hin as (b' & Heq & _).
    injection Heq as -> ->. apply elem_of_prod in Hin' as [Hin' _]. done.
Qed.

Lemma filter_split_length {A} (p : A → bool) (l : list A) :
  (length (List.filter p l) + length (List.filter (λ x, negb (p x)) l) = length l)%nat.
Proof. induction l as [|x l IH]; simpl; [done|]. destruct (p x); simpl; lia. Qed.

Lemma NoDup_allCells config : NoDup (allCells config).
Proof.
  unfold allCells. apply NoDup_list_prod; apply NoDup_seqZ.
Qed.

Lemma length_allCells config :
  length (allCells config) = (Z.to_nat (rows config) * Z.to_nat (cols config))%nat.
Proof. unfold allCells. by rewrite length_prod, !length_seqZ. Qed.

(** At most nine cells of the board lie in the block of an anchor. *)
Lemma inBox_cells_le config fr fc :
  (length (List.filter (λ q, negb (outsideBox fr fc q)) (allCells config)) ≤ 9)%nat.
Proof.
  change 9%nat with (length (around fr fc)).
  apply submseteq_length, NoDup_submseteq.
  - apply NoDup_ListNoDup, List.NoDup_filter, NoDup_ListNoDup, NoDup_allCells.
  - intros [r c] Hq. apply list_elem_of_In, List.filter_In in Hq as [_ Hq].
    apply negb_true_iff, outsideBox_inBox in Hq.
    by apply elem_of_around.
Qed.

(** For every difficulty and every anchor, the source that draws each cell
    once makes [placeMines] return. *)
Lemma allCells_enough d fr fc :
  enoughDraws (DIFFICULTIES d) fr fc (allCells (DIFFICULTIES d)) = true.
Proof.
  unfold enoughDraws. apply andb_true_iff. split.
  - apply forallb_forall. intros [r c] Hq.
    apply list_elem_of_In, elem_of_prod in Hq as [Hr Hc].
    apply elem_of_seqZ in Hr, Hc. unfold inRange. simpl.
    rewrite !andb_true_iff. lia.
  - rewrite remove_dups_NoDup
      by apply NoDup_ListNoDup, List.NoDup_filter, NoDup_ListNoDup, NoDup_allCells.
    pose proof (filter_split_length (outsideBox fr fc) (allCells (DIFFICULTIES d))) as Hsum.
    pose proof (inBox_cells_le (DIFFICULTIES d) fr fc) as Hbox.
    rewrite length_allCells in Hsum.
    apply Z.leb_le. revert Hsum Hbox.
    generalize (length (List.filter (outsideBox fr fc) (allCells (DIFFICULTIES d)))).
    generalize (length (List.filter (λ q, negb (outsideBox fr fc q))
                          (allCells (DIFFICULTIES d)))).
    intros inside outside Hsum Hbox. destruct d; simpl in *; lia.
Qed.

(** * The claims *)

(** ** Restart *)

(** C8. From any state, restart ([startGame]) sets the status to idle, the
    mine counter to the configured number of mines and the elapsed time to 0,
    and replaces the board by a fresh grid of [rows] rows of [cols] cells, each
    at its place with [isMine], [isRevealed] and [isFlagged] false and
    [neighborMines] 0: the board holds no mine, and is the board of status
    idle on which the next first reveal places the mines. *)
Theorem startGame_resets (s : State) :
  let config := DIFFICULTIES (difficulty s) in
  let s' := startGame s in
  status s' = idle ∧ mineCount s' = mines config ∧ timer s' = 0 ∧
  difficulty s' = difficulty s ∧
  grid s' = map (λ r, map (λ c, mkCell r c false false false 0) (seqZ 0 (cols config)))
                (seqZ 0 (rows config)) ∧
  shape (grid s') = replicate (Z.to_nat (rows config)) (Z.to_nat (cols config)) ∧
  Forall (Forall (λ x, isMine x = false ∧ isRevealed x = false ∧
                       isFlagged x = false ∧ neighborMines x = 0)) (grid s') ∧
  cellCount isMine (grid s') = 0 ∧
  idleBoard config (grid s').
Proof.
  intros config s'. subst s'. simpl.
  repeat split; try done.
  - apply initGrid_map.
  - apply initGrid_hasDims.
  - rewrite initGrid_map. apply list.Forall_forall. intros rw Hrw.
    apply list_elem_of_fmap in Hrw as (r & -> & _).
    apply list.Forall_forall. intros x Hx.
    apply list_elem_of_fmap in Hx as (c & -> & _). done.
  - apply (idleBoard_no_mines config), initGrid_idleBoard.
  - apply initGrid_idleBoard.
Qed.

(** ** Mine placement *)

(** C1. On the board of status idle (a fresh grid of the configured size, on
    which flags may be set), for every anchor: whenever [placeMines] returns,
    exactly [mines] cells of the result hold a mine and none of them lies in
    the 3x3 block centred on the anchor; it does return when the random
    source draws at least [mines] distinct cells of the board outside that
    block, as does the source that draws every cell once. *)
Theorem placeMines_count_and_box (d : Difficulty) (g : Grid) (firstRow firstCol : Z)
    (random : list (Z * Z)) :
  idleBoard (DIFFICULTIES d) g →
  (∀ g', placeMines d g firstRow firstCol random = Ok g' →
         cellCount isMine g' = mines (DIFFICULTIES d) ∧
         ∀ r c, inBox firstRow firstCol r c → mineAt g' r c = false) ∧
  (enoughDraws (DIFFICULTIES d) firstRow firstCol random = true →
   ∃ g', placeMines d g firstRow firstCol random = Ok g') ∧
  (∃ g', placeMines d g firstRow firstCol (allCells (DIFFICULTIES d)) = Ok g').
Proof.
  intros Hidle.
  assert (Htotal : ∀ source, enoughDraws (DIFFICULTIES d) firstRow firstCol source = true →
            ∃ g', placeMines d g firstRow firstCol source = Ok g').
  { intros source Hen. apply placeMines_total; [by apply idleBoard_hasDims | | done].
    intros r c. by eapply idleBoard_mineAt. }
  split; [|split].
  - intros g' Hrun.
    destruct (placeMines_idle _ _ _ _ _ _ Hidle Hrun) as ((_ & Hcount & _) & Hbox & _).
    done.
  - apply Htotal.
  - apply Htotal, allCells_enough.
Qed.

Lemma placeMines_count_and_box_witness :
  ∃ g', placeMines Beginner (initGrid (DIFFICULTIES Beginner)) 0 0 bottomDraws = Ok g' ∧
        cellCount isMine g' = 10 ∧ mineAt g' 1 1 = false.
Proof.
  destruct (placeMines_count_and_box Beginner (initGrid (DIFFICULTIES Beginner)) 0 0
              bottomDraws) as (Hsound & Htotal & _); [reflexivity|].
  destruct Htotal as [g' Hg']; [reflexivity|].
  exists g'. split; [exact Hg'|].
  destruct (Hsound g' Hg') as [Hcount Hbox].
  split; [exact Hcount|]. apply Hbox. unfold inBox. simpl. lia.
Defined.

(** C2. After [placeMines] returns on a board of the configured size, the
    field [neighborMines] of every cell without a mine is the number of mines
    among its Moore neighbours, the neighbours off the board counting for
    none. *)
Theorem placeMines_neighborMines (d : Difficulty) (g g' : Grid) (firstRow firstCol : Z)
    (random : list (Z * Z)) (r c : Z) (x : Cell) :
  hasDims (DIFFICULTIES d) g →
  placeMines d g firstRow firstCol random = Ok g' →
  cellAt g' r c = Some x → isMine x = false →
  neighborMines x = mineNeighbors g' r c.
Proof.
  intros Hdims Hrun.
  destruct (placeMines_sound _ _ _ _ _ _ Hdims Hrun) as (_ & _ & _ & Hcons).
  apply Hcons.
Qed.

Lemma placeMines_neighborMines_witness :
  neighborMines (mkCell 7 8 false false false 3) = mineNeighbors bottomBoard 7 8.
Proof.
  apply (placeMines_neighborMines Beginner (initGrid (DIFFICULTIES Beginner))
           bottomBoard 0 0 bottomDraws 7 8).
  - vm_compute. reflexivity.
  - vm_compute. reflexivity.
  - vm_compute. reflexivity.
  - reflexivity.
Defined.

(** ** The win check *)

(** [reveal] sets no status but lost. *)
Lemma reveal_status fuel : ∀ p row col p',
  reveal fuel p row col = Ok p' →
  nextStatus p' = nextStatus p ∨ nextStatus p' = lost.
Proof.
  induction fuel as [|fuel IH]; intros p row col p' Hrun; [done|].
  rewrite reveal_unfold in Hrun.
  destruct (cellAt (newGrid p) row col) as [cell|].
  - destruct (_ || (col >=? rowLength0 (newGrid p))); [injection Hrun as <-; by left|].
    destruct (isRevealed cell || isFlagged cell); [injection Hrun as <-; by left|].
    destruct (isMine cell).
    { injection Hrun as <-. right. unfold disclose. simpl. apply nextStatus_stopTimer. }
    destruct (neighborMines cell =? 0); [|injection Hrun as <-; by left].
    apply (forEach_inv (λ q, nextStatus q = nextStatus p ∨ nextStatus q = lost))
      in Hrun; [done| |by left].
    intros q n q' _ Hq Hstep. apply IH in Hstep as [Hs | Hs]; rewrite Hs; [done|by right].
  - destruct (_ || (col >=? rowLength0 (newGrid p))); [|done].
    injection Hrun as <-. by left.
Qed.

(** C5. When a reveal has settled without a loss, [revealCell] ends in status
    won exactly when the number of cells with [isRevealed] false equals the
    configured number of mines, and keeps the status otherwise; the check
    leaves the board as the reveal made it. *)
Theorem revealCell_win_by_count (s : State) (random : list (Z * Z)) (r c : Z)
    (x : Cell) (p : Pending) :
  status s ≠ won → status s ≠ lost →
  cellAt (grid s) r c = Some x → isRevealed x = false → isFlagged x = false →
  revealPhase s random r c = Ok p →
  nextStatus p ≠ lost →
  ∃ s', revealCell s random r c = Ok s' ∧
        grid s' = newGrid p ∧
        (status s' = won ↔
           cellCount (λ cell, negb (isRevealed cell)) (newGrid p)
           = mines (DIFFICULTIES (difficulty s))) ∧
        (status s' ≠ won → status s' = nextStatus p ∧ status s' = playing) ∧
        mineCount s' = mineCount s ∧ difficulty s' = difficulty s.
Proof.
  intros Hw Hl Hx Hhid Hflag Hp Hnl.
  rewrite (revealCell_enter _ _ _ _ _ Hw Hl Hx Hhid Hflag), Hp. simpl.
  eexists. split; [done|]. simpl.
  rewrite newGrid_winCheck, nextStatus_winCheck by done.
  assert (Hplay : nextStatus p = playing).
  { unfold revealPhase in Hp. apply bindRes_Ok in Hp as (gp & _ & Hp).
    apply reveal_status in Hp as [Hp|Hp]; [|done]. rewrite Hp. simpl.
    case_decide as Hidle; simpl; [by rewrite startTimer_status|].
    destruct (status s); done. }
  split; [done|]. split; [|split; [|done]].
  - destruct (decide (cellCount _ _ = _)) as [Heq|Hne]; [done|].
    split; [congruence | done].
  - intros Hnw. destruct (decide (cellCount _ _ = _)); done.
Qed.

Lemma revealCell_win_by_count_witness :
  ∃ s', revealCell oneCellLeft [] 7 8 = Ok s' ∧
        grid s' = newGrid (pendingResult (revealPhase oneCellLeft [] 7 8) oneCellLeft) ∧
        (status s' = won ↔
           cellCount (λ cell, negb (isRevealed cell))
             (newGrid (pendingResult (revealPhase oneCellLeft [] 7 8) oneCellLeft))
           = mines (DIFFICULTIES (difficulty oneCellLeft))) ∧
        (status s' ≠ won →
           status s' = nextStatus (pendingResult (revealPhase oneCellLeft [] 7 8) oneCellLeft) ∧
           status s' = playing) ∧
        mineCount s' = mineCount oneCellLeft ∧ difficulty s' = difficulty oneCellLeft.
Proof.
  apply (revealCell_win_by_count oneCellLeft [] 7 8 (mkCell 7 8 false false false 3)).
  - vm_compute. discriminate.
  - vm_compute. discriminate.
  - vm_compute. reflexivity.
  - reflexivity.
  - reflexivity.
  - vm_compute. reflexivity.
  - vm_compute. discriminate.
Defined.

(** ** The first reveal *)

Lemma inBox_self r c : inBox r c r c.
Proof. unfold inBox. lia. Qed.

Lemma inBox_adjacent r c r' c' : inBox r c r' c' ↔ adjacent (r, c) (r', c').
Proof. done. Qed.

(** The anchor of a placed board has no mine and count zero. *)
Lemma anchor_spreads g r c :
  consistent g → (∀ r' c', inBox r c r' c' → mineAt g r' c' = false) →
  is_Some (cellAt g r c) → spreads g (r, c).
Proof.
  intros Hcons Hbox [a Ha]. exists a. simpl. split; [done|].
  assert (Hm : isMine a = false).
  { specialize (Hbox r c (inBox_self r c)). unfold mineAt in Hbox. by rewrite Ha in Hbox. }
  split; [done|]. rewrite (Hcons r c a Ha Hm).
  unfold mineNeighbors, moore. simpl.
  rewrite !Hbox; [done|..]; unfold inBox; lia.
Qed.

(** What the first reveal does, from its two steps. *)
Lemma first_reveal_phase s random r c x p :
  status s = idle → idleBoard (DIFFICULTIES (difficulty s)) (grid s) →
  cellAt (grid s) r c = Some x → isFlagged x = false →
  revealPhase s random r c = Ok p →
  ∃ gp, placeMines (difficulty s) (grid s) r c random = Ok gp ∧
        placedBoard (DIFFICULTIES (difficulty s)) gp ∧
        (∀ r' c', inBox r c r' c' → mineAt gp r' c' = false) ∧
        spreads gp (r, c) ∧
        gridExt gp (newGrid p) ∧
        nextStatus p = playing ∧
        (∀ y, revealedAt (newGrid p) y.1 y.2 = true ↔ cascade gp (r, c) y) ∧
        (∀ y, enterable gp y ↔ is_Some (cellAt (grid s) y.1 y.2) ∧
                                flaggedAt (grid s) y.1 y.2 = false).
Proof.
  intros Hidle Hboard Hx Hflag Hp.
  unfold revealPhase in Hp. rewrite decide_True in Hp by done.
  apply bindRes_Ok in Hp as (gp & Hgp & Hp). rewrite decide_True in Hp by done.
  destruct (placeMines_idle _ _ _ _ _ _ Hboard Hgp) as (Hplaced & Hbox & Hsame).
  pose proof Hplaced as (Hdims & _ & Hcons).
  set (p1 := withGrid gp (startTimer (setStatus playing (pendingOf s)))) in *.
  assert (Hg1 : newGrid p1 = gp) by done.
  apply reveal_Reveal in Hp; [|rewrite Hg1; by eapply hasDims_rect].
  assert (Hcell : ∀ r' c' z, cellAt gp r' c' = Some z →
            ∃ z0, cellAt (grid s) r' c' = Some z0 ∧ isRevealed z = false ∧
                  isFlagged z = isFlagged z0).
  { intros r' c' z Hz.
    pose proof (sameModulo_cellAt _ _ _ r' c' Hsame) as Hc. rewrite Hz in Hc.
    destruct (cellAt (grid s) r' c') as [z0|] eqn:Hz0; simpl in Hc; [|done].
    assert (Hc2 : clearPlacement z0 = clearPlacement z) by congruence.
    clear Hc. rename Hc2 into Hc. exists z0. split; [done|].
    pose proof (idleBoard_cellAt _ _ _ _ _ Hboard Hz0) as Hz0'.
    apply (f_equal isRevealed) in Hc as H1. apply (f_equal isFlagged) in Hc as H2.
    simpl in H1, H2. rewrite Hz0' in H1. simpl in H1. done. }
  assert (Hhid : ∀ r' c', revealedAt gp r' c' = false).
  { intros r' c'. unfold revealedAt. destruct (cellAt gp r' c') as [z|] eqn:Hz; [|done].
    by destruct (Hcell _ _ _ Hz) as (_ & _ & ? & _). }
  assert (Hsp : spreads gp (r, c)).
  { apply anchor_spreads; try done.
    eapply shape_cellAt; [eapply sameModulo_shape, Hsame | eauto]. }
  destruct (Reveal_exact p1 r c p) as [(Hq & _) Hex]; try (rewrite Hg1); try done.
  { apply Hbox, inBox_self. }
  exists gp. split; [done|]. split; [done|]. split; [done|]. split; [done|].
  split; [rewrite <- Hg1; by eapply Reveal_gridExt|].
  split; [rewrite Hq; unfold p1; simpl; by rewrite startTimer_status|].
  split; intros y; split.
  - intros Hy. apply Hex in Hy as [Hy|Hy]; [|by rewrite Hg1 in Hy].
    rewrite Hg1, Hhid in Hy. done.
  - intros Hy. apply Hex. right. by rewrite Hg1.
  - intros (z & Hz & _ & Hf). destruct (Hcell _ _ _ Hz) as (z0 & Hz0 & _ & Hf0).
    split; [eauto|]. unfold flaggedAt. rewrite Hz0. congruence.
  - intros [[z0 Hz0] Hf].
    assert (Hin : is_Some (cellAt gp y.1 y.2)).
    { eapply shape_cellAt; [eapply sameModulo_shape, Hsame | eauto]. }
    destruct Hin as [z Hz]. exists z. split; [done|].
    destruct (Hcell _ _ _ Hz) as (z0' & Hz0' & Hr & Hf0).
    split; [done|]. unfold flaggedAt in Hf. rewrite Hz0' in Hf. congruence.
Qed.

(** With enough draws the first reveal returns. *)
Lemma first_reveal_returns s random r c x :
  status s = idle → idleBoard (DIFFICULTIES (difficulty s)) (grid s) →
  cellAt (grid s) r c = Some x → isFlagged x = false →
  enoughDraws (DIFFICULTIES (difficulty s)) r c random = true →
  ∃ p s', revealPhase s random r c = Ok p ∧ revealCell s random r c = Ok s' ∧
          s' = commit s (winCheck s p).
Proof.
  intros Hidle Hboard Hx Hflag Hen.
  destruct (placeMines_total (difficulty s) (grid s) r c random) as [gp Hgp]; try done.
  { by apply idleBoard_hasDims. }
  { intros r' c'. by eapply idleBoard_mineAt. }
  destruct (placeMines_idle _ _ _ _ _ _ Hboard Hgp) as (Hplaced & _).
  destruct (reveal_returns (withGrid gp (startTimer (setStatus playing (pendingOf s)))) r c)
    as (p & Hp & _); [by eapply placedBoard_rect|].
  exists p, (commit s (winCheck s p)).
  assert (Hphase : revealPhase s random r c = Ok p).
  { by rewrite (revealPhase_idle _ _ _ _ gp). }
  split; [done|]. split; [|done].
  rewrite (revealCell_enter _ _ _ _ x); try done; try congruence.
  - by rewrite Hphase.
  - by rewrite (idleBoard_cellAt _ _ _ _ _ Hboard Hx).
Qed.

(** C6. A first reveal, from status idle, on an unflagged cell. Before it the
    board holds no mine. Whenever [revealCell] returns, the mines are placed:
    the board holds exactly the [mines] of the difficulty, none of them in the
    3x3 block of the clicked cell, and they are those that [placeMines] has
    placed anchored at the clicked cell; this cell holds no mine and is
    revealed, and the status is playing or won, never lost. And [revealCell]
    does return when the random source draws enough cells. *)
Theorem first_reveal_never_loses (s : State) (random : list (Z * Z)) (r c : Z) (x : Cell) :
  status s = idle → idleBoard (DIFFICULTIES (difficulty s)) (grid s) →
  cellAt (grid s) r c = Some x → isFlagged x = false →
  cellCount isMine (grid s) = 0 ∧
  (∀ s', revealCell s random r c = Ok s' →
     (status s' = playing ∨ status s' = won) ∧ status s' ≠ lost ∧
     cellCount isMine (grid s') = mines (DIFFICULTIES (difficulty s)) ∧
     (∀ r' c', inBox r c r' c' → mineAt (grid s') r' c' = false) ∧
     ∃ gp, placeMines (difficulty s) (grid s) r c random = Ok gp ∧
           (∀ r' c', mineAt (grid s') r' c' = mineAt gp r' c') ∧
           mineAt (grid s') r c = false ∧
           revealedAt (grid s') r c = true) ∧
  (enoughDraws (DIFFICULTIES (difficulty s)) r c random = true →
   ∃ s', revealCell s random r c = Ok s').
Proof.
  intros Hidle Hboard Hx Hflag. split; [by eapply idleBoard_no_mines|]. split.
  - intros s' Hrun.
    rewrite (revealCell_enter _ _ _ _ x) in Hrun; try done; try congruence;
      [|by rewrite (idleBoard_cellAt _ _ _ _ _ Hboard Hx)].
    apply bindRes_Ok in Hrun as (p & Hp & Hrun). injection Hrun as <-.
    destruct (first_reveal_phase _ _ _ _ _ _ Hidle Hboard Hx Hflag Hp)
      as (gp & Hgp & Hplaced & Hbox & Hsp & Hext & Hst & Hrev & Hent).
    simpl. rewrite newGrid_winCheck, nextStatus_winCheck, Hst by congruence.
    split; [by destruct (decide _); [right | left]|].
    split; [by destruct (decide _)|].
    split.
    { destruct Hplaced as (_ & <- & _). symmetry.
      apply (sameModulo_cellCount (setRevealed false) isMine); [done|].
      by apply gridExt_sameModulo. }
    split.
    { intros r' c' Hin. rewrite <- (gridExt_mineAt gp (newGrid p)) by done.
      by apply Hbox. }
    exists gp. split; [done|]. split; [|split].
    + intros r' c'. symmetry. by apply gridExt_mineAt.
    + rewrite <- (gridExt_mineAt gp (newGrid p)) by done. apply Hbox, inBox_self.
    + apply (Hrev (r, c)). apply cascade_start, Hent. simpl.
      split; [eauto|]. unfold flaggedAt. by rewrite Hx.
  - intros Hen.
    destruct (first_reveal_returns _ _ _ _ _ Hidle Hboard Hx Hflag Hen)
      as (p & s' & _ & Hs' & _).
    eauto.
Qed.

Lemma first_reveal_never_loses_witness :
  cellCount isMine (grid mounted) = 0 ∧
  ∃ s', revealCell mounted bottomDraws 0 0 = Ok s' ∧
        (status s' = playing ∨ status s' = won) ∧ status s' ≠ lost ∧
        cellCount isMine (grid s') = mines (DIFFICULTIES (difficulty mounted)) ∧
        mineAt (grid s') 1 1 = false ∧
        mineAt (grid s') 0 0 = false ∧ revealedAt (grid s') 0 0 = true.
Proof.
  destruct (first_reveal_never_loses mounted bottomDraws 0 0
              (mkCell 0 0 false false false 0)) as (Hnone & Hsafe & Hret);
    [reflexivity | reflexivity | reflexivity | reflexivity |].
  split; [exact Hnone|].
  destruct Hret as [s' Hs']; [reflexivity|].
  exists s'. split; [exact Hs'|].
  destruct (Hsafe s' Hs') as (Hst & Hnl & Hcount & Hbox & gp & _ & _ & Hm & Hr).
  split; [exact Hst|]. split; [exact Hnl|]. split; [exact Hcount|].
  split; [apply Hbox; unfold inBox; lia|]. split; assumption.
Defined.

(** ** The block around the first click *)

(** C9 as stated fails: a neighbour flagged before the first click stays
    hidden. Here [(0, 1)] is flagged, then [(0, 0)] is clicked. *)
Lemma first_reveal_block_counterexample :
  ∃ s', run mounted flagThenClick = Ok s' ∧
        inBox 0 0 0 1 ∧ is_Some (cellAt (grid s') 0 1) ∧
        revealedAt (grid s') 0 1 = false.
Proof.
  eexists. split; [vm_compute; reflexivity|].
  split; [unfold inBox; lia|]. split; [by eexists | reflexivity].
Qed.

(** C9, amended. After [placeMines] anchored at the clicked cell, the count of
    that cell is 0 and it holds no mine; so a first reveal on an unflagged
    cell runs the cascade and reveals at least the cells of the 3x3 block
    around the click that are on the board and hold no flag; the cells that
    hold a flag stay hidden. *)
Theorem first_reveal_opens_block (s : State) (random : list (Z * Z)) (r c : Z) (x : Cell) :
  status s = idle → idleBoard (DIFFICULTIES (difficulty s)) (grid s) →
  cellAt (grid s) r c = Some x → isFlagged x = false →
  (∀ gp, placeMines (difficulty s) (grid s) r c random = Ok gp →
         ∃ a, cellAt gp r c = Some a ∧ isMine a = false ∧ neighborMines a = 0) ∧
  (∀ s', revealCell s random r c = Ok s' →
         ∀ r' c' z, inBox r c r' c' → cellAt (grid s) r' c' = Some z →
                    isFlagged z = false → revealedAt (grid s') r' c' = true) ∧
  (∀ s', revealCell s random r c = Ok s' →
         ∀ r' c' z, cellAt (grid s) r' c' = Some z →
                    isFlagged z = true → revealedAt (grid s') r' c' = false) ∧
  (enoughDraws (DIFFICULTIES (difficulty s)) r c random = true →
   ∃ s', revealCell s random r c = Ok s').
Proof.
  intros Hidle Hboard Hx Hflag. split; [|split; [|split]].
  - intros gp Hgp.
    destruct (placeMines_idle _ _ _ _ _ _ Hboard Hgp) as ((_ & _ & Hcons) & Hbox & Hsame).
    apply (anchor_spreads gp r c Hcons Hbox).
    eapply shape_cellAt; [eapply sameModulo_shape, Hsame | eauto].
  - intros s' Hrun r' c' z Hin Hz Hzf.
    rewrite (revealCell_enter _ _ _ _ x) in Hrun; try done; try congruence;
      [|by rewrite (idleBoard_cellAt _ _ _ _ _ Hboard Hx)].
    apply bindRes_Ok in Hrun as (p & Hp & Hrun). injection Hrun as <-.
    destruct (first_reveal_phase _ _ _ _ _ _ Hidle Hboard Hx Hflag Hp)
      as (gp & Hgp & Hplaced & Hbox & Hsp & Hext & Hst & Hrev & Hent).
    simpl. rewrite newGrid_winCheck. apply (Hrev (r', c')).
    eapply cascade_next; [apply cascade_start | exact Hsp | exact Hin |].
    + apply Hent. simpl. split; [eauto|]. unfold flaggedAt. by rewrite Hx.
    + apply Hent. simpl. split; [eauto|]. unfold flaggedAt. by rewrite Hz.
  - intros s' Hrun r' c' z Hz Hzf.
    rewrite (revealCell_enter _ _ _ _ x) in Hrun; try done; try congruence;
      [|by rewrite (idleBoard_cellAt _ _ _ _ _ Hboard Hx)].
    apply bindRes_Ok in Hrun as (p & Hp & Hrun). injection Hrun as <-.
    destruct (first_reveal_phase _ _ _ _ _ _ Hidle Hboard Hx Hflag Hp)
      as (gp & _ & _ & _ & _ & _ & _ & Hrev & Hent).
    simpl. rewrite newGrid_winCheck.
    destruct (revealedAt (newGrid p) r' c') eqn:Hshown; [|done].
    apply (Hrev (r', c')), cascade_enterable, Hent in Hshown as [_ Hshown].
    unfold flaggedAt in Hshown. simpl in Hshown. rewrite Hz in Hshown. congruence.
  - intros Hen.
    destruct (first_reveal_returns _ _ _ _ _ Hidle Hboard Hx Hflag Hen)
      as (p & s' & _ & Hs' & _).
    eauto.
Qed.

Lemma first_reveal_opens_block_witness :
  ∃ s', revealCell oneFlagIdle bottomDraws 0 0 = Ok s' ∧
        revealedAt (grid s') 1 1 = true ∧ revealedAt (grid s') 0 1 = false.
Proof.
  destruct (first_reveal_opens_block oneFlagIdle bottomDraws 0 0
              (mkCell 0 0 false false false 0)) as (_ & Hopen & Hshut & Hret);
    [vm_compute; reflexivity | vm_compute; reflexivity | vm_compute; reflexivity |
     reflexivity |].
  destruct Hret as [s' Hs']; [vm_compute; reflexivity|].
  exists s'. split; [exact Hs'|]. split.
  - apply (Hopen s' Hs' 1 1 (mkCell 1 1 false false false 0));
      [unfold inBox; lia | vm_compute; reflexivity | reflexivity].
  - apply (Hshut s' Hs' 0 1 (mkCell 0 1 false false true 0));
      [vm_compute; reflexivity | reflexivity].
Defined.

(** ** Reveals with the mines placed *)

Lemma playing_reveal s random r c x :
  status s = playing → placedBoard (DIFFICULTIES (difficulty s)) (grid s) →
  cellAt (grid s) r c = Some x → isRevealed x = false → isFlagged x = false →
  ∃ p, revealPhase s random r c = Ok p ∧
       revealCell s random r c = Ok (commit s (winCheck s p)) ∧
       Reveal (pendingOf s) r c p.
Proof.
  intros Hst Hplaced Hx Hhid Hflag.
  destruct (reveal_returns (pendingOf s) r c) as (p & Hp & Hrel);
    [by eapply placedBoard_rect|].
  assert (Hphase : revealPhase s random r c = Ok p).
  { rewrite revealPhase_placed by congruence. done. }
  exists p. split; [done|]. split; [|done].
  rewrite (revealCell_enter _ _ _ _ x) by (done || congruence).
  by rewrite Hphase.
Qed.




Lemma oneCellLeft_reachable : reachable oneCellLeft.
Proof.
  apply (reachable_dispatch mounted (DoReveal bottomDraws 0 0)).
  - apply reachable_mounted.
  - vm_compute. reflexivity.
Qed.


(** ** The cascade *)

(** C4 as stated fails: the region is cut at cells that are already revealed.
    In [twoHiddenZeros] the cells [(4, 4)], [(4, 5)] and [(4, 6)] have count
    zero and no flag, so [(4, 6)] is in the connected zero region of [(4, 4)];
    [(4, 5)] is revealed; revealing [(4, 4)] leaves [(4, 6)] hidden. *)
Lemma cascade_cut_counterexample :
  ∃ s', run mounted flagsAroundClick = Ok twoHiddenZeros ∧
        status twoHiddenZeros = playing ∧
        cellAt (grid twoHiddenZeros) 4 4 = Some (mkCell 4 4 false false false 0) ∧
        zeroRegion (grid twoHiddenZeros) (4, 4) (4, 6) ∧
        flaggedAt (grid twoHiddenZeros) 4 6 = false ∧
        revealCell twoHiddenZeros [] 4 4 = Ok s' ∧
        revealedAt (grid s') 4 6 = false.
Proof.
  eexists. split; [vm_compute; reflexivity|].
  split; [vm_compute; reflexivity|]. split; [vm_compute; reflexivity|].
  split; [|split; [vm_compute; reflexivity|
           split; [vm_compute; reflexivity|vm_compute; reflexivity]]].
  apply (zeroRegion_next _ _ (4, 5)); [apply (zeroRegion_next _ _ (4, 4)) | | |].
  - apply zeroRegion_start.
  - unfold adjacent. simpl. lia.
  - eexists. split; [vm_compute; reflexivity|]. by split.
  - vm_compute. reflexivity.
  - unfold adjacent. simpl. lia.
  - eexists. split; [vm_compute; reflexivity|]. by split.
  - vm_compute. reflexivity.
Qed.

(** C4, amended. With the mines placed, revealing a hidden, unflagged cell
    that holds no mine and has count zero returns and reveals exactly the
    cells of its cascade: those reached from it by steps from a cell of count
    zero to a neighbour, every cell on the way being on the board, hidden
    before the reveal and unflagged. The region of zeros is thus cut at flags
    and at cells already revealed; a numbered cell that is reached is revealed
    and the cascade does not go on from it. Nothing else changes on the board. *)
Theorem cascade_reveals_exactly (s : State) (random : list (Z * Z)) (r c : Z) (x : Cell) :
  status s = playing → placedBoard (DIFFICULTIES (difficulty s)) (grid s) →
  cellAt (grid s) r c = Some x → isRevealed x = false → isFlagged x = false →
  isMine x = false → neighborMines x = 0 →
  ∃ s', revealCell s random r c = Ok s' ∧
        sameModulo (setRevealed false) (grid s) (grid s') ∧
        (∀ y, revealedAt (grid s') y.1 y.2 = true ↔
              revealedAt (grid s) y.1 y.2 = true ∨ cascade (grid s) (r, c) y) ∧
        (∀ y, cascade (grid s) (r, c) y →
              y = (r, c) ∨ ∃ b, cascade (grid s) (r, c) b ∧ spreads (grid s) b ∧
                                adjacent b y).
Proof.
  intros Hst Hplaced Hx Hhid Hflag Hmine Hzero.
  pose proof Hplaced as (_ & _ & Hcons).
  destruct (playing_reveal _ random _ _ _ Hst Hplaced Hx Hhid Hflag)
    as (p & _ & Hrun & Hrel).
  assert (Hstart : mineAt (newGrid (pendingOf s)) r c = false).
  { unfold mineAt. simpl. by rewrite Hx. }
  destruct (Reveal_exact (pendingOf s) _ _ _ Hcons Hstart Hrel) as [_ Hex].
  eexists. split; [exact Hrun|]. simpl. rewrite newGrid_winCheck.
  split; [|split].
  - apply gridExt_sameModulo. by apply (Reveal_gridExt _ _ _ _ Hrel).
  - exact Hex.
  - intros y Hy. destruct Hy as [_|b y Hab Hb Hby _]; [by left|].
    right. eauto.
Qed.

Lemma cascade_reveals_exactly_witness :
  ∃ s', revealCell tenLeftState [] 5 0 = Ok s' ∧
        revealedAt (grid s') 8 0 = true ∧
        cellAt (grid tenLeftState) 1 1 = Some (mkCell 1 1 false false false 4) ∧
        revealedAt (grid s') 1 1 = true ∧
        cellAt (grid tenLeftState) 0 1 = Some (mkCell 0 1 false false false 3) ∧
        revealedAt (grid s') 0 1 = false.
Proof.
  destruct (cascade_reveals_exactly tenLeftState [] 5 0 (mkCell 5 0 false false false 0))
    as (s' & Hs' & _ & Hex & Hstep).
  - vm_compute. reflexivity.
  - split; [vm_compute; reflexivity|]. split; [vm_compute; reflexivity|].
    apply (consistentb_sound (DIFFICULTIES Beginner)); vm_compute; reflexivity.
  - vm_compute. reflexivity.
  - reflexivity.
  - reflexivity.
  - reflexivity.
  - reflexivity.
  - assert (Hcell : ∀ a x, cellAt (grid tenLeftState) a.1 a.2 = Some x →
                           isRevealed x = false → isFlagged x = false →
                           enterable (grid tenLeftState) a) by (intros a x; exists x; auto).
    assert (Hzero : ∀ a x, cellAt (grid tenLeftState) a.1 a.2 = Some x →
                           isMine x = false → neighborMines x = 0 →
                           spreads (grid tenLeftState) a) by (intros a x; exists x; auto).
    assert (Hnext : ∀ b y x z, cascade (grid tenLeftState) (5, 0) b →
              adjacent b y →
              cellAt (grid tenLeftState) b.1 b.2 = Some x →
              isMine x = false → neighborMines x = 0 →
              cellAt (grid tenLeftState) y.1 y.2 = Some z →
              isRevealed z = false → isFlagged z = false →
              cascade (grid tenLeftState) (5, 0) y).
    { intros b y x z Hb Hadj Hx Hm Hn Hz Hr Hf.
      apply (cascade_next _ _ b y Hb); [by eapply Hzero|done|by eapply Hcell]. }
    assert (H50 : cascade (grid tenLeftState) (5, 0) (5, 0)).
    { apply cascade_start.
      apply (Hcell (5, 0) (mkCell 5 0 false false false 0)); [vm_compute|..]; reflexivity. }
    assert (H60 : cascade (grid tenLeftState) (5, 0) (6, 0)).
    { apply (Hnext (5, 0) (6, 0) (mkCell 5 0 false false false 0)
               (mkCell 6 0 false false false 0) H50);
        [unfold adjacent; cbn; lia|vm_compute; reflexivity|reflexivity|reflexivity|
         vm_compute; reflexivity|reflexivity|reflexivity]. }
    assert (H70 : cascade (grid tenLeftState) (5, 0) (7, 0)).
    { apply (Hnext (6, 0) (7, 0) (mkCell 6 0 false false false 0)
               (mkCell 7 0 false false false 0) H60);
        [unfold adjacent; cbn; lia|vm_compute; reflexivity|reflexivity|reflexivity|
         vm_compute; reflexivity|reflexivity|reflexivity]. }
    assert (H80 : cascade (grid tenLeftState) (5, 0) (8, 0)).
    { apply (Hnext (7, 0) (8, 0) (mkCell 7 0 false false false 0)
               (mkCell 8 0 false false false 0) H70);
        [unfold adjacent; cbn; lia|vm_compute; reflexivity|reflexivity|reflexivity|
         vm_compute; reflexivity|reflexivity|reflexivity]. }
    assert (H40 : cascade (grid tenLeftState) (5, 0) (4, 0)).
    { apply (Hnext (5, 0) (4, 0) (mkCell 5 0 false false false 0)
               (mkCell 4 0 false false false 0) H50);
        [unfold adjacent; cbn; lia|vm_compute; reflexivity|reflexivity|reflexivity|
         vm_compute; reflexivity|reflexivity|reflexivity]. }
    assert (H30 : cascade (grid tenLeftState) (5, 0) (3, 0)).
    { apply (Hnext (4, 0) (3, 0) (mkCell 4 0 false false false 0)
               (mkCell 3 0 false false false 0) H40);
        [unfold adjacent; cbn; lia|vm_compute; reflexivity|reflexivity|reflexivity|
         vm_compute; reflexivity|reflexivity|reflexivity]. }
    assert (H20 : cascade (grid tenLeftState) (5, 0) (2, 0)).
    { apply (Hnext (3, 0) (2, 0) (mkCell 3 0 false false false 0)
               (mkCell 2 0 false false false 0) H30);
        [unfold adjacent; cbn; lia|vm_compute; reflexivity|reflexivity|reflexivity|
         vm_compute; reflexivity|reflexivity|reflexivity]. }
    assert (H11 : cascade (grid tenLeftState) (5, 0) (1, 1)).
    { apply (Hnext (2, 0) (1, 1) (mkCell 2 0 false false false 0)
               (mkCell 1 1 false false false 4) H20);
        [unfold adjacent; cbn; lia|vm_compute; reflexivity|reflexivity|reflexivity|
         vm_compute; reflexivity|reflexivity|reflexivity]. }
    exists s'. split; [exact Hs'|].
    split; [apply (Hex (8, 0)); by right|].
    split; [vm_compute; reflexivity|].
    split; [apply (Hex (1, 1)); by right|].
    split; [vm_compute; reflexivity|].
    destruct (revealedAt (grid s') 0 1) eqn:Hshown; [exfalso|reflexivity].
    apply (Hex (0, 1)) in Hshown as [Hold|Hcas].
    { vm_compute in Hold. discriminate Hold. }
    apply Hstep in Hcas as [Heq|([b1 b2] & _ & (z & Hz & Hm & Hn) & Hadj)];
      [discriminate Heq|].
    unfold adjacent in Hadj. cbn [fst snd] in Hadj, Hz.
    assert (Hb1 : b1 = -1 ∨ b1 = 0 ∨ b1 = 1) by lia.
    assert (Hb2 : b2 = 0 ∨ b2 = 1 ∨ b2 = 2) by lia.
    clear Hadj Hex Hstep Hnext.
    destruct Hb1 as [-> | [-> | ->]], Hb2 as [-> | [-> | ->]];
      vm_compute in Hz;
      first [discriminate Hz
            | injection Hz as <-; first [discriminate Hm | discriminate Hn]].
Defined.

(** ** A click on a mine *)

(** What [revealCell] does on a hidden, unflagged mine: every mine is
    revealed and [reveal] sets the status lost, but the check that follows
    tests the status of the render and sets won when the count matches. *)
Lemma revealCell_mine s random r c x :
  status s = playing → rect (grid s) →
  cellAt (grid s) r c = Some x → isRevealed x = false → isFlagged x = false →
  isMine x = true →
  ∃ p, revealPhase s random r c = Ok p ∧ nextStatus p = lost ∧
       newGrid p = revealMines (updCell (grid s) r c (setRevealed true)) ∧
       (∀ r' c', mineAt (grid s) r' c' = true → revealedAt (newGrid p) r' c' = true) ∧
       revealCell s random r c = Ok (commit s (winCheck s p)) ∧
       status (commit s (winCheck s p))
       = if decide (cellCount (λ cell, negb (isRevealed cell)) (newGrid p)
                    = mines (DIFFICULTIES (difficulty s)))
         then won else lost.
Proof.
  intros Hst Hrect Hx Hhid Hflag Hmine.
  assert (Hphase : revealPhase s random r c = Ok (disclose (markRevealed (pendingOf s) r c))).
  { rewrite revealPhase_placed by congruence. unfold revealFuel.
    rewrite reveal_unfold. simpl. rewrite Hx, Hhid, Hflag, Hmine. simpl.
    destruct (_ || (c >=? rowLength0 (grid s))) eqn:Hb; [|done].
    apply (rect_bounds _ _ _ Hrect) in Hb. congruence. }
  eexists. split; [exact Hphase|].
  assert (Hlost : nextStatus (disclose (markRevealed (pendingOf s) r c)) = lost).
  { unfold disclose. simpl. apply nextStatus_stopTimer. }
  split; [done|]. split; [by rewrite newGrid_disclose|]. split; [|split].
  - intros r' c' Hm. rewrite newGrid_disclose, revealedAt_revealMines. simpl.
    rewrite <- (gridExt_mineAt (grid s)) by apply gridExt_updCell. by rewrite Hm.
  - rewrite (revealCell_enter _ _ _ _ x) by (done || congruence). by rewrite Hphase.
  - simpl. rewrite nextStatus_winCheck by congruence. by rewrite Hlost.
Qed.

(** C3, on the code: in the game [tenLeft] the click on the mine [(0, 2)]
    reveals every mine and [reveal] sets the status lost, yet ten cells stay
    hidden, as many as there are mines, and [revealCell] ends in status won. *)
Theorem loss_overwritten_by_win :
  run mounted tenLeft = Ok tenLeftState ∧
  status tenLeftState = playing ∧
  cellAt (grid tenLeftState) 0 2 = Some (mkCell 0 2 true false false 0) ∧
  ∃ p s', revealPhase tenLeftState [] 0 2 = Ok p ∧ nextStatus p = lost ∧
          cellCount (λ cell, isMine cell && negb (isRevealed cell)) (newGrid p) = 0 ∧
          cellCount (λ cell, negb (isRevealed cell)) (newGrid p) = 10 ∧
          revealCell tenLeftState [] 0 2 = Ok s' ∧
          grid s' = newGrid p ∧ status s' = won.
Proof.
  split; [vm_compute; reflexivity|]. split; [vm_compute; reflexivity|].
  split; [vm_compute; reflexivity|].
  assert (Hrect : rect (grid tenLeftState)).
  { apply (hasDims_rect (DIFFICULTIES Beginner)). vm_compute. reflexivity. }
  assert (Hcell : cellAt (grid tenLeftState) 0 2 = Some (mkCell 0 2 true false false 0)).
  { vm_compute. reflexivity. }
  assert (Hplay : status tenLeftState = playing) by (vm_compute; reflexivity).
  destruct (revealCell_mine tenLeftState [] 0 2 _ Hplay Hrect Hcell eq_refl eq_refl eq_refl)
    as (p & Hp & Hlost & Hgrid & _ & Hrun & Hst).
  exists p. eexists. split; [exact Hp|]. split; [exact Hlost|].
  split; [rewrite Hgrid; vm_compute; reflexivity|].
  split; [rewrite Hgrid; vm_compute; reflexivity|].
  split; [exact Hrun|]. split; [exact (newGrid_winCheck _ _)|].
  rewrite Hst, Hgrid. vm_compute. reflexivity.
Qed.

(** ** Flags *)










(** * Further properties of the handlers *)

(** ** The steps of revealCell *)

(** A call of [revealCell] that returns did nothing, or ran the reveal. *)
Lemma revealCell_cases s random r c s' :
  revealCell s random r c = Ok s' →
  (s' = s ∧ (status s = won ∨ status s = lost ∨
             ∃ x, cellAt (grid s) r c = Some x ∧ isRevealed x || isFlagged x = true)) ∨
  (∃ x p, status s ≠ won ∧ status s ≠ lost ∧
          cellAt (grid s) r c = Some x ∧ isRevealed x = false ∧ isFlagged x = false ∧
          revealPhase s random r c = Ok p ∧ s' = commit s (winCheck s p)).
Proof.
  intros Hrun. unfold revealCell in Hrun.
  case_decide as Hw; [injection Hrun as <-; left; auto|].
  case_decide as Hl; [injection Hrun as <-; left; auto|].
  apply bindRes_Ok in Hrun as (cell & Hcell & Hrun).
  unfold getCell in Hcell. destruct (cellAt (grid s) r c) as [x|] eqn:Hx; [|done].
  injection Hcell as ->.
  destruct (isRevealed cell || isFlagged cell) eqn:Hskip.
  - injection Hrun as <-. left. split; [done|]. right. right. eauto.
  - apply orb_false_iff in Hskip as [Hhid Hflag].
    apply bindRes_Ok in Hrun as (p & Hp & Hrun). injection Hrun as <-.
    right. exists cell, p. done.
Qed.

(** The reveal runs on a board with its mines: the board of the state, or the
    one that [placeMines] makes of it at the first reveal. *)
Lemma revealPhase_start s random r c p :
  invariant s → status s ≠ won → status s ≠ lost →
  revealPhase s random r c = Ok p →
  ∃ p0, placedBoard (DIFFICULTIES (difficulty s)) (newGrid p0) ∧
        Reveal p0 r c p ∧
        ((status s = idle ∧
          placeMines (difficulty s) (grid s) r c random = Ok (newGrid p0) ∧
          sameModulo clearPlacement (grid s) (newGrid p0) ∧
          p0 = withGrid (newGrid p0) (startTimer (setStatus playing (pendingOf s)))) ∨
         (status s = playing ∧ p0 = pendingOf s)).
Proof.
  intros Hinv Hw Hl Hp. unfold invariant in Hinv. case_decide as Hidle.
  - unfold revealPhase in Hp. rewrite decide_True in Hp by done.
    apply bindRes_Ok in Hp as (gp & Hgp & Hp). rewrite decide_True in Hp by done.
    destruct (placeMines_idle _ _ _ _ _ _ Hinv Hgp) as (Hplaced & _ & Hsame).
    apply reveal_Reveal in Hp; [|by eapply placedBoard_rect].
    exists (withGrid gp (startTimer (setStatus playing (pendingOf s)))).
    split; [exact Hplaced|]. split; [exact Hp|]. left. done.
  - rewrite revealPhase_placed in Hp by done.
    apply reveal_Reveal in Hp; [|by eapply placedBoard_rect].
    exists (pendingOf s). split; [done|]. split; [done|]. right.
    split; [by destruct (status s)|done].
Qed.

(** On a board with exact counts a call of [reveal] on a hidden, unflagged
    cell either hits a mine, and discloses the mines, or meets none. *)
Lemma Reveal_outcome p0 r c p x :
  consistent (newGrid p0) → Reveal p0 r c p →
  cellAt (newGrid p0) r c = Some x → isRevealed x = false → isFlagged x = false →
  (isMine x = true ∧ p = disclose (markRevealed p0 r c)) ∨
  (isMine x = false ∧ quiet p0 p ∧
   ∀ y, revealedAt (newGrid p) y.1 y.2 = true ↔
        revealedAt (newGrid p0) y.1 y.2 = true ∨ cascade (newGrid p0) (r, c) y).
Proof.
  intros Hcons Hrev Hx Hhid Hflag. destruct (isMine x) eqn:Hmine.
  - left. split; [done|].
    inversion Hrev; subst; try congruence.
    all: assert (cell = x) as -> by congruence.
    all: first [congruence | rewrite Hhid, Hflag in *; done].
  - right. split; [done|]. apply Reveal_exact; [done| |done].
    unfold mineAt. by rewrite Hx.
Qed.

(** [reveal] leaves the timer alone or, at a loss, stops it. *)
Lemma reveal_timer fuel : ∀ p row col p',
  (pTicking p = true → pTimerRef p = true) →
  reveal fuel p row col = Ok p' →
  quiet p p' ∨ (nextStatus p' = lost ∧ pTimerRef p' = false ∧ pTicking p' = false).
Proof.
  induction fuel as [|fuel IH]; intros p row col p' Hclock Hrun; [done|].
  rewrite reveal_unfold in Hrun.
  destruct (cellAt (newGrid p) row col) as [cell|].
  - destruct (_ || (col >=? rowLength0 (newGrid p))); [injection Hrun as <-; by left|].
    destruct (isRevealed cell || isFlagged cell); [injection Hrun as <-; by left|].
    destruct (isMine cell).
    { injection Hrun as <-. right. unfold disclose, stopTimer, markRevealed. simpl.
      destruct (pTimerRef p) eqn:Href; simpl; [done|].
      rewrite Href. split; [done|]. split; [done|].
      destruct (pTicking p); [|done]. by specialize (Hclock eq_refl). }
    destruct (neighborMines cell =? 0); [|injection Hrun as <-; by left].
    apply (forEach_inv (λ q, quiet p q ∨
             (nextStatus q = lost ∧ pTimerRef q = false ∧ pTicking q = false)))
      in Hrun; [done| |by left].
    intros q n q' _ Hq Hstep.
    assert (Hq' : pTicking q = true → pTimerRef q = true).
    { destruct Hq as [(_ & -> & ->)|(_ & _ & ->)]; done. }
    apply (IH _ _ _ _ Hq') in Hstep as [(Hs & Hr & Ht)|Hlost]; [|by right].
    destruct Hq as [(Hs0 & Hr0 & Ht0)|(Hs0 & Hr0 & Ht0)].
    + left. repeat split; congruence.
    + right. repeat split; congruence.
  - destruct (_ || (col >=? rowLength0 (newGrid p))); [|done].
    injection Hrun as <-. by left.
Qed.

(** ** What the handlers leave as it is *)

Lemma toggleFlag_cases s r c s' :
  toggleFlag s r c = Ok s' →
  s' = s ∨
  ∃ x, status s ≠ won ∧ status s ≠ lost ∧
       cellAt (grid s) r c = Some x ∧ isRevealed x = false ∧
       s' = {| difficulty := difficulty s;
               grid := updCell (grid s) r c (setFlagged (negb (isFlagged x)));
               status := status s;
               mineCount := if negb (isFlagged x) then mineCount s - 1 else mineCount s + 1;
               timer := timer s; timerRef := timerRef s; ticking := ticking s |}.
Proof.
  intros Hrun. unfold toggleFlag in Hrun.
  case_decide as Hw; [injection Hrun as <-; by left|].
  case_decide as Hl; [injection Hrun as <-; by left|].
  apply bindRes_Ok in Hrun as (cell & Hcell & Hrun).
  unfold getCell in Hcell. destruct (cellAt (grid s) r c) as [x|] eqn:Hx; [|done].
  injection Hcell as ->.
  destruct (isRevealed cell) eqn:Hhid; [injection Hrun as <-; by left|].
  injection Hrun as <-. right. exists cell. done.
Qed.

(** [revealCell] keeps the difficulty, the mine counter and the elapsed time,
    the place and the flag of every cell; once the mines are placed it only
    reveals cells. *)
Lemma revealCell_frame s random r c s' :
  invariant s → revealCell s random r c = Ok s' →
  difficulty s' = difficulty s ∧ mineCount s' = mineCount s ∧ timer s' = timer s ∧
  sameModulo clearPlay (grid s) (grid s') ∧
  (status s ≠ idle → gridExt (grid s) (grid s')).
Proof.
  intros Hinv Hrun.
  destruct (revealCell_cases _ _ _ _ _ Hrun)
    as [[-> _]|(x & p & Hw & Hl & Hx & Hhid & Hflag & Hp & ->)].
  { repeat split; try done. intros _. apply gridExt_refl. }
  destruct (revealPhase_start _ _ _ _ _ Hinv Hw Hl Hp)
    as (p0 & Hplaced & Hrev & Hstart).
  simpl. rewrite newGrid_winCheck.
  pose proof (Reveal_gridExt _ _ _ _ Hrev) as Hext.
  split; [done|]. split; [done|]. split; [done|]. split.
  - apply gridExt_sameModulo in Hext.
    apply (sameModulo_compose _ clearPlacement) in Hext.
    apply (sameModulo_ext _ clearPlay) in Hext; [|done].
    eapply sameModulo_trans; [|exact Hext].
    destruct Hstart as [(_ & _ & Hsame & _)|(_ & ->)]; [|apply sameModulo_refl].
    by apply (sameModulo_compose clearPlacement (setRevealed false)).
  - intros Hni. destruct Hstart as [(Hidle & _)|(_ & ->)]; [done|]. exact Hext.
Qed.

Lemma cellCount_flags_clearPlay g g' :
  sameModulo clearPlay g g' → cellCount isFlagged g = cellCount isFlagged g'.
Proof. by apply sameModulo_cellCount. Qed.

Lemma cellCount_initGrid p config :
  p (mkCell 0 0 false false false 0) = false →
  (∀ x y, isMine x = isMine y → isRevealed x = isRevealed y →
          isFlagged x = isFlagged y → p x = p y) →
  cellCount p (initGrid config) = 0.
Proof.
  intros Hp Hext. apply cellCount_none. intros r c x Hx.
  rewrite (idleBoard_cellAt _ _ _ _ _ (initGrid_idleBoard config) Hx).
  assert (Hf : isFlagged x = false).
  { pose proof (initGrid_idleBoard config) as Hidle.
    assert (Hin : is_Some (cellAt (initGrid config) r c)) by eauto.
    apply (hasDims_cellAt config) in Hin as [Hr Hc]; [|apply initGrid_hasDims].
    rewrite (initGrid_cellAt _ _ _ Hr Hc) in Hx. by injection Hx as <-. }
  rewrite Hf, <- Hp. by apply Hext.
Qed.

(** ** Induction on the states of the component *)

(** A property of the mounted component that [startGame], the handlers and
    the ticks keep holds of every state. *)
Lemma reachable_handlers (P : State → Prop) :
  P mounted →
  (∀ s d, reachable s → P s →
          P (startGame {| difficulty := d; grid := grid s; status := status s;
                          mineCount := mineCount s; timer := timer s;
                          timerRef := timerRef s; ticking := ticking s |})) →
  (∀ s random r c s', reachable s → P s → revealCell s random r c = Ok s' → P s') →
  (∀ s r c s', reachable s → P s → toggleFlag s r c = Ok s' → P s') →
  (∀ s, reachable s → P s → P (tick s)) →
  ∀ s, reachable s → P s.
Proof.
  intros Hmount Hstart Hreveal Hflag Htick. induction 1 as [|s i s' Hreach IH Hstep].
  - exact Hmount.
  - destruct i as [random r c|r c|d| |]; unfold dispatch in Hstep.
    + by eapply Hreveal.
    + by eapply Hflag.
    + injection Hstep as <-. unfold selectDifficulty.
      case_decide; [exact IH|by apply Hstart].
    + injection Hstep as <-.
      replace (startGame s)
        with (startGame {| difficulty := difficulty s; grid := grid s; status := status s;
                           mineCount := mineCount s; timer := timer s;
                           timerRef := timerRef s; ticking := ticking s |})
        by by destruct s.
      by apply Hstart.
    + injection Hstep as <-. by apply Htick.
Qed.

(** The same for a property that holds whenever [startGame] has just run. *)
Lemma reachable_steps (P : State → Prop) :
  (∀ s0, P (startGame s0)) →
  (∀ s random r c s', reachable s → P s → revealCell s random r c = Ok s' → P s') →
  (∀ s r c s', reachable s → P s → toggleFlag s r c = Ok s' → P s') →
  (∀ s, reachable s → P s → P (tick s)) →
  ∀ s, reachable s → P s.
Proof.
  intros Hstart. apply reachable_handlers.
  - apply (Hstart initialState).
  - intros s d _ _. apply Hstart.
Qed.

Lemma run_reachable intents : ∀ s s',
  reachable s → run s intents = Ok s' → reachable s'.
Proof.
  induction intents as [|i intents IH]; intros s s' Hs Hrun; unfold run in *;
    cbn [forEach] in Hrun.
  - by injection Hrun as <-.
  - apply bindRes_Ok in Hrun as (s1 & H1 & H2).
    eapply IH; [|exact H2]. by eapply reachable_dispatch.
Qed.

(** ** The mine counter *)

Lemma reachable_counter (s : State) :
  reachable s →
  mineCount s = mines (DIFFICULTIES (difficulty s)) - cellCount isFlagged (grid s).
Proof.
  revert s. apply reachable_steps.
  - intros s0. cbn [startGame mineCount difficulty grid].
    rewrite cellCount_initGrid; [lia|done|]. intros x y _ _ Hf. exact Hf.
  - intros s random r c s' Hreach IH Hstep.
    pose proof (reachable_invariant _ Hreach) as Hinv.
    destruct (revealCell_frame _ _ _ _ _ Hinv Hstep) as (-> & -> & _ & Hsame & _).
    by rewrite <- (cellCount_flags_clearPlay _ _ Hsame).
  - intros s r c s' _ IH Hstep.
    destruct (toggleFlag_cases _ _ _ _ Hstep) as [->|(x & _ & _ & Hx & _ & ->)]; [done|].
    cbn [mineCount difficulty grid]. rewrite (cellCount_updCell _ _ _ _ _ _ Hx).
    cbn [isFlagged setFlagged]. destruct (isFlagged x); simpl; lia.
  - intros s _ IH. exact IH.
Qed.

(** In every state of the component the counter on display is the number of
    mines of the difficulty less the number of flags on the board. *)
Theorem mineCount_is_mines_less_flags (s : State) :
  reachable s →
  mineCount s = mines (DIFFICULTIES (difficulty s)) - cellCount isFlagged (grid s).
Proof. apply reachable_counter. Qed.

Lemma tenFlags_reachable : reachable tenFlags.
Proof.
  apply (run_reachable
           (map (λ c, DoToggleFlag 0 c) (seqZ 0 9) ++ [DoToggleFlag 1 0]) mounted).
  - apply reachable_mounted.
  - vm_compute. reflexivity.
Qed.

Lemma mineCount_is_mines_less_flags_witness :
  mineCount tenFlags
  = mines (DIFFICULTIES (difficulty tenFlags)) - cellCount isFlagged (grid tenFlags).
Proof. apply (mineCount_is_mines_less_flags tenFlags), tenFlags_reachable. Defined.
(** ** The status and the board *)

(** What [reveal] leaves as the status of a game that is not over. *)
Lemma revealPhase_status s random r c p :
  status s ≠ won → status s ≠ lost → revealPhase s random r c = Ok p →
  nextStatus p = playing ∨ nextStatus p = lost.
Proof.
  intros Hw Hl Hp. unfold revealPhase in Hp.
  apply bindRes_Ok in Hp as (g & _ & Hp).
  apply reveal_status in Hp as [Hp|Hp]; [|by right]. left. rewrite Hp.
  case_decide as Hidle.
  - unfold withGrid. cbn [nextStatus]. by rewrite startTimer_status.
  - cbn [withGrid pendingOf nextStatus]. by destruct (status s).
Qed.

(** The status that [revealCell] commits when it has run the reveal. *)
Lemma status_commit s random r c p :
  status s ≠ won → status s ≠ lost → revealPhase s random r c = Ok p →
  let s' := commit s (winCheck s p) in
  grid s' = newGrid p ∧
  (status s' = won ↔
   cellCount (λ x, negb (isRevealed x)) (newGrid p) = mines (DIFFICULTIES (difficulty s))) ∧
  (status s' = won ∨ status s' = nextStatus p).
Proof.
  intros Hw Hl Hp. cbn [commit grid status].
  rewrite newGrid_winCheck, nextStatus_winCheck by done.
  split; [done|]. destruct (revealPhase_status _ _ _ _ _ Hw Hl Hp) as [Hs|Hs].
  all: destruct (decide (cellCount _ (newGrid p) = _)) as [Heq|Hne].
  all: split; [|auto]; split; intros H; congruence.
Qed.

Lemma reachable_won_iff (s : State) :
  reachable s → status s ≠ idle →
  (status s = won ↔
   cellCount (λ x, negb (isRevealed x)) (grid s) = mines (DIFFICULTIES (difficulty s))).
Proof.
  revert s. apply (reachable_steps (λ s, status s ≠ idle → (status s = won ↔
    cellCount (λ x, negb (isRevealed x)) (grid s) = mines (DIFFICULTIES (difficulty s))))).
  - intros s0 H. by cbn [startGame status] in H.
  - intros s random r c s' _ IH Hstep.
    destruct (revealCell_cases _ _ _ _ _ Hstep)
      as [[-> _]|(x & p & Hw & Hl & _ & _ & _ & Hp & ->)]; [done|].
    intros _. destruct (status_commit _ _ _ _ _ Hw Hl Hp) as (Hg & Hiff & _).
    rewrite Hg. exact Hiff.
  - intros s r c s' _ IH Hstep.
    destruct (toggleFlag_cases _ _ _ _ Hstep) as [->|(x & _ & _ & Hx & _ & ->)]; [done|].
    cbn [status difficulty grid]. rewrite (cellCount_updCell _ _ _ _ _ _ Hx).
    cbn [isRevealed setFlagged]. intros H. rewrite (IH H). lia.
  - intros s _ IH. exact IH.
Qed.

(** Once the mines are placed, the game is won exactly when as many cells
    are hidden as there are mines. *)
Theorem won_iff_hidden_count (s : State) :
  reachable s → status s ≠ idle →
  (status s = won ↔
   cellCount (λ x, negb (isRevealed x)) (grid s) = mines (DIFFICULTIES (difficulty s))).
Proof. apply reachable_won_iff. Qed.

Lemma wonGame_reachable : reachable wonGame.
Proof.
  apply (reachable_dispatch oneCellLeft (DoReveal [] 7 8)).
  - apply oneCellLeft_reachable.
  - vm_compute. reflexivity.
Qed.

Lemma won_iff_hidden_count_witness :
  status wonGame = won ↔
  cellCount (λ x, negb (isRevealed x)) (grid wonGame)
  = mines (DIFFICULTIES (difficulty wonGame)).
Proof.
  apply (won_iff_hidden_count wonGame).
  - apply wonGame_reachable.
  - vm_compute. discriminate.
Defined.

(** ** The mines on display *)

Lemma mineAt_updFlag g r c b r' c' :
  mineAt (updCell g r c (setFlagged b)) r' c' = mineAt g r' c'.
Proof.
  unfold mineAt. rewrite cellAt_updCell. case_decide as H; [|done].
  destruct H as [-> ->]. by destruct (cellAt g r c).
Qed.

Lemma revealedAt_updFlag g r c b r' c' :
  revealedAt (updCell g r c (setFlagged b)) r' c' = revealedAt g r' c'.
Proof.
  unfold revealedAt. rewrite cellAt_updCell. case_decide as H; [|done].
  destruct H as [-> ->]. by destruct (cellAt g r c).
Qed.

(** The board on which the reveal starts shows what the board of the state
    shows, and none of its mines. *)
Lemma start_hidden s random r c p0 x :
  invariant s → noMineShown (grid s) →
  cellAt (grid s) r c = Some x →
  (status s = idle ∧
   placeMines (difficulty s) (grid s) r c random = Ok (newGrid p0) ∧
   sameModulo clearPlacement (grid s) (newGrid p0) ∧
   p0 = withGrid (newGrid p0) (startTimer (setStatus playing (pendingOf s)))) ∨
  (status s = playing ∧ p0 = pendingOf s) →
  nextStatus p0 = playing ∧ noMineShown (newGrid p0) ∧
  ∃ x0, cellAt (newGrid p0) r c = Some x0 ∧
        isRevealed x0 = isRevealed x ∧ isFlagged x0 = isFlagged x.
Proof.
  intros Hinv Hshown Hx [(Hidle & _ & Hsame & Hp0)|(Hplay & ->)].
  - split; [|split].
    + rewrite Hp0. unfold withGrid. cbn [nextStatus]. by rewrite startTimer_status.
    + intros r' c' _.
      rewrite <- (sameModulo_revealedAt clearPlacement (grid s) _ r' c') by done.
      unfold invariant in Hinv. rewrite decide_True in Hinv by done.
      unfold revealedAt. destruct (cellAt (grid s) r' c') as [y|] eqn:Hy; [|done].
      by rewrite (idleBoard_cellAt _ _ _ _ _ Hinv Hy).
    + pose proof (sameModulo_cellAt _ _ _ r c Hsame) as Hc. rewrite Hx in Hc.
      destruct (cellAt (newGrid p0) r c) as [x0|]; [|done].
      exists x0. split; [done|].
      assert (Hc' : clearPlacement x0 = clearPlacement x) by (simpl in Hc; congruence).
      split; [exact (f_equal isRevealed Hc')|exact (f_equal isFlagged Hc')].
  - split; [done|]. split; [done|]. by exists x.
Qed.

Lemma reachable_shown (s : State) :
  reachable s →
  (status s = idle ∨ status s = playing → noMineShown (grid s)) ∧
  (status s = lost → allMinesShown (grid s)) ∧
  (status s = won → noMineShown (grid s) ∨ allMinesShown (grid s)).
Proof.
  revert s. apply (reachable_steps (λ s,
    (status s = idle ∨ status s = playing → noMineShown (grid s)) ∧
    (status s = lost → allMinesShown (grid s)) ∧
    (status s = won → noMineShown (grid s) ∨ allMinesShown (grid s)))).
  - intros s0. cbn [startGame status grid].
    split; [|split]; [|done|done]. intros _ r c Hm.
    rewrite (idleBoard_mineAt (DIFFICULTIES (difficulty s0))) in Hm; [done|].
    apply initGrid_idleBoard.
  - intros s random r c s' Hreach IH Hstep.
    destruct (revealCell_cases _ _ _ _ _ Hstep)
      as [[-> _]|(x & p & Hw & Hl & Hx & Hhid & Hflag & Hp & ->)]; [done|].
    pose proof (reachable_invariant _ Hreach) as Hinv.
    destruct IH as (Hgo & _ & _).
    assert (Hshown : noMineShown (grid s)).
    { apply Hgo. destruct (status s); auto; done. }
    destruct (revealPhase_start _ _ _ _ _ Hinv Hw Hl Hp) as (p0 & Hplaced & Hrev & Hstart).
    destruct (start_hidden _ _ _ _ _ _ Hinv Hshown Hx Hstart)
      as (Hs0 & Hshown0 & x0 & Hx0 & Hr0 & Hf0).
    destruct Hplaced as (_ & _ & Hcons).
    destruct (status_commit _ _ _ _ _ Hw Hl Hp) as (Hg & _ & Hst).
    rewrite Hg.
    destruct (Reveal_outcome _ _ _ _ _ Hcons Hrev Hx0) as [(Hmine & Hdis)|(Hmine & Hq & Hiff)];
      [congruence|congruence| |].
    + assert (Hall : allMinesShown (newGrid p)).
      { intros r' c' Hm. rewrite Hdis in *. unfold disclose in *. cbn [withGrid newGrid] in *.
        rewrite newGrid_stopTimer in *. cbn [setStatus newGrid] in *.
        rewrite revealedAt_revealMines.
        unfold mineAt in Hm. rewrite cellAt_revealMines in Hm.
        unfold mineAt. destruct (cellAt _ r' c') as [y|]; [|done].
        simpl in Hm. destruct (isMine y) eqn:Hy; [done|]. by rewrite Hy in Hm. }
      assert (Hlost : nextStatus p = lost).
      { rewrite Hdis. unfold disclose. cbn [withGrid nextStatus].
        by rewrite nextStatus_stopTimer. }
      rewrite Hlost in Hst.
      split; [|split]; [intros [H|H]; destruct Hst; congruence|done|auto].
    + assert (Hnone : noMineShown (newGrid p)).
      { intros r' c' Hm.
        destruct (revealedAt (newGrid p) r' c') eqn:Hrv; [|done].
        rewrite <- (gridExt_mineAt _ _ r' c' (Reveal_gridExt _ _ _ _ Hrev)) in Hm.
        apply (Hiff (r', c')) in Hrv as [Hold|Hcas].
        - cbn [fst snd] in Hold. by rewrite (Hshown0 _ _ Hm) in Hold.
        - apply cascade_no_mine in Hcas; [simpl in Hcas; congruence|done|].
          unfold mineAt. cbn [fst snd]. by rewrite Hx0. }
      destruct Hq as (Hq & _). rewrite Hq, Hs0 in Hst.
      split; [|split]; [done|intros H; destruct Hst; congruence|auto].
  - intros s r c s' _ IH Hstep.
    destruct (toggleFlag_cases _ _ _ _ Hstep) as [->|(x & _ & _ & Hx & _ & ->)]; [done|].
    cbn [status grid]. unfold noMineShown, allMinesShown in *.
    setoid_rewrite mineAt_updFlag. setoid_rewrite revealedAt_updFlag. exact IH.
  - intros s _ IH. exact IH.
Qed.

(** The mines stay hidden as long as the game goes on and are all on display
    once it is lost; a game that is won shows none of them, or all of them. *)
Theorem mines_shown_by_status (s : State) :
  reachable s →
  (status s = idle ∨ status s = playing → noMineShown (grid s)) ∧
  (status s = lost → allMinesShown (grid s)) ∧
  (status s = won → noMineShown (grid s) ∨ allMinesShown (grid s)).
Proof. apply reachable_shown. Qed.

Lemma mineFlaggedLost_reachable : reachable mineFlaggedLost.
Proof.
  apply (run_reachable [DoReveal bottomDraws 0 0; DoToggleFlag 8 1; DoReveal [] 8 0] mounted).
  - apply reachable_mounted.
  - vm_compute. reflexivity.
Qed.

Lemma mines_shown_by_status_witness :
  (status mineFlaggedLost = idle ∨ status mineFlaggedLost = playing →
   noMineShown (grid mineFlaggedLost)) ∧
  (status mineFlaggedLost = lost → allMinesShown (grid mineFlaggedLost)) ∧
  (status mineFlaggedLost = won →
   noMineShown (grid mineFlaggedLost) ∨ allMinesShown (grid mineFlaggedLost)).
Proof. apply (mines_shown_by_status mineFlaggedLost), mineFlaggedLost_reachable. Defined.
(** ** The clock *)

(** The timer fields when [reveal] is called, and when it has returned. *)
Lemma revealPhase_timer s random r c p :
  (ticking s = true → timerRef s = true) →
  (status s = playing → timerRef s = true) →
  status s ≠ won → status s ≠ lost →
  revealPhase s random r c = Ok p →
  (nextStatus p = playing ∧ pTimerRef p = true ∧
   pTicking p = (if decide (status s = idle) then negb (timerRef s) || ticking s
                 else ticking s)) ∨
  (nextStatus p = lost ∧ pTimerRef p = false ∧ pTicking p = false).
Proof.
  intros Hclock Hplay Hw Hl Hp. unfold revealPhase in Hp.
  apply bindRes_Ok in Hp as (g & _ & Hp).
  apply reveal_timer in Hp.
  - destruct Hp as [(-> & -> & ->)|Hlost]; [left|by right].
    case_decide as Hidle.
    + unfold startTimer, setStatus, pendingOf. cbn.
      destruct (timerRef s) eqn:Href; cbn; rewrite ?Href; done.
    + cbn. split; [by destruct (status s)|]. split; [|done].
      apply Hplay. by destruct (status s).
  - case_decide as Hidle; [|exact Hclock].
    unfold startTimer, setStatus, pendingOf. cbn.
    destruct (timerRef s) eqn:Href; cbn; rewrite ?Href; done.
Qed.

(** The timer fields that [revealCell] commits. *)
Lemma commit_timer s p :
  status s ≠ lost →
  (nextStatus p = playing ∧ pTimerRef p = true) ∨
  (nextStatus p = lost ∧ pTimerRef p = false ∧ pTicking p = false) →
  let s' := commit s (winCheck s p) in
  timer s' = timer s ∧
  ((status s' = playing ∧ timerRef s' = true ∧ ticking s' = pTicking p) ∨
   ((status s' = won ∨ status s' = lost) ∧ timerRef s' = false ∧ ticking s' = false)).
Proof.
  intros Hl Hp. unfold winCheck, commit. rewrite decide_True by done.
  cbn [timer status timerRef ticking]. split; [done|].
  destruct (decide (countCells _ _ = _)).
  - right. unfold stopTimer, setStatus. cbn.
    destruct Hp as [(_ & ->)|(_ & -> & ->)]; cbn; auto.
  - destruct Hp as [(-> & ->)|(-> & -> & ->)]; auto.
Qed.

Lemma clockInvariant_startGame s :
  (ticking s = true → timerRef s = true) → clockInvariant (startGame s).
Proof.
  intros Hclock. unfold clockInvariant. cbn [startGame ticking timerRef status timer].
  split; [|split; [|split; [|split]]]; try done.
  - destruct (timerRef s); [done|]. intros H. by specialize (Hclock H).
  - intros [H|H]; done.
Qed.

Lemma reachable_clock (s : State) : reachable s → clockInvariant s.
Proof.
  revert s. apply reachable_handlers.
  - by apply (clockInvariant_startGame initialState).
  - intros s d _ (Hclock & _). apply clockInvariant_startGame.
    cbn [ticking timerRef]. intros H. by apply Hclock.
  - intros s random r c s' _ IH Hstep.
    destruct (revealCell_cases _ _ _ _ _ Hstep)
      as [[-> _]|(x & p & Hw & Hl & _ & _ & _ & Hp & ->)]; [done|].
    destruct IH as (Hclock & Hplay & _ & _ & Hpos).
    assert (Hclock' : ticking s = true → timerRef s = true) by (intros H; by apply Hclock).
    pose proof (revealPhase_timer _ _ _ _ _ Hclock' Hplay Hw Hl Hp) as Hphase.
    assert (Hphase' : (nextStatus p = playing ∧ pTimerRef p = true) ∨
              (nextStatus p = lost ∧ pTimerRef p = false ∧ pTicking p = false)).
    { destruct Hphase as [(? & ? & _)|?]; auto. }
    destruct (commit_timer s p Hl Hphase') as (Ht & Hend).
    unfold clockInvariant. rewrite Ht.
    destruct Hend as [(-> & -> & _)|(Hover & -> & ->)].
    + split; [done|]. split; [done|]. split; [intros [H|H]; done|]. split; [done|exact Hpos].
    + split; [done|]. split; [by destruct Hover as [-> | ->]|]. split; [done|].
      split; [by destruct Hover as [-> | ->]|exact Hpos].
  - intros s r c s' _ IH Hstep.
    destruct (toggleFlag_cases _ _ _ _ Hstep) as [->|(x & _ & _ & _ & _ & ->)]; [done|].
    exact IH.
  - intros s _ (Hclock & Hplay & Hover & Hidle & Hpos).
    unfold clockInvariant, tick. cbn [ticking timerRef status timer].
    split; [done|]. split; [done|]. split; [done|].
    destruct (ticking s) eqn:Ht.
    + destruct (Hclock eq_refl) as (_ & Hs). split; [|lia]. intros H. congruence.
    + done.
Qed.

(** In every state of the component: an interval runs only during play; a
    handle is kept all through play and is released, the interval stopped,
    once the game is won or lost; before the first reveal the time is 0 and
    no interval runs; the time is never negative, and a tick changes it only
    during play. *)
Theorem clock_follows_status (s : State) :
  reachable s →
  (ticking s = true → status s = playing) ∧
  (status s = playing → timerRef s = true) ∧
  (status s = won ∨ status s = lost → timerRef s = false ∧ ticking s = false) ∧
  (status s = idle → timer s = 0 ∧ ticking s = false) ∧
  0 ≤ timer s ∧
  (timer (tick s) ≠ timer s → status s = playing).
Proof.
  intros Hreach. destruct (reachable_clock _ Hreach) as (Hclock & Hplay & Hover & Hidle & Hpos).
  assert (Hrun : ticking s = true → status s = playing) by (intros H; by apply Hclock).
  assert (Hoff : status s ≠ playing → ticking s = false).
  { intros Hs. destruct (ticking s); [|done]. by specialize (Hrun eq_refl). }
  split; [exact Hrun|]. split; [exact Hplay|].
  split; [|split; [|split; [exact Hpos|]]].
  - intros H. split; [by apply Hover|]. apply Hoff. destruct H; congruence.
  - intros H. split; [by apply Hidle|]. apply Hoff. congruence.
  - unfold tick. cbn [timer]. destruct (ticking s); [intros _; by apply Hrun|done].
Qed.

Lemma clock_follows_status_witness :
  (ticking wonGame = true → status wonGame = playing) ∧
  (status wonGame = playing → timerRef wonGame = true) ∧
  (status wonGame = won ∨ status wonGame = lost →
   timerRef wonGame = false ∧ ticking wonGame = false) ∧
  (status wonGame = idle → timer wonGame = 0 ∧ ticking wonGame = false) ∧
  0 ≤ timer wonGame ∧
  (timer (tick wonGame) ≠ timer wonGame → status wonGame = playing).
Proof. apply (clock_follows_status wonGame), wonGame_reachable. Defined.
Lemma first_reveal_clock (s : State) random r c s' :
  reachable s → status s = idle →
  revealCell s random r c = Ok s' → status s' = playing →
  ticking s' = negb (timerRef s) ∧ timerRef s' = true ∧ timer s' = 0.
Proof.
  intros Hreach Hidle Hstep Hplaying.
  destruct (reachable_clock _ Hreach) as (Hclock & Hplay & _ & Hzero & _).
  destruct (revealCell_cases _ _ _ _ _ Hstep)
    as [[-> _]|(x & p & Hw & Hl & _ & _ & _ & Hp & ->)]; [congruence|].
  assert (Hclock' : ticking s = true → timerRef s = true) by (intros H; by apply Hclock).
  assert (Htick : ticking s = false).
  { destruct (ticking s); [|done]. destruct (Hclock eq_refl). congruence. }
  pose proof (revealPhase_timer _ _ _ _ _ Hclock' Hplay Hw Hl Hp) as Hphase.
  rewrite decide_True in Hphase by done.
  destruct Hphase as [(Hs & Hr & Hk)|(Hs & _)].
  - destruct (commit_timer s p Hl (or_introl (conj Hs Hr))) as (Ht & Hend).
    rewrite Ht, (Hzero Hidle).
    destruct Hend as [(_ & -> & ->)|(Hover & _)]; [|destruct Hover; congruence].
    rewrite Hk, Htick. by destruct (timerRef s).
  - exfalso. cbn [commit status] in Hplaying.
    rewrite nextStatus_winCheck in Hplaying by done.
    destruct (decide (cellCount _ _ = _)); congruence.
Qed.

(** A first reveal that leaves the game going starts the interval exactly when
    no handle is held: the handle that [startGame] clears without releasing
    keeps the clock of the next game from starting. *)
Theorem first_reveal_starts_clock (s : State) random r c s' :
  reachable s → status s = idle →
  revealCell s random r c = Ok s' → status s' = playing →
  ticking s' = negb (timerRef s) ∧ timerRef s' = true ∧ timer s' = 0.
Proof. apply first_reveal_clock. Qed.

Lemma restartedMidGame_reachable : reachable restartedMidGame.
Proof.
  apply (reachable_dispatch oneCellLeft DoRestart); [apply oneCellLeft_reachable|done].
Qed.

Lemma first_reveal_starts_clock_witness :
  ticking stuckGame = negb (timerRef restartedMidGame) ∧
  timerRef stuckGame = true ∧ timer stuckGame = 0.
Proof.
  apply (first_reveal_starts_clock restartedMidGame bottomDraws 0 0 stuckGame).
  - apply restartedMidGame_reachable.
  - vm_compute. reflexivity.
  - vm_compute. reflexivity.
  - vm_compute. reflexivity.
Defined.

(** The handlers of a game and the ticks keep a stuck clock stuck. *)
Lemma clockStuck_dispatch s i s' :
  clockStuck s → keepsGame i = true → dispatch s i = Ok s' → clockStuck s'.
Proof.
  intros (Ht & Hk & Href) Hkeep Hstep.
  destruct i as [random r c|r c|d| |]; try done; unfold dispatch in Hstep.
  - destruct (revealCell_cases _ _ _ _ _ Hstep)
      as [[-> _]|(x & p & Hw & Hl & _ & _ & _ & Hp & ->)]; [done|].
    assert (Hclock' : ticking s = true → timerRef s = true) by (rewrite Hk; done).
    assert (Hplay : status s = playing → timerRef s = true) by auto.
    pose proof (revealPhase_timer _ _ _ _ _ Hclock' Hplay Hw Hl Hp) as Hphase.
    assert (Hphase' : (nextStatus p = playing ∧ pTimerRef p = true) ∨
              (nextStatus p = lost ∧ pTimerRef p = false ∧ pTicking p = false)).
    { destruct Hphase as [(? & ? & _)|?]; auto. }
    destruct (commit_timer s p Hl Hphase') as (Ht' & Hend).
    unfold clockStuck. rewrite Ht', Ht. split; [done|].
    destruct Hend as [(Hs & -> & ->)|(Hover & -> & ->)].
    + split; [|done]. destruct Hphase as [(_ & _ & ->)|(_ & _ & ->)]; [|done].
      rewrite Hk. case_decide as Hidle; [|done]. rewrite Href by auto. done.
    + split; [done|]. intros [H|H]; destruct Hover; congruence.
  - destruct (toggleFlag_cases _ _ _ _ Hstep) as [->|(x & _ & _ & _ & _ & ->)]; done.
  - injection Hstep as <-. unfold clockStuck, tick. cbn [timer ticking status timerRef].
    by rewrite Hk.
Qed.

(** A restart during play clears the interval and keeps its handle, so the
    clock of the new game never starts: whatever is revealed or flagged and
    however many ticks pass, the time stays at 0. *)
Theorem restart_in_play_stops_clock (s : State) intents s' :
  reachable s → status s = playing → forallb keepsGame intents = true →
  run (startGame s) intents = Ok s' →
  timer s' = 0 ∧ ticking s' = false.
Proof.
  intros Hreach Hplaying Hkeep Hrun.
  assert (Hstuck : clockStuck (startGame s)).
  { destruct (reachable_clock _ Hreach) as (_ & Hplay & _).
    unfold clockStuck. cbn [startGame timer ticking status timerRef].
    rewrite (Hplay Hplaying). done. }
  clear Hreach Hplaying. revert Hkeep Hrun Hstuck. generalize (startGame s). clear s.
  induction intents as [|i intents IH]; intros s Hkeep Hrun Hstuck;
    unfold run in *; cbn [forEach] in Hrun.
  - injection Hrun as <-. by destruct Hstuck as (? & ? & _).
  - apply bindRes_Ok in Hrun as (s1 & H1 & H2).
    cbn [forallb] in Hkeep. apply andb_true_iff in Hkeep as [Hi Hkeep].
    apply (IH s1 Hkeep H2). by eapply clockStuck_dispatch.
Qed.

Lemma restart_in_play_stops_clock_witness :
  timer stuckAfterTicks = 0 ∧ ticking stuckAfterTicks = false.
Proof.
  apply (restart_in_play_stops_clock oneCellLeft
           [DoReveal bottomDraws 0 0; DoTick; DoToggleFlag 7 8; DoTick] stuckAfterTicks).
  - apply oneCellLeft_reachable.
  - vm_compute. reflexivity.
  - vm_compute. reflexivity.
  - vm_compute. reflexivity.
Defined.
(** ** Clicks outside the board *)

Lemma invariant_hasDims s : invariant s → hasDims (DIFFICULTIES (difficulty s)) (grid s).
Proof.
  unfold invariant. case_decide; [apply idleBoard_hasDims|by intros (? & _)].
Qed.

(** The handlers read [grid[r][c]] unguarded: while the game is not over, a
    call with coordinates outside the board throws; once it is over, the call
    returns before it reads the cell. *)
Theorem handlers_throw_off_board (s : State) random r c :
  reachable s →
  ¬ (0 ≤ r < rows (DIFFICULTIES (difficulty s)) ∧
     0 ≤ c < cols (DIFFICULTIES (difficulty s))) →
  revealCell s random r c
  = (if decide (status s = won ∨ status s = lost) then Ok s else Fail TypeError) ∧
  toggleFlag s r c
  = (if decide (status s = won ∨ status s = lost) then Ok s else Fail TypeError).
Proof.
  intros Hreach Hout.
  pose proof (invariant_hasDims _ (reachable_invariant _ Hreach)) as Hdims.
  assert (Hnone : cellAt (grid s) r c = None).
  { destruct (cellAt (grid s) r c) eqn:Hx; [|done].
    destruct Hout. by apply (hasDims_cellAt _ _ _ _ Hdims). }
  unfold revealCell, toggleFlag, getCell. rewrite Hnone.
  destruct (status s); split; reflexivity.
Qed.

Lemma handlers_throw_off_board_witness :
  revealCell oneCellLeft [] 9 0
  = (if decide (status oneCellLeft = won ∨ status oneCellLeft = lost)
     then Ok oneCellLeft else Fail TypeError) ∧
  toggleFlag oneCellLeft 9 0
  = (if decide (status oneCellLeft = won ∨ status oneCellLeft = lost)
     then Ok oneCellLeft else Fail TypeError).
Proof.
  apply (handlers_throw_off_board oneCellLeft [] 9 0).
  - apply oneCellLeft_reachable.
  - vm_compute. intros [[_ H] _]. discriminate H.
Defined.

(** ** A second click *)

(** The cell on which the reveal starts is the clicked cell, with its marks. *)
Lemma start_cell s random r c p0 x :
  cellAt (grid s) r c = Some x →
  (status s = idle ∧
   placeMines (difficulty s) (grid s) r c random = Ok (newGrid p0) ∧
   sameModulo clearPlacement (grid s) (newGrid p0) ∧
   p0 = withGrid (newGrid p0) (startTimer (setStatus playing (pendingOf s)))) ∨
  (status s = playing ∧ p0 = pendingOf s) →
  ∃ x0, cellAt (newGrid p0) r c = Some x0 ∧
        isRevealed x0 = isRevealed x ∧ isFlagged x0 = isFlagged x.
Proof.
  intros Hx [(Hidle & _ & Hsame & Hp0)|(Hplay & ->)]; [|by exists x].
  pose proof (sameModulo_cellAt _ _ _ r c Hsame) as Hc. rewrite Hx in Hc.
  destruct (cellAt (newGrid p0) r c) as [x0|]; [|done].
  exists x0. split; [done|].
  assert (Hc' : clearPlacement x0 = clearPlacement x) by (simpl in Hc; congruence).
  split; [exact (f_equal isRevealed Hc')|exact (f_equal isFlagged Hc')].
Qed.

(** A click that [revealCell] has handled leaves nothing to do on its cell: a
    second click on the cell returns the state as it is. *)
Theorem revealCell_again_is_noop (s : State) random random' r c s' :
  reachable s →
  revealCell s random r c = Ok s' →
  revealCell s' random' r c = Ok s'.
Proof.
  intros Hreach Hstep. pose proof (reachable_invariant _ Hreach) as Hinv.
  destruct (revealCell_cases _ _ _ _ _ Hstep)
    as [[-> Hwhy]|(x & p & Hw & Hl & Hx & Hhid & Hflag & Hp & ->)].
  - unfold revealCell. destruct Hwhy as [Hs|[Hs|(x & Hx & Hskip)]].
    + by rewrite decide_True.
    + case_decide; [done|]. by rewrite decide_True.
    + case_decide; [done|]. case_decide; [done|].
      unfold getCell. rewrite Hx. cbn [bindRes]. by rewrite Hskip.
  - destruct (revealPhase_start _ _ _ _ _ Hinv Hw Hl Hp) as (p0 & _ & Hrev & Hstart).
    destruct (start_cell _ _ _ _ _ _ Hx Hstart) as (x0 & Hx0 & _ & Hf0).
    assert (Hshown : revealedAt (newGrid p) r c = true).
    { eapply Reveal_here; [exact Hrev|exact Hx0|congruence]. }
    unfold revealCell. case_decide; [done|]. case_decide; [done|].
    cbn [commit grid]. rewrite newGrid_winCheck. unfold getCell.
    unfold revealedAt in Hshown. destruct (cellAt (newGrid p) r c) as [y|]; [|done].
    cbn [bindRes]. by rewrite Hshown.
Qed.

Lemma revealCell_again_is_noop_witness :
  revealCell wonGame bottomDraws 7 8 = Ok wonGame.
Proof.
  apply (revealCell_again_is_noop oneCellLeft [] bottomDraws 7 8 wonGame).
  - apply oneCellLeft_reachable.
  - vm_compute. reflexivity.
Defined.

(** ** The board of a game *)

Lemma laterBoard_refl g : laterBoard g g.
Proof.
  split; [apply sameModulo_refl|]. intros r c x x' Hx Hx' Hr.
  assert (x' = x) as -> by congruence. done.
Qed.

Lemma laterBoard_trans g1 g2 g3 : laterBoard g1 g2 → laterBoard g2 g3 → laterBoard g1 g3.
Proof.
  intros (Hs12 & Hr12) (Hs23 & Hr23). split; [by eapply sameModulo_trans|].
  intros r c x x'' Hx Hx'' Hr.
  pose proof (sameModulo_cellAt _ _ _ r c Hs12) as Hc. rewrite Hx in Hc.
  destruct (cellAt g2 r c) as [x'|] eqn:Hx'; [|done].
  destruct (Hr12 _ _ _ _ Hx Hx' Hr) as (Hr' & Hf').
  destruct (Hr23 _ _ _ _ Hx' Hx'' Hr') as (Hr'' & Hf''). split; congruence.
Qed.

Lemma gridExt_laterBoard g g' : gridExt g g' → laterBoard g g'.
Proof.
  intros Hext. split.
  - apply gridExt_sameModulo in Hext.
    by apply (sameModulo_compose (setRevealed false) (setFlagged false)).
  - intros r c x x' Hx Hx' Hr.
    destruct (gridExt_cellAt _ _ _ _ _ Hext Hx) as (y & Hy & _ & Hmono).
    assert (y = x') as -> by congruence.
    split; [by apply Hmono|]. by destruct (flagged_gridExt _ _ _ _ _ _ Hext Hx Hx').
Qed.

(** One step of a game in which the mines are placed. *)
Lemma game_dispatch s i s' :
  invariant s → status s ≠ idle → keepsGame i = true → dispatch s i = Ok s' →
  invariant s' ∧ status s' ≠ idle ∧ difficulty s' = difficulty s ∧
  timer s ≤ timer s' ∧ laterBoard (grid s) (grid s').
Proof.
  intros Hinv Hni Hkeep Hstep.
  destruct i as [random r c|r c|d| |]; try done; unfold dispatch in Hstep.
  - split; [by eapply invariant_revealCell|].
    destruct (revealCell_frame _ _ _ _ _ Hinv Hstep) as (Hd & _ & Ht & _ & Hext).
    split; [|split; [done|split; [lia|by apply gridExt_laterBoard, Hext]]].
    destruct (revealCell_cases _ _ _ _ _ Hstep)
      as [[-> _]|(x & p & Hw & Hl & _ & _ & _ & Hp & ->)]; [done|].
    destruct (status_commit _ _ _ _ _ Hw Hl Hp) as (_ & _ & [Hs|Hs]); [congruence|].
    rewrite Hs. destruct (revealPhase_status _ _ _ _ _ Hw Hl Hp); congruence.
  - split; [by eapply invariant_toggleFlag|].
    destruct (toggleFlag_cases _ _ _ _ Hstep) as [->|(x & _ & _ & Hx & Hhid & ->)].
    { split; [done|]. split; [done|]. split; [lia|apply laterBoard_refl]. }
    cbn [status difficulty timer grid].
    split; [done|]. split; [done|]. split; [lia|]. split.
    + by apply sameModulo_updCell.
    + intros r' c' y y' Hy Hy' Hr. rewrite cellAt_updCell in Hy'.
      case_decide as Heq; [|assert (y' = y) as -> by congruence; done].
      destruct Heq as [-> ->]. congruence.
  - injection Hstep as <-. split; [exact Hinv|]. split; [exact Hni|]. split; [done|].
    split; [|apply laterBoard_refl]. cbn [tick timer]. destruct (ticking s); lia.
Qed.

(** Once the mines are placed, reveals, flags and ticks keep the difficulty,
    the place, the mine and the count of every cell; a revealed cell stays
    revealed and keeps its flag; the time never goes back; the status never
    returns to idle. *)
Theorem game_keeps_board (s : State) intents s' :
  reachable s → status s ≠ idle → forallb keepsGame intents = true →
  run s intents = Ok s' →
  difficulty s' = difficulty s ∧ status s' ≠ idle ∧ timer s ≤ timer s' ∧
  ∀ r c x, cellAt (grid s) r c = Some x →
    ∃ x', cellAt (grid s') r c = Some x' ∧
          row x' = row x ∧ col x' = col x ∧
          isMine x' = isMine x ∧ neighborMines x' = neighborMines x ∧
          (isRevealed x = true → isRevealed x' = true ∧ isFlagged x' = isFlagged x).
Proof.
  intros Hreach Hni Hkeep Hrun. pose proof (reachable_invariant _ Hreach) as Hinv.
  assert (Hlater : difficulty s' = difficulty s ∧ status s' ≠ idle ∧ timer s ≤ timer s' ∧
                   laterBoard (grid s) (grid s')).
  { clear Hreach. revert s Hni Hkeep Hrun Hinv.
    induction intents as [|i intents IH]; intros s Hni Hkeep Hrun Hinv;
      unfold run in *; cbn [forEach] in Hrun.
    - injection Hrun as <-. split; [done|]. split; [done|]. split; [lia|].
      apply laterBoard_refl.
    - apply bindRes_Ok in Hrun as (s1 & H1 & H2).
      cbn [forallb] in Hkeep. apply andb_true_iff in Hkeep as [Hi Hkeep].
      destruct (game_dispatch _ _ _ Hinv Hni Hi H1) as (Hinv1 & Hni1 & Hd1 & Ht1 & Hl1).
      destruct (IH s1 Hni1 Hkeep H2 Hinv1) as (Hd & Hn & Ht & Hl).
      split; [congruence|]. split; [done|]. split; [lia|]. by eapply laterBoard_trans. }
  destruct Hlater as (Hd & Hn & Ht & Hsame & Hmono).
  split; [done|]. split; [done|]. split; [done|].
  intros r c x Hx.
  pose proof (sameModulo_cellAt _ _ _ r c Hsame) as Hc. rewrite Hx in Hc.
  destruct (cellAt (grid s') r c) as [x'|] eqn:Hx'; [|done].
  exists x'. split; [done|].
  assert (Hc' : clearMarks x' = clearMarks x) by (simpl in Hc; congruence).
  split; [exact (f_equal row Hc')|]. split; [exact (f_equal col Hc')|].
  split; [exact (f_equal isMine Hc')|]. split; [exact (f_equal neighborMines Hc')|].
  by apply (Hmono r c).
Qed.

Lemma game_keeps_board_witness :
  difficulty playedOn = difficulty oneCellLeft ∧ status playedOn ≠ idle ∧
  timer oneCellLeft ≤ timer playedOn ∧
  ∀ r c x, cellAt (grid oneCellLeft) r c = Some x →
    ∃ x', cellAt (grid playedOn) r c = Some x' ∧
          row x' = row x ∧ col x' = col x ∧
          isMine x' = isMine x ∧ neighborMines x' = neighborMines x ∧
          (isRevealed x = true → isRevealed x' = true ∧ isFlagged x' = isFlagged x).
Proof.
  apply (game_keeps_board oneCellLeft [DoTick; DoToggleFlag 8 1; DoReveal [] 7 8] playedOn).
  - apply oneCellLeft_reachable.
  - vm_compute. discriminate.
  - vm_compute. reflexivity.
  - vm_compute. reflexivity.
Defined.
(** ** When the game is over *)

(** Once the game is won or lost, reveals, flags and ticks return the state as
    it is: only a restart or the choice of a difficulty leads on. *)
Theorem game_over_is_final (s : State) intents :
  reachable s → status s = won ∨ status s = lost →
  forallb keepsGame intents = true →
  run s intents = Ok s.
Proof.
  intros Hreach Hover Hkeep.
  destruct (reachable_clock _ Hreach) as (Hclock & _).
  assert (Htick : ticking s = false).
  { destruct (ticking s); [|done]. destruct (Hclock eq_refl) as (_ & Hs).
    destruct Hover; congruence. }
  assert (Hstep : ∀ i, keepsGame i = true → dispatch s i = Ok s).
  { intros [random r c|r c|d| |] Hi; try done; unfold dispatch.
    - unfold revealCell. destruct Hover as [H|H]; rewrite H; repeat case_decide; done.
    - unfold toggleFlag. destruct Hover as [H|H]; rewrite H; repeat case_decide; done.
    - unfold tick. destruct s as [d g st mc t tr tk]. cbn in Htick |- *.
      by rewrite Htick. }
  induction intents as [|i intents IH]; unfold run in *; cbn [forEach]; [done|].
  cbn [forallb] in Hkeep. apply andb_true_iff in Hkeep as [Hi Hkeep].
  rewrite (Hstep i Hi). cbn [bindRes]. by apply IH.
Qed.

Lemma game_over_is_final_witness : run wonGame afterTheEnd = Ok wonGame.
Proof.
  apply (game_over_is_final wonGame afterTheEnd).
  - apply wonGame_reachable.
  - left. vm_compute. reflexivity.
  - vm_compute. reflexivity.
Defined.

(** ** The cells that are left *)

Lemma filter_length_differ {A} (p q : A → bool) (l : list A) :
  length (List.filter p l) ≠ length (List.filter q l) → ∃ x, In x l ∧ p x ≠ q x.
Proof.
  induction l as [|a l IH]; simpl; [done|]. intros Hne.
  destruct (p a) eqn:Hp, (q a) eqn:Hq; simpl in Hne.
  - destruct IH as (x & Hx & Hd); [lia|]. eauto.
  - exists a. split; [by left|congruence].
  - exists a. split; [by left|congruence].
  - destruct IH as (x & Hx & Hd); [lia|]. eauto.
Qed.

Lemma filter_length_incl {A} (p q : A → bool) (l : list A) :
  (∀ x, In x l → q x = true → p x = true) →
  (length (List.filter q l) ≤ length (List.filter p l))%nat.
Proof.
  induction l as [|a l IH]; simpl; [lia|]. intros Himp.
  assert (IH' := IH (λ x Hx, Himp x (or_intror Hx))).
  destruct (q a) eqn:Hq.
  - rewrite (Himp a (or_introl eq_refl) Hq). simpl. lia.
  - destruct (p a); simpl; lia.
Qed.

Lemma filter_length_same {A} (p q : A → bool) (l : list A) :
  (∀ x, In x l → q x = true → p x = true) →
  length (List.filter p l) = length (List.filter q l) →
  ∀ x, In x l → p x = q x.
Proof.
  induction l as [|a l IH]; simpl; [done|]. intros Himp Hlen x Hx.
  assert (Himp' := λ x Hx, Himp x (or_intror Hx)).
  pose proof (filter_length_incl p q l Himp') as Hle.
  destruct (p a) eqn:Hp, (q a) eqn:Hq; simpl in Hlen.
  - destruct Hx as [<-|Hx]; [congruence|]. apply IH; [done|lia|done].
  - lia.
  - by rewrite (Himp a (or_introl eq_refl) Hq) in Hp.
  - destruct Hx as [<-|Hx]; [congruence|]. apply IH; [done|lia|done].
Qed.

Lemma In_concat_cellAt (g : Grid) x :
  In x (concat g) ↔ ∃ r c, cellAt g r c = Some x.
Proof.
  split.
  - intros Hx. apply List.in_concat in Hx as (rw & Hrw & Hx).
    apply list_elem_of_In, list_elem_of_lookup_1 in Hx as [j Hj].
    apply list_elem_of_In, list_elem_of_lookup_1 in Hrw as [i Hi].
    exists (Z.of_nat i), (Z.of_nat j).
    rewrite (cellAt_lookup _ _ _ rw); rewrite ?Nat2Z.id; done || lia.
  - intros (r & c & Hx). apply cellAt_Some in Hx as (_ & _ & rw & Hrw & Hx).
    apply List.in_concat. exists rw.
    split; apply list_elem_of_In; eapply list_elem_of_lookup_2; eauto.
Qed.

(** As long as the status is playing, a cell without a mine is still
    hidden. *)
Theorem playing_leaves_safe_cell (s : State) :
  reachable s → status s = playing →
  ∃ r c x, cellAt (grid s) r c = Some x ∧ isMine x = false ∧ isRevealed x = false.
Proof.
  intros Hreach Hplay.
  pose proof (reachable_invariant _ Hreach) as Hinv. unfold invariant in Hinv.
  rewrite decide_False in Hinv by congruence. destruct Hinv as (_ & Hmines & _).
  assert (Hne : cellCount (λ x, negb (isRevealed x)) (grid s) ≠ cellCount isMine (grid s)).
  { rewrite Hmines. intros Heq. apply reachable_won_iff in Heq; congruence. }
  destruct (filter_length_differ (λ x, negb (isRevealed x)) isMine (concat (grid s)))
    as (x & Hx & Hd).
  { unfold cellCount in Hne. congruence. }
  apply In_concat_cellAt in Hx as (r & c & Hx). exists r, c, x. split; [done|].
  destruct (reachable_shown _ Hreach) as (Hshown & _).
  specialize (Hshown (or_intror Hplay) r c). unfold mineAt, revealedAt in Hshown.
  rewrite Hx in Hshown.
  destruct (isMine x), (isRevealed x); simpl in Hd; auto; done.
Qed.

Lemma playing_leaves_safe_cell_witness :
  ∃ r c x, cellAt (grid oneCellLeft) r c = Some x ∧ isMine x = false ∧ isRevealed x = false.
Proof.
  apply (playing_leaves_safe_cell oneCellLeft).
  - apply oneCellLeft_reachable.
  - vm_compute. reflexivity.
Defined.

(** A game that is won shows every cell without a mine and no mine; or, when
    the win was declared over a loss, it shows every mine and keeps as many
    cells without a mine hidden as there are mines. *)
Theorem won_board (s : State) :
  reachable s → status s = won →
  (∀ r c x, cellAt (grid s) r c = Some x → isRevealed x = negb (isMine x)) ∨
  (allMinesShown (grid s) ∧
   cellCount safeHidden (grid s) = mines (DIFFICULTIES (difficulty s))).
Proof.
  intros Hreach Hwon.
  pose proof (reachable_invariant _ Hreach) as Hinv. unfold invariant in Hinv.
  rewrite decide_False in Hinv by congruence. destruct Hinv as (_ & Hmines & _).
  assert (Hcount : cellCount (λ x, negb (isRevealed x)) (grid s)
                   = mines (DIFFICULTIES (difficulty s))).
  { apply reachable_won_iff; [done|congruence|done]. }
  destruct (reachable_shown _ Hreach) as (_ & _ & Hshown).
  destruct (Hshown Hwon) as [Hnone|Hall].
  - left. intros r c x Hx.
    assert (Hsame : negb (isRevealed x) = isMine x).
    { apply (filter_length_same (λ x, negb (isRevealed x)) isMine (concat (grid s))).
      - intros y Hy Hm. apply In_concat_cellAt in Hy as (r' & c' & Hy).
        specialize (Hnone r' c'). unfold mineAt, revealedAt in Hnone.
        rewrite Hy in Hnone. by rewrite (Hnone Hm).
      - unfold cellCount in *. lia.
      - apply In_concat_cellAt. eauto. }
    rewrite <- Hsame. by destruct (isRevealed x).
  - right. split; [done|]. rewrite <- Hcount. apply cellCount_ext.
    intros r c x Hx. unfold safeHidden.
    specialize (Hall r c). unfold mineAt, revealedAt in Hall. rewrite Hx in Hall.
    destruct (isMine x); [|done]. by rewrite (Hall eq_refl).
Qed.

Lemma won_board_witness :
  (∀ r c x, cellAt (grid wonGame) r c = Some x → isRevealed x = negb (isMine x)) ∨
  (allMinesShown (grid wonGame) ∧
   cellCount safeHidden (grid wonGame) = mines (DIFFICULTIES (difficulty wonGame))).
Proof.
  apply (won_board wonGame).
  - apply wonGame_reachable.
  - vm_compute. reflexivity.
Defined.
(** ** What placeMines writes *)

(** The loop keeps the mines that are there and adds mines on cells that were
    drawn, outside the block of the anchor. *)
Lemma placeLoop_drawn config fr fc random : ∀ g n g',
  placeLoop config fr fc random g n = Ok g' →
  ∀ r c, (mineAt g r c = true → mineAt g' r c = true) ∧
         (mineAt g' r c = true →
          mineAt g r c = true ∨ ((r, c) ∈ random ∧ outsideBox fr fc (r, c) = true)).
Proof.
  induction random as [|[r0 c0] random IH]; intros g n g' Hrun r c; simpl in Hrun.
  - case_decide; [done|]. injection Hrun as <-. auto.
  - case_decide as Hn; [|injection Hrun as <-; auto].
    apply bindRes_Ok in Hrun as (cell & Hcell & Hrun).
    unfold getCell in Hcell. destruct (cellAt g r0 c0) as [x|] eqn:Hx; [|done].
    injection Hcell as ->.
    destruct (negb (isMine cell) && _) eqn:Hok.
    + apply andb_true_iff in Hok as [_ Hbox].
      destruct (IH _ _ _ Hrun r c) as (Hkeep & Hnew).
      assert (Hupd : mineAt (updCell g r0 c0 (setMine true)) r c
                     = if decide (r = r0 ∧ c = c0) then true else mineAt g r c).
      { unfold mineAt. rewrite cellAt_updCell. case_decide as Heq; [|done].
        by rewrite Hx. }
      rewrite Hupd in Hkeep, Hnew. split.
      * intros Hm. apply Hkeep. case_decide; done.
      * intros Hm. apply Hnew in Hm as [Hm|(Hin & Hout)].
        -- case_decide as Heq; [|by left]. destruct Heq as [-> ->].
           right. split; [left|exact Hbox].
        -- right. split; [by right|done].
    + destruct (IH _ _ _ Hrun r c) as (Hkeep & Hnew). split; [done|].
      intros Hm. apply Hnew in Hm as [Hm|(Hin & Hout)]; [by left|].
      right. split; [by right|done].
Qed.

(** The loops that count write to cells without a mine only. *)
Lemma computeNeighbors_mines config g g' :
  computeNeighbors config g = Ok g' →
  ∀ r c x, cellAt g' r c = Some x → isMine x = true → cellAt g r c = Some x.
Proof.
  intros Hrun. unfold computeNeighbors in Hrun.
  rewrite (forEach_nested _ _ (λ newGrid r c,
    cell ←! getCell newGrid r c;
    if negb (isMine cell)
    then count ←! countAround config newGrid r c;
         Ok (updCell newGrid r c (setNeighborMines count))
    else Ok newGrid)) in Hrun.
  set (I := λ h : Grid, ∀ r c x, cellAt h r c = Some x → isMine x = true →
                                 cellAt g r c = Some x).
  change (I g'). eapply (forEach_inv I); [|by unfold I|exact Hrun]. unfold I.
  intros h [r0 c0] h' _ Hh Hb r c x Hx Hm. cbn [fst snd] in Hb.
  apply bindRes_Ok in Hb as (cell & Hcell & Hb). unfold getCell in Hcell.
  destruct (cellAt h r0 c0) as [x0|] eqn:Hx0; [|done]. injection Hcell as ->.
  destruct (isMine cell) eqn:Hm0; cbn [negb] in Hb.
  - injection Hb as <-. by apply Hh.
  - apply bindRes_Ok in Hb as (count & _ & Hb). injection Hb as <-.
    rewrite cellAt_updCell in Hx. case_decide as Heq; [|by apply Hh].
    rewrite Hx0 in Hx. injection Hx as <-. cbn in Hm. congruence.
Qed.

Lemma placeMines_fields (d : Difficulty) (g : Grid) fr fc random g' :
  hasDims (DIFFICULTIES d) g → placeMines d g fr fc random = Ok g' →
  ∀ r c x', cellAt g' r c = Some x' →
    ∃ x, cellAt g r c = Some x ∧
         row x' = row x ∧ col x' = col x ∧
         isRevealed x' = isRevealed x ∧ isFlagged x' = isFlagged x ∧
         (isMine x = true → isMine x' = true) ∧
         (isMine x' = true →
          neighborMines x' = neighborMines x ∧ (isMine x = true ∨ (r, c) ∈ random)).
Proof.
  intros Hdims Hrun r c x' Hx'.
  destruct (placeMines_sound _ _ _ _ _ _ Hdims Hrun) as (Hsame & _).
  unfold placeMines in Hrun. apply bindRes_Ok in Hrun as (gm & Hloop & Hcount).
  pose proof (sameModulo_cellAt _ _ _ r c Hsame) as Hc. rewrite Hx' in Hc.
  destruct (cellAt g r c) as [x|] eqn:Hx; [|done]. exists x. split; [done|].
  assert (Hc' : clearPlacement x' = clearPlacement x) by (simpl in Hc; congruence).
  split; [exact (f_equal row Hc')|]. split; [exact (f_equal col Hc')|].
  split; [exact (f_equal isRevealed Hc')|]. split; [exact (f_equal isFlagged Hc')|].
  destruct (placeLoop_drawn _ _ _ _ _ _ _ Hloop r c) as (Hkeep & Hnew).
  destruct (placeLoop_sound _ _ _ _ _ _ _ Hloop) as (Hs1 & _).
  apply computeNeighbors_sound in Hcount as Hs2;
    [|eapply hasDims_shape; [eapply sameModulo_shape, Hs1 | done]].
  destruct Hs2 as (Hs2 & _).
  assert (Hmine : mineAt g' r c = mineAt gm r c).
  { symmetry. by apply (sameModulo_mineAt (setNeighborMines 0)). }
  unfold mineAt in Hmine at 1. rewrite Hx' in Hmine.
  unfold mineAt in Hkeep at 1. unfold mineAt in Hnew at 2. rewrite Hx in Hkeep, Hnew.
  split.
  - intros Hm. rewrite Hmine. by apply Hkeep.
  - intros Hm. split.
    + pose proof (computeNeighbors_mines _ _ _ Hcount _ _ _ Hx' Hm) as Hgm.
      pose proof (sameModulo_cellAt _ _ _ r c Hs1) as Hc1. rewrite Hx, Hgm in Hc1.
      assert (Hc1' : setMine false x = setMine false x') by (simpl in Hc1; congruence).
      exact (f_equal neighborMines (eq_sym Hc1')).
    + rewrite Hmine in Hm. destruct (Hnew Hm) as [?|[? _]]; auto.
Qed.

(** [placeMines] writes [isMine] and [neighborMines] only. It keeps the mines
    that are there and adds mines on drawn cells only; it writes a count to
    the cells without a mine only. *)
Theorem placeMines_writes_placement (d : Difficulty) (g : Grid) fr fc random g' :
  hasDims (DIFFICULTIES d) g → placeMines d g fr fc random = Ok g' →
  ∀ r c x', cellAt g' r c = Some x' →
    ∃ x, cellAt g r c = Some x ∧
         row x' = row x ∧ col x' = col x ∧
         isRevealed x' = isRevealed x ∧ isFlagged x' = isFlagged x ∧
         (isMine x = true → isMine x' = true) ∧
         (isMine x' = true →
          neighborMines x' = neighborMines x ∧ (isMine x = true ∨ (r, c) ∈ random)).
Proof. apply placeMines_fields. Qed.

Lemma placeMines_writes_placement_witness :
  cellAt bottomBoard 8 1 = Some (mkCell 8 1 true false false 0) ∧
  ∃ x, cellAt (initGrid (DIFFICULTIES Beginner)) 8 1 = Some x ∧
       row (mkCell 8 1 true false false 0) = row x ∧
       col (mkCell 8 1 true false false 0) = col x ∧
       isRevealed (mkCell 8 1 true false false 0) = isRevealed x ∧
       isFlagged (mkCell 8 1 true false false 0) = isFlagged x ∧
       (isMine x = true → isMine (mkCell 8 1 true false false 0) = true) ∧
       (isMine (mkCell 8 1 true false false 0) = true →
        neighborMines (mkCell 8 1 true false false 0) = neighborMines x ∧
        (isMine x = true ∨ (8, 1) ∈ bottomDraws)).
Proof.
  split; [vm_compute; reflexivity|].
  apply (placeMines_writes_placement Beginner (initGrid (DIFFICULTIES Beginner)) 0 0
           bottomDraws bottomBoard).
  - apply initGrid_hasDims.
  - vm_compute. reflexivity.
  - vm_compute. reflexivity.
Defined.

(** ** The cells of the board *)

Lemma mineNeighbors_bounds g r c : 0 ≤ mineNeighbors g r c ≤ 8.
Proof.
  unfold mineNeighbors.
  pose proof (List.filter_length_le (λ q, mineAt g q.1 q.2) (moore r c)) as Hle.
  unfold moore in *. cbn [length] in Hle. lia.
Qed.

(** In every state of the component a cell stands at its place, and a mine
    has count 0. *)
Lemma reachable_cells (s : State) :
  reachable s →
  ∀ r c x, cellAt (grid s) r c = Some x →
           row x = r ∧ col x = c ∧ (isMine x = true → neighborMines x = 0).
Proof.
  revert s. apply (reachable_steps (λ s, ∀ r c x, cellAt (grid s) r c = Some x →
    row x = r ∧ col x = c ∧ (isMine x = true → neighborMines x = 0))).
  - intros s0 r c x Hx. cbn [startGame grid] in Hx.
    rewrite (idleBoard_cellAt _ _ _ _ _ (initGrid_idleBoard _) Hx). done.
  - intros s random r0 c0 s' Hreach IH Hstep r c x' Hx'.
    pose proof (reachable_invariant _ Hreach) as Hinv.
    destruct (revealCell_cases _ _ _ _ _ Hstep)
      as [[-> _]|(x0 & p & Hw & Hl & _ & _ & _ & Hp & ->)]; [by apply IH|].
    destruct (revealPhase_start _ _ _ _ _ Hinv Hw Hl Hp) as (p0 & _ & Hrev & Hstart).
    cbn [commit grid] in Hx'. rewrite newGrid_winCheck in Hx'.
    pose proof (Reveal_gridExt _ _ _ _ Hrev) as Hext.
    destruct (cellAt_gridExt_inv _ _ _ _ _ Hext Hx') as (y & Hy & Hcell & _).
    assert (Hfields : row x' = row y ∧ col x' = col y ∧ isMine x' = isMine y ∧
                      neighborMines x' = neighborMines y).
    { split; [exact (f_equal row (eq_sym Hcell))|].
      split; [exact (f_equal col (eq_sym Hcell))|].
      split; [exact (f_equal isMine (eq_sym Hcell))|].
      exact (f_equal neighborMines (eq_sym Hcell)). }
    destruct Hfields as (-> & -> & -> & ->).
    destruct Hstart as [(Hidle & Hplace & _ & _)|(_ & ->)]; [|by apply IH].
    destruct (placeMines_fields _ _ _ _ _ _ (invariant_hasDims _ Hinv) Hplace
                _ _ _ Hy) as (x & Hx & -> & -> & _ & _ & _ & Hmine).
    destruct (IH _ _ _ Hx) as (Hr & Hc & _). split; [done|]. split; [done|].
    intros Hm. destruct (Hmine Hm) as (-> & _).
    unfold invariant in Hinv. rewrite decide_True in Hinv by done.
    by rewrite (idleBoard_cellAt _ _ _ _ _ Hinv Hx).
  - intros s r0 c0 s' _ IH Hstep r c x' Hx'.
    destruct (toggleFlag_cases _ _ _ _ Hstep) as [->|(x & _ & _ & Hx & _ & ->)];
      [by apply IH|].
    cbn [grid] in Hx'. rewrite cellAt_updCell in Hx'.
    case_decide as Heq; [|by apply IH]. destruct Heq as [-> ->].
    rewrite Hx in Hx'. injection Hx' as <-. exact (IH _ _ _ Hx).
  - intros s _ IH. exact IH.
Qed.

(** In every state of the component the board has the cells of the
    difficulty, each at its place; the count of a cell lies between 0 and 8,
    and is 0 on a mine and before the mines are placed. *)
Theorem cells_well_formed (s : State) r c :
  reachable s →
  (is_Some (cellAt (grid s) r c) ↔
   0 ≤ r < rows (DIFFICULTIES (difficulty s)) ∧
   0 ≤ c < cols (DIFFICULTIES (difficulty s))) ∧
  ∀ x, cellAt (grid s) r c = Some x →
       row x = r ∧ col x = c ∧ 0 ≤ neighborMines x ≤ 8 ∧
       (isMine x = true ∨ status s = idle → neighborMines x = 0).
Proof.
  intros Hreach. pose proof (reachable_invariant _ Hreach) as Hinv.
  split; [apply hasDims_cellAt, invariant_hasDims, Hinv|].
  intros x Hx. destruct (reachable_cells _ Hreach _ _ _ Hx) as (Hr & Hc & Hmine).
  split; [done|]. split; [done|].
  assert (Hidle : status s = idle → neighborMines x = 0).
  { intros Hs. unfold invariant in Hinv. rewrite decide_True in Hinv by done.
    by rewrite (idleBoard_cellAt _ _ _ _ _ Hinv Hx). }
  split; [|intros [?|?]; auto].
  destruct (decide (status s = idle)) as [Hs|Hs]; [rewrite (Hidle Hs); lia|].
  destruct (isMine x) eqn:Hm; [rewrite (Hmine eq_refl); lia|].
  unfold invariant in Hinv. rewrite decide_False in Hinv by done.
  destruct Hinv as (_ & _ & Hcons). rewrite (Hcons _ _ _ Hx Hm).
  apply mineNeighbors_bounds.
Qed.

Lemma cells_well_formed_witness :
  (is_Some (cellAt (grid oneCellLeft) 8 0) ↔
   0 ≤ 8 < rows (DIFFICULTIES (difficulty oneCellLeft)) ∧
   0 ≤ 0 < cols (DIFFICULTIES (difficulty oneCellLeft))) ∧
  ∀ x, cellAt (grid oneCellLeft) 8 0 = Some x →
       row x = 8 ∧ col x = 0 ∧ 0 ≤ neighborMines x ≤ 8 ∧
       (isMine x = true ∨ status oneCellLeft = idle → neighborMines x = 0).
Proof. apply (cells_well_formed oneCellLeft 8 0), oneCellLeft_reachable. Defined.
(** ** What the board displays *)

(** The marks of the board on which the reveal starts are those of the board
    of the state. *)
Lemma start_marks s random r0 c0 p0 :
  (status s = idle ∧
   placeMines (difficulty s) (grid s) r0 c0 random = Ok (newGrid p0) ∧
   sameModulo clearPlacement (grid s) (newGrid p0) ∧
   p0 = withGrid (newGrid p0) (startTimer (setStatus playing (pendingOf s)))) ∨
  (status s = playing ∧ p0 = pendingOf s) →
  ∀ r c x0, cellAt (newGrid p0) r c = Some x0 →
    ∃ x, cellAt (grid s) r c = Some x ∧
         isRevealed x0 = isRevealed x ∧ isFlagged x0 = isFlagged x.
Proof.
  intros [(Hidle & _ & Hsame & Hp0)|(Hplay & ->)] r c x0 Hx0; [|by exists x0].
  pose proof (sameModulo_cellAt _ _ _ r c Hsame) as Hc. rewrite Hx0 in Hc.
  destruct (cellAt (grid s) r c) as [x|]; [|done].
  exists x. split; [done|].
  assert (Hc' : clearPlacement x0 = clearPlacement x) by (simpl in Hc; congruence).
  split; [exact (f_equal isRevealed Hc')|exact (f_equal isFlagged Hc')].
Qed.

(** As long as the game goes on, a flagged cell is hidden. *)
Lemma reachable_flags_hidden (s : State) :
  reachable s → status s = idle ∨ status s = playing →
  ∀ r c x, cellAt (grid s) r c = Some x → isFlagged x = true → isRevealed x = false.
Proof.
  revert s. apply (reachable_steps (λ s, status s = idle ∨ status s = playing →
    ∀ r c x, cellAt (grid s) r c = Some x → isFlagged x = true → isRevealed x = false)).
  - intros s0 _ r c x Hx. cbn [startGame grid] in Hx.
    by rewrite (idleBoard_cellAt _ _ _ _ _ (initGrid_idleBoard _) Hx).
  - intros s random r0 c0 s' Hreach IH Hstep Hgo r c x' Hx' Hf'.
    pose proof (reachable_invariant _ Hreach) as Hinv.
    destruct (revealCell_cases _ _ _ _ _ Hstep)
      as [[-> _]|(x & p & Hw & Hl & Hx & Hhid & Hflag & Hp & ->)]; [by eapply IH|].
    assert (Hgo0 : status s = idle ∨ status s = playing) by (destruct (status s); auto; done).
    destruct (revealPhase_start _ _ _ _ _ Hinv Hw Hl Hp) as (p0 & Hplaced & Hrev & Hstart).
    destruct (start_cell _ _ _ _ _ _ Hx Hstart) as (x0 & Hx0 & Hr0 & Hf0).
    destruct Hplaced as (_ & _ & Hcons).
    destruct (status_commit _ _ _ _ _ Hw Hl Hp) as (Hg & _ & Hst).
    rewrite Hg in Hx'.
    destruct (Reveal_outcome _ _ _ _ _ Hcons Hrev Hx0) as [(_ & Hdis)|(_ & _ & Hiff)];
      [congruence|congruence| |].
    { exfalso. assert (Hlost : nextStatus p = lost).
      { rewrite Hdis. unfold disclose. cbn [withGrid nextStatus].
        by rewrite nextStatus_stopTimer. }
      rewrite Hlost in Hst. destruct Hst, Hgo; congruence. }
    destruct (isRevealed x') eqn:Hr'; [exfalso|done].
    pose proof (Reveal_gridExt _ _ _ _ Hrev) as Hext.
    destruct (cellAt_gridExt_inv _ _ _ _ _ Hext Hx') as (y & Hy & _).
    destruct (flagged_gridExt _ _ _ _ _ _ Hext Hy Hx') as (Hfy & _).
    assert (Hshown : revealedAt (newGrid p) r c = true) by (unfold revealedAt; by rewrite Hx').
    apply (Hiff (r, c)) in Hshown as [Hold|Hcas]; cbn [fst snd] in *.
    + unfold revealedAt in Hold. rewrite Hy in Hold.
      destruct (start_marks _ _ _ _ _ Hstart _ _ _ Hy) as (z & Hz & Hrz & Hfz).
      assert (Hfz' : isFlagged z = true) by congruence.
      specialize (IH Hgo0 _ _ _ Hz Hfz'). congruence.
    + apply cascade_enterable in Hcas as (y' & Hy' & _ & Hfy'). cbn [fst snd] in Hy'.
      congruence.
  - intros s r0 c0 s' _ IH Hstep Hgo r c x' Hx' Hf'.
    destruct (toggleFlag_cases _ _ _ _ Hstep) as [->|(x & _ & _ & Hx & Hhid & ->)];
      [by eapply IH|].
    cbn [grid status] in *. rewrite cellAt_updCell in Hx'.
    case_decide as Heq; [|by eapply IH]. destruct Heq as [-> ->].
    rewrite Hx in Hx'. injection Hx' as <-. exact Hhid.
  - intros s _ IH. exact IH.
Qed.

Lemma getNumberColor_filled n :
  1 ≤ n ≤ 8 → View.getNumberColor n ≠ String.EmptyString.
Proof.
  intros Hn.
  assert (Hcases : n = 1 ∨ n = 2 ∨ n = 3 ∨ n = 4 ∨ n = 5 ∨ n = 6 ∨ n = 7 ∨ n = 8) by lia.
  destruct Hcases as [->|[->|[->|[->|[->|[->|[->| ->]]]]]]]; vm_compute; discriminate.
Qed.

(** A revealed cell without a mine displays the number of the mines around it
    in the colour of that number, which is one of the eight colours, and
    nothing when there is none. *)
Theorem revealed_cell_displays_count (s : State) r c x :
  reachable s → cellAt (grid s) r c = Some x →
  isRevealed x = true → isMine x = false →
  let n := mineNeighbors (grid s) r c in
  View.cellContent x
  = (if decide (n = 0) then View.Nothing else View.Count n (View.getNumberColor n)) ∧
  (n ≠ 0 → View.getNumberColor n ≠ String.EmptyString).
Proof.
  intros Hreach Hx Hr Hm n.
  pose proof (reachable_invariant _ Hreach) as Hinv. unfold invariant in Hinv.
  case_decide as Hidle.
  { by rewrite (idleBoard_cellAt _ _ _ _ _ Hinv Hx) in Hr. }
  destruct Hinv as (_ & _ & Hcons). specialize (Hcons _ _ _ Hx Hm). fold n in Hcons.
  pose proof (mineNeighbors_bounds (grid s) r c) as Hb. fold n in Hb.
  split.
  - unfold View.cellContent. rewrite Hr, Hm, Hcons.
    case_decide as Hn.
    + rewrite Hn. done.
    + destruct (0 <? n) eqn:Hpos; [done|]. apply Z.ltb_ge in Hpos. lia.
  - intros Hn. apply getNumberColor_filled. lia.
Qed.

Lemma revealed_cell_displays_count_witness :
  let n := mineNeighbors (grid oneCellLeft) 7 0 in
  View.cellContent (mkCell 7 0 false true false 2)
  = (if decide (n = 0) then View.Nothing else View.Count n (View.getNumberColor n)) ∧
  (n ≠ 0 → View.getNumberColor n ≠ String.EmptyString).
Proof.
  apply (revealed_cell_displays_count oneCellLeft 7 0 (mkCell 7 0 false true false 2)).
  - apply oneCellLeft_reachable.
  - vm_compute. reflexivity.
  - reflexivity.
  - reflexivity.
Defined.

(** A bomb is on display only when the game is over, on a mine; once the game
    is lost every mine displays a bomb, flagged or not; as long as the game
    goes on, the flagged cells display their flag. *)
Theorem bombs_and_flags_on_display (s : State) r c x :
  reachable s → cellAt (grid s) r c = Some x →
  (View.cellContent x = View.BombIcon → isMine x = true ∧ View.overlay s = true) ∧
  (status s = lost → isMine x = true → View.cellContent x = View.BombIcon) ∧
  (View.overlay s = false → isFlagged x = true → View.cellContent x = View.FlagIcon).
Proof.
  intros Hreach Hx.
  destruct (reachable_shown _ Hreach) as (Hgo & Hlost & _).
  split; [|split].
  - unfold View.cellContent, View.overlay. intros Hbomb.
    destruct (isRevealed x) eqn:Hr; [|by destruct (isFlagged x)].
    destruct (isMine x) eqn:Hm; [|by destruct (0 <? neighborMines x)].
    split; [done|].
    destruct (status s) eqn:Hs; try done.
    all: specialize (Hgo ltac:(auto) r c); unfold mineAt, revealedAt in Hgo;
      rewrite Hx in Hgo; specialize (Hgo Hm); congruence.
  - intros Hs Hm. specialize (Hlost Hs r c). unfold mineAt, revealedAt in Hlost.
    rewrite Hx in Hlost. unfold View.cellContent. by rewrite (Hlost Hm), Hm.
  - intros Hover Hf.
    assert (Hgo0 : status s = idle ∨ status s = playing).
    { unfold View.overlay in Hover. destruct (status s); auto; done. }
    unfold View.cellContent.
    by rewrite (reachable_flags_hidden _ Hreach Hgo0 _ _ _ Hx Hf), Hf.
Qed.

Lemma bombs_and_flags_on_display_witness :
  (View.cellContent (mkCell 8 1 true true true 0) = View.BombIcon →
   isMine (mkCell 8 1 true true true 0) = true ∧ View.overlay mineFlaggedLost = true) ∧
  (status mineFlaggedLost = lost → isMine (mkCell 8 1 true true true 0) = true →
   View.cellContent (mkCell 8 1 true true true 0) = View.BombIcon) ∧
  (View.overlay mineFlaggedLost = false → isFlagged (mkCell 8 1 true true true 0) = true →
   View.cellContent (mkCell 8 1 true true true 0) = View.FlagIcon).
Proof.
  apply (bombs_and_flags_on_display mineFlaggedLost 8 1 (mkCell 8 1 true true true 0)).
  - apply mineFlaggedLost_reachable.
  - vm_compute. reflexivity.
Defined.

(** As long as the game goes on, the flags on display and the counter add up
    to the mines of the difficulty. *)
Theorem flags_on_display_and_counter (s : State) :
  reachable s → View.overlay s = false →
  cellCount View.showsFlag (grid s) + mineCount s = mines (DIFFICULTIES (difficulty s)).
Proof.
  intros Hreach Hover.
  assert (Hgo : status s = idle ∨ status s = playing).
  { unfold View.overlay in Hover. destruct (status s); auto; done. }
  rewrite (reachable_counter _ Hreach).
  rewrite (cellCount_ext View.showsFlag isFlagged); [lia|].
  intros r c x Hx. unfold View.showsFlag, View.cellContent.
  destruct (isFlagged x) eqn:Hf.
  - by rewrite (reachable_flags_hidden _ Hreach Hgo _ _ _ Hx Hf).
  - destruct (isRevealed x); [|done].
    destruct (isMine x); [done|]. by destruct (0 <? neighborMines x).
Qed.

Lemma flags_on_display_and_counter_witness :
  cellCount View.showsFlag (grid tenFlags) + mineCount tenFlags
  = mines (DIFFICULTIES (difficulty tenFlags)).
Proof.
  apply (flags_on_display_and_counter tenFlags).
  - apply tenFlags_reachable.
  - vm_compute. reflexivity.
Defined.
(** ** The course of a game *)

(** Among reveals, flags and ticks only a reveal changes the status, and the
    status moves from idle to playing or won, and from playing to won or
    lost; a first reveal never loses, and a game that is over stays as it
    is. A restart leads back to idle, and so does the choice of another
    difficulty; the choice of the difficulty already held changes nothing. *)
Theorem status_moves (s : State) i s' :
  reachable s → dispatch s i = Ok s' →
  match i with
  | DoRestart => status s' = idle
  | DoSetDifficulty d =>
      if decide (d = difficulty s) then s' = s
      else status s' = idle ∧ difficulty s' = d
  | _ => mayFollow (status s) (status s') = true
  end ∧
  (status s' ≠ status s → keepsGame i = true → ∃ random r c, i = DoReveal random r c).
Proof.
  intros Hreach Hstep. pose proof (reachable_invariant _ Hreach) as Hinv.
  assert (Hrefl : mayFollow (status s) (status s) = true) by by destruct (status s).
  destruct i as [random r c|r c|d| |]; unfold dispatch in Hstep; cbn [keepsGame].
  - split; [|eauto].
    destruct (revealCell_cases _ _ _ _ _ Hstep)
      as [[-> _]|(x & p & Hw & Hl & Hx & Hhid & Hflag & Hp & ->)]; [done|].
    destruct (status_commit _ _ _ _ _ Hw Hl Hp) as (_ & _ & Hst).
    destruct (status s) eqn:Hs; try done.
    + unfold invariant in Hinv. rewrite decide_True in Hinv by done.
      destruct (first_reveal_phase _ _ _ _ _ _ Hs Hinv Hx Hflag Hp)
        as (_ & _ & _ & _ & _ & _ & Hplay & _).
      rewrite Hplay in Hst. by destruct Hst as [-> | ->].
    + destruct (revealPhase_status s random r c p) as [Hn|Hn]; [congruence..|done| |].
      all: rewrite Hn in Hst; by destruct Hst as [-> | ->].
  - destruct (toggleFlag_cases _ _ _ _ Hstep) as [->|(x & _ & _ & _ & _ & ->)];
      cbn [status]; done.
  - injection Hstep as <-. split; [|done]. unfold selectDifficulty.
    case_decide; [done|]. by cbn [startGame status difficulty].
  - injection Hstep as <-. done.
  - injection Hstep as <-. cbn [tick status]. done.
Qed.

Lemma status_moves_witness :
  (mayFollow (status oneCellLeft) (status wonGame) = true ∧
   (status wonGame ≠ status oneCellLeft → keepsGame (DoReveal [] 7 8) = true →
    ∃ random r c, DoReveal [] 7 8 = DoReveal random r c)) ∧
  ((if decide (Beginner = difficulty oneCellLeft)
    then selectDifficulty Beginner oneCellLeft = oneCellLeft
    else status (selectDifficulty Beginner oneCellLeft) = idle ∧
         difficulty (selectDifficulty Beginner oneCellLeft) = Beginner) ∧
   (status (selectDifficulty Beginner oneCellLeft) ≠ status oneCellLeft →
    keepsGame (DoSetDifficulty Beginner) = true →
    ∃ random r c, DoSetDifficulty Beginner = DoReveal random r c)) ∧
  ((if decide (Expert = difficulty oneCellLeft)
    then selectDifficulty Expert oneCellLeft = oneCellLeft
    else status (selectDifficulty Expert oneCellLeft) = idle ∧
         difficulty (selectDifficulty Expert oneCellLeft) = Expert) ∧
   (status (selectDifficulty Expert oneCellLeft) ≠ status oneCellLeft →
    keepsGame (DoSetDifficulty Expert) = true →
    ∃ random r c, DoSetDifficulty Expert = DoReveal random r c)).
Proof.
  split; [|split].
  - apply (status_moves oneCellLeft (DoReveal [] 7 8) wonGame).
    + apply oneCellLeft_reachable.
    + vm_compute. reflexivity.
  - apply (status_moves oneCellLeft (DoSetDifficulty Beginner)
             (selectDifficulty Beginner oneCellLeft)).
    + apply oneCellLeft_reachable.
    + reflexivity.
  - apply (status_moves oneCellLeft (DoSetDifficulty Expert)
             (selectDifficulty Expert oneCellLeft)).
    + apply oneCellLeft_reachable.
    + reflexivity.
Defined.

(** A board that shows one cell more hides fewer cells. *)
Lemma gridExt_hidden_strict g g' r c x :
  gridExt g g' → cellAt g r c = Some x → isRevealed x = false →
  revealedAt g' r c = true →
  cellCount (λ x, negb (isRevealed x)) g' < cellCount (λ x, negb (isRevealed x)) g.
Proof.
  intros Hext Hx Hhid Hshown.
  assert (Hstep : gridExt (updCell g r c (setRevealed true)) g').
  { pose proof Hx as Hpos. apply cellAt_Some in Hpos as (Hr & Hc & _).
    unfold updCell. rewrite decide_True by done.
    unfold gridExt. apply Forall2_alter_l; [exact Hext|].
    intros rw rw' Hrw Hrw' Hrows. apply Forall2_alter_l; [exact Hrows|].
    intros y y' Hy Hy' [Hsame Hmono]. split; [done|]. intros _.
    unfold revealedAt in Hshown. rewrite (cellAt_lookup _ _ _ rw'), Hy' in Hshown; done. }
  apply gridExt_hidden in Hstep.
  rewrite (cellCount_updCell _ _ _ _ _ _ Hx) in Hstep. cbn in Hstep.
  rewrite Hhid in Hstep. cbn in Hstep. lia.
Qed.

(** A reveal leaves the state as it is or leaves fewer cells hidden: the
    clicks that change a game are fewer than its cells. *)
Theorem reveal_progress (s : State) random r c s' :
  reachable s → revealCell s random r c = Ok s' →
  s' = s ∨
  cellCount (λ x, negb (isRevealed x)) (grid s')
  < cellCount (λ x, negb (isRevealed x)) (grid s).
Proof.
  intros Hreach Hstep. pose proof (reachable_invariant _ Hreach) as Hinv.
  destruct (revealCell_cases _ _ _ _ _ Hstep)
    as [[-> _]|(x & p & Hw & Hl & Hx & Hhid & Hflag & Hp & ->)]; [by left|right].
  destruct (revealPhase_start _ _ _ _ _ Hinv Hw Hl Hp) as (p0 & _ & Hrev & Hstart).
  destruct (start_cell _ _ _ _ _ _ Hx Hstart) as (x0 & Hx0 & Hr0 & Hf0).
  cbn [commit grid]. rewrite newGrid_winCheck.
  assert (Hsame : cellCount (λ x, negb (isRevealed x)) (grid s)
                  = cellCount (λ x, negb (isRevealed x)) (newGrid p0)).
  { destruct Hstart as [(_ & _ & Hsame & _)|(_ & ->)]; [|done].
    by apply (sameModulo_cellCount clearPlacement). }
  rewrite Hsame.
  apply (gridExt_hidden_strict _ _ r c x0); [by eapply Reveal_gridExt|done|congruence|].
  eapply Reveal_here; [exact Hrev|exact Hx0|congruence].
Qed.

Lemma reveal_progress_witness :
  wonGame = oneCellLeft ∨
  cellCount (λ x, negb (isRevealed x)) (grid wonGame)
  < cellCount (λ x, negb (isRevealed x)) (grid oneCellLeft).
Proof.
  apply (reveal_progress oneCellLeft [] 7 8 wonGame).
  - apply oneCellLeft_reachable.
  - vm_compute. reflexivity.
Defined.
(** ** The bound on the recursion of reveal *)






(** ** What revealCell reads and writes *)

(** Once the mines are placed, [revealCell] draws no random number. *)
Theorem later_reveals_draw_nothing (s : State) random random' r c :
  status s ≠ idle → revealCell s random r c = revealCell s random' r c.
Proof.
  intros Hs. unfold revealCell.
  by rewrite (revealPhase_placed s random), (revealPhase_placed s random').
Qed.

Lemma later_reveals_draw_nothing_witness :
  revealCell oneCellLeft [] 7 8 = revealCell oneCellLeft bottomDraws 7 8.
Proof.
  apply (later_reveals_draw_nothing oneCellLeft [] bottomDraws 7 8).
  vm_compute. discriminate.
Defined.

(** [revealCell] writes neither the difficulty, nor the counter of the mines,
    nor the time, nor a flag. *)
Theorem revealCell_keeps_flags_and_counters (s : State) random r c s' :
  reachable s → revealCell s random r c = Ok s' →
  difficulty s' = difficulty s ∧ mineCount s' = mineCount s ∧ timer s' = timer s ∧
  ∀ r' c', flaggedAt (grid s') r' c' = flaggedAt (grid s) r' c'.
Proof.
  intros Hreach Hstep.
  destruct (revealCell_frame _ _ _ _ _ (reachable_invariant _ Hreach) Hstep)
    as (Hd & Hm & Ht & Hsame & _).
  split; [done|]. split; [done|]. split; [done|].
  intros r' c'. symmetry. by apply (sameModulo_flaggedAt clearPlay).
Qed.

Lemma revealCell_keeps_flags_and_counters_witness :
  difficulty mineFlaggedLost = difficulty mineFlagged ∧
  mineCount mineFlaggedLost = mineCount mineFlagged ∧
  timer mineFlaggedLost = timer mineFlagged ∧
  ∀ r' c', flaggedAt (grid mineFlaggedLost) r' c' = flaggedAt (grid mineFlagged) r' c'.
Proof.
  apply (revealCell_keeps_flags_and_counters mineFlagged [] 8 0 mineFlaggedLost).
  - apply (reachable_dispatch oneCellLeft (DoToggleFlag 8 1)).
    + apply oneCellLeft_reachable.
    + vm_compute. reflexivity.
  - vm_compute. reflexivity.
Defined.

(** ** Clicks on the board *)

(** With draws on the board, the loop of [placeMines] ends or asks for more
    draws. *)
Lemma placeLoop_in_range config fr fc random : ∀ g n,
  Forall (λ q, is_Some (cellAt g q.1 q.2)) random →
  (∃ g', placeLoop config fr fc random g n = Ok g') ∨
  placeLoop config fr fc random g n = Fail RandomExhausted.
Proof.
  induction random as [|[r c] random IH]; intros g n Hrange; cbn [placeLoop].
  - case_decide; [by right|left; eauto].
  - case_decide as Hn; [|left; eauto].
    apply Forall_cons_1 in Hrange as [[x Hx] Hrange]. cbn [fst snd] in Hx.
    unfold getCell. rewrite Hx. cbn [bindRes].
    destruct (negb (isMine x) && _); [|by apply IH].
    apply IH. eapply Forall_impl; [|exact Hrange]. intros q Hq. cbn beta in Hq |- *.
    eapply shape_cellAt; [|exact Hq]. symmetry. apply shape_updCell.
Qed.

(** On the board no handler throws: [toggleFlag] returns; [revealCell] returns
    once the mines are placed, and at the first reveal it returns as soon as
    enough cells are drawn. *)
Theorem handlers_return_on_board (s : State) random r c :
  reachable s →
  0 ≤ r < rows (DIFFICULTIES (difficulty s)) →
  0 ≤ c < cols (DIFFICULTIES (difficulty s)) →
  (∃ s', toggleFlag s r c = Ok s') ∧
  (status s ≠ idle → ∃ s', revealCell s random r c = Ok s') ∧
  (forallb (inRange (DIFFICULTIES (difficulty s))) random = true →
   (∃ s', revealCell s random r c = Ok s') ∨
   revealCell s random r c = Fail RandomExhausted).
Proof.
  intros Hreach Hr Hc. pose proof (reachable_invariant _ Hreach) as Hinv.
  pose proof (invariant_hasDims _ Hinv) as Hdims.
  destruct (proj2 (hasDims_cellAt _ _ r c Hdims) (conj Hr Hc)) as [x Hx].
  assert (Hlater : status s ≠ idle → ∃ s', revealCell s random r c = Ok s').
  { intros Hni.
    destruct (decide (status s = won)) as [Hw|Hw];
      [exists s; unfold revealCell; by rewrite decide_True|].
    destruct (decide (status s = lost)) as [Hl|Hl];
      [exists s; unfold revealCell; rewrite decide_False, decide_True; done|].
    destruct (isRevealed x || isFlagged x) eqn:Hskip.
    - exists s. unfold revealCell, getCell.
      rewrite decide_False, decide_False, Hx by done. cbn [bindRes]. by rewrite Hskip.
    - apply orb_false_iff in Hskip as [Hhid Hflag].
      unfold invariant in Hinv. rewrite decide_False in Hinv by done.
      destruct (playing_reveal s random r c x) as (p & _ & Hrun & _); try done; [|eauto].
      by destruct (status s). }
  split; [|split; [exact Hlater|]].
  - unfold toggleFlag, getCell. rewrite Hx. cbn [bindRes].
    repeat case_decide; eauto. destruct (isRevealed x); eauto.
  - intros Hdraws.
    destruct (decide (status s = idle)) as [Hidle|Hni]; [|left; by apply Hlater].
    destruct (isFlagged x) eqn:Hflag.
    { left. exists s. unfold revealCell, getCell.
      rewrite decide_False, decide_False, Hx by congruence. cbn [bindRes].
      by rewrite Hflag, orb_true_r. }
    assert (Hhid : isRevealed x = false).
    { unfold invariant in Hinv. rewrite decide_True in Hinv by done.
      by rewrite (idleBoard_cellAt _ _ _ _ _ Hinv Hx). }
    rewrite (revealCell_enter s random r c x) by congruence.
    assert (Hrange : Forall (λ q, is_Some (cellAt (grid s) q.1 q.2)) random).
    { apply list.Forall_forall. intros q Hq.
      rewrite forallb_forall in Hdraws. apply list_elem_of_In, Hdraws in Hq.
      apply (hasDims_cellAt _ _ _ _ Hdims). unfold inRange in Hq.
      rewrite !andb_true_iff in Hq. lia. }
    destruct (placeLoop_in_range (DIFFICULTIES (difficulty s)) r c random (grid s) 0 Hrange)
      as [[gm Hgm]|Hfail].
    + assert (Hdims1 : hasDims (DIFFICULTIES (difficulty s)) gm).
      { destruct (placeLoop_sound _ _ _ _ _ _ _ Hgm) as (Hs1 & _).
        eapply hasDims_shape; [eapply sameModulo_shape, Hs1|done]. }
      destruct (computeNeighbors_total _ _ Hdims1) as [gp Hgp].
      assert (Hdims2 : hasDims (DIFFICULTIES (difficulty s)) gp).
      { destruct (computeNeighbors_sound _ _ _ Hdims1 Hgp) as (Hs2 & _).
        eapply hasDims_shape; [eapply sameModulo_shape, Hs2|done]. }
      assert (Hplace : placeMines (difficulty s) (grid s) r c random = Ok gp).
      { unfold placeMines. rewrite Hgm. exact Hgp. }
      rewrite (revealPhase_idle _ _ _ _ _ Hidle Hplace).
      destruct (reveal_returns
                  (withGrid gp (startTimer (setStatus playing (pendingOf s)))) r c)
        as (p' & Hp' & _).
      { eapply hasDims_rect. exact Hdims2. }
      left. change (newGrid (withGrid gp (startTimer (setStatus playing (pendingOf s)))))
        with gp in Hp'.
      rewrite Hp'. cbn [bindRes]. eauto.
    + right. unfold revealPhase, placeMines. rewrite decide_True by done.
      by rewrite Hfail.
Qed.

Lemma handlers_return_on_board_witness :
  (∃ s', toggleFlag oneCellLeft 7 8 = Ok s') ∧
  (status oneCellLeft ≠ idle → ∃ s', revealCell oneCellLeft [] 7 8 = Ok s') ∧
  (forallb (inRange (DIFFICULTIES (difficulty oneCellLeft))) [] = true →
   (∃ s', revealCell oneCellLeft [] 7 8 = Ok s') ∨
   revealCell oneCellLeft [] 7 8 = Fail RandomExhausted).
Proof.
  apply (handlers_return_on_board oneCellLeft [] 7 8).
  - apply oneCellLeft_reachable.
  - vm_compute. split; [discriminate|reflexivity].
  - vm_compute. split; [discriminate|reflexivity].
Defined.
(** ** Restart *)

(** A restart forgets the game: the state it leaves depends on the difficulty
    and on whether a handle of the interval is held, and on nothing else. *)
Theorem restart_forgets_game (s1 s2 : State) :
  reachable s1 → reachable s2 →
  difficulty s1 = difficulty s2 → timerRef s1 = timerRef s2 →
  startGame s1 = startGame s2.
Proof.
  intros Hr1 Hr2 Hd Ht.
  destruct (reachable_clock _ Hr1) as (Hc1 & _).
  destruct (reachable_clock _ Hr2) as (Hc2 & _).
  unfold startGame. rewrite Hd, Ht. f_equal.
  destruct (timerRef s2) eqn:Href; [done|].
  destruct (ticking s1); [destruct (Hc1 eq_refl); congruence|].
  destruct (ticking s2); [destruct (Hc2 eq_refl); congruence|done].
Qed.

Lemma restart_forgets_game_witness : startGame wonGame = startGame mounted.
Proof.
  apply (restart_forgets_game wonGame mounted).
  - apply wonGame_reachable.
  - apply reachable_mounted.
  - vm_compute. reflexivity.
  - vm_compute. reflexivity.
Defined.

(** When the game is restarted after it was won or lost, the clock of the new
    game starts with its first reveal, and the first tick shows 1. *)
Theorem restart_after_end_starts_clock (s : State) random r c s' :
  reachable s → status s = won ∨ status s = lost →
  revealCell (startGame s) random r c = Ok s' → status s' = playing →
  ticking s' = true ∧ timer (tick s') = 1.
Proof.
  intros Hreach Hover Hstep Hplay.
  destruct (reachable_clock _ Hreach) as (_ & _ & Hoff & _).
  assert (Hreach' : reachable (startGame s)) by by eapply (reachable_dispatch s DoRestart).
  destruct (first_reveal_clock _ _ _ _ _ Hreach' eq_refl Hstep Hplay) as (Ht & _ & Hz).
  cbn [startGame timerRef] in Ht. rewrite (Hoff Hover) in Ht.
  split; [exact Ht|]. unfold tick. cbn [timer]. rewrite Ht, Hz. done.
Qed.

Lemma restart_after_end_starts_clock_witness :
  ticking secondGame = true ∧ timer (tick secondGame) = 1.
Proof.
  apply (restart_after_end_starts_clock wonGame bottomDraws 0 0 secondGame).
  - apply wonGame_reachable.
  - left. vm_compute. reflexivity.
  - vm_compute. reflexivity.
  - vm_compute. reflexivity.
Defined.
